(** * encrypted-json-protocol: a model of [index.js] and its properties

    The module exports a factory.  Given a version number and a table of
    message types it returns a [Protocol] constructor; every instance is a
    duplex stream that exchanges length-prefixed JSON tuples [[prefix, body]]
    and, once nonces have been exchanged, runs every byte of each direction
    through a keyed stream cipher.

    The development follows the source function by function.  JavaScript
    values, strings, buffers and errors are given as data types; the objects
    used as dictionaries are finite maps; the methods of an instance are
    programs of a state-and-exception monad over a record holding the
    instance's fields.  The npm packages the source requires (the cipher,
    the framing codec, the JSON reader and writer of the host) are
    interfaces, stated as type classes.

    The streams are followed as far as the methods depend on them.  The
    encoder is piped into [_readableStream] in flowing mode, so the chunks of
    a write pass the transform during the write; the callback of a write,
    and that of the end, is called by the stream on a later tick.  A history
    of an instance interleaves the calls of the application, the chunks and
    frames that come in, and those ticks. *)

From Stdlib Require Import QArith Strings.Byte Strings.Ascii.
From stdpp Require Import base option list gmap sorting strings.

Local Open Scope N_scope.
Local Open Scope nat_scope.

(** ** JavaScript data *)

(** A string is its sequence of UTF-16 code units. *)
Definition jsstring := list N.

Fixpoint js (s : string) : jsstring :=
  match s with
  | EmptyString => []
  | String a rest => N_of_ascii a :: js rest
  end.

Arguments js : simpl never.

(** A [Buffer] is its sequence of bytes. *)
Definition buffer := list byte.

(** Numbers: the finite ones are rationals (every double is one), and
    [-0] is not told apart from [0], which [===] does not either. *)
Inductive number :=
| Finite (q : Q)
| Infinity (negative : bool)
| NaN.

(** [a === b] on numbers. *)
Definition number_eqb (a b : number) : bool :=
  match a, b with
  | Finite p, Finite q => Qeq_bool p q
  | Infinity s, Infinity t => Bool.eqb s t
  | _, _ => false
  end.

Definition of_nat (n : nat) : number := Finite (inject_Z (Z.of_nat n)).

Definition Q_is_integer (q : Q) : bool :=
  (Qnum q mod Zpos (Qden q) =? 0)%Z.

(** Values: what [JSON.parse] can return, and [undefined]. An object is the
    list of its own properties in order. *)
#[warnings="-register-all"]
Inductive value :=
| JUndefined
| JNull
| JBool (b : bool)
| JNumber (n : number)
| JString (s : jsstring)
| JArray (items : list value)
| JObject (properties : list (jsstring * value)).

(** [a === b] on strings. *)
Fixpoint jsstring_eqb (a b : jsstring) : bool :=
  match a, b with
  | [], [] => true
  | x :: a', y :: b' => (x =? y)%N && jsstring_eqb a' b'
  | _, _ => false
  end.

(** [object[key]] on own properties; [undefined] when there is none. *)
Fixpoint get_property (properties : list (jsstring * value)) (key : jsstring)
  : value :=
  match properties with
  | [] => JUndefined
  | (k, v) :: rest => if jsstring_eqb k key then v else get_property rest key
  end.

(** [array[i]]. *)
Definition get_index (v : value) (i : nat) : value :=
  match v with
  | JArray items => default JUndefined (items !! i)
  | _ => JUndefined
  end.

(** Errors.  Besides its message an [Error] object of this program may
    carry a [version] (set by [_parse]) or an [errors] property (set by
    [_sendMessage]; its value may be [null]). *)
Inductive error_class := ErrorC | SyntaxErrorC | TypeErrorC | AssertionErrorC.

Record error := {
  error_class_of : error_class;
  message : jsstring;
  error_version : option value;
  error_errors : option (option (list value))
}.

Definition new_Error (msg : string) : error :=
  {| error_class_of := ErrorC; message := js msg;
     error_version := None; error_errors := None |}.

Definition AssertionError (msg : string) : error :=
  {| error_class_of := AssertionErrorC; message := js msg;
     error_version := None; error_errors := None |}.

Definition TypeError (msg : string) : error :=
  {| error_class_of := TypeErrorC; message := js msg;
     error_version := None; error_errors := None |}.

(** What [JSON.parse] throws; its message depends on the engine. *)
Definition SyntaxError : error :=
  {| error_class_of := SyntaxErrorC; message := js "Unexpected token";
     error_version := None; error_errors := None |}.

(** ** Buffers and text *)

Definition byte_of_N (n : N) : byte := default x00 (Byte.of_N n).

Definition byte_xor (a b : byte) : byte :=
  byte_of_N (N.lxor (Byte.to_N a) (Byte.to_N b)).

(** The value of a hexadecimal digit, in either case. *)
Definition hex_value (c : N) : option N :=
  if (48 <=? c)%N && (c <=? 57)%N then Some (c - 48)%N
  else if (97 <=? c)%N && (c <=? 102)%N then Some (c - 87)%N
  else if (65 <=? c)%N && (c <=? 70)%N then Some (c - 55)%N
  else None.

(** [Buffer.from(s, 'hex')]: one byte for each pair of digits, stopping at
    the first pair that is not hexadecimal; a last odd digit is dropped. *)
Fixpoint Buffer_from_hex (s : jsstring) : buffer :=
  match s with
  | a :: b :: rest =>
      match hex_value a, hex_value b with
      | Some hi, Some lo => byte_of_N (16 * hi + lo) :: Buffer_from_hex rest
      | _, _ => []
      end
  | _ => []
  end.

Definition hex_digit (n : N) : N :=
  if (n <? 10)%N then (48 + n)%N else (87 + n)%N.

(** [buffer.toString('hex')]. *)
Fixpoint Buffer_toString_hex (b : buffer) : jsstring :=
  match b with
  | [] => []
  | x :: rest =>
      hex_digit (Byte.to_N x / 16) :: hex_digit (Byte.to_N x mod 16)
        :: Buffer_toString_hex rest
  end.

(** UTF-8 of one code point. *)
Definition utf8_code_point (c : N) : buffer :=
  if (c <? 128)%N then [byte_of_N c]
  else if (c <? 2048)%N then
    [byte_of_N (192 + c / 64); byte_of_N (128 + c mod 64)]
  else if (c <? 65536)%N then
    [byte_of_N (224 + c / 4096); byte_of_N (128 + (c / 64) mod 64);
     byte_of_N (128 + c mod 64)]
  else
    [byte_of_N (240 + c / 262144); byte_of_N (128 + (c / 4096) mod 64);
     byte_of_N (128 + (c / 64) mod 64); byte_of_N (128 + c mod 64)].

Definition is_high_surrogate (c : N) : bool := (55296 <=? c)%N && (c <? 56320)%N.
Definition is_low_surrogate (c : N) : bool := (56320 <=? c)%N && (c <? 57344)%N.

(** [Buffer.from(s, 'utf8')]: surrogate pairs are joined, a lone surrogate
    becomes U+FFFD. *)
Fixpoint Buffer_from_utf8 (s : jsstring) : buffer :=
  match s with
  | [] => []
  | c :: rest =>
      if is_high_surrogate c then
        match rest with
        | d :: rest' =>
            if is_low_surrogate d then
              utf8_code_point (65536 + (c - 55296) * 1024 + (d - 56320))%N
                ++ Buffer_from_utf8 rest'
            else utf8_code_point 65533 ++ Buffer_from_utf8 rest
        | [] => utf8_code_point 65533
        end
      else if is_low_surrogate c then
        utf8_code_point 65533 ++ Buffer_from_utf8 rest
      else utf8_code_point c ++ Buffer_from_utf8 rest
  end.

(** ** The packages the program builds on *)

(** [sodium-universal]: the two length constants and the key stream of
    [crypto_stream], byte [offset] of the stream for a nonce and a key. *)
Class Sodium := {
  STREAM_NONCEBYTES : nat;
  STREAM_KEYBYTES : nat;
  crypto_stream : buffer -> buffer -> N -> byte
}.

(** [length-prefixed-stream]: the chunks its encoder pushes for one buffer
    written to it. *)
Class Framing := {
  lengthPrefixedStream_encode : buffer -> list buffer
}.

(** The host's [JSON]: [JSON.parse] of a buffer ([None] when it throws) and
    [JSON.stringify]. *)
Class Json := {
  JSON_parse : buffer -> option value;
  JSON_stringify : value -> jsstring
}.

(** An instance of [crypto_stream_xor_instance]: it remembers how much of
    the key stream it has used. *)
Record cipher := {
  cipher_nonce : buffer;
  cipher_key : buffer;
  cipher_offset : N
}.

Section Cipher.
Context `{Sodium}.

Definition crypto_stream_xor_instance (nonce secretKey : buffer) : cipher :=
  {| cipher_nonce := nonce; cipher_key := secretKey; cipher_offset := 0 |}.

Fixpoint stream_xor (nonce secretKey : buffer) (offset : N) (chunk : buffer)
  : buffer :=
  match chunk with
  | [] => []
  | b :: rest =>
      byte_xor b (crypto_stream nonce secretKey offset)
        :: stream_xor nonce secretKey (N.succ offset) rest
  end.

(** [instance.update(chunk, chunk)]: the transformed chunk, and the
    instance moved on by the chunk's length. *)
Definition cipher_update (c : cipher) (chunk : buffer) : cipher * buffer :=
  ({| cipher_nonce := cipher_nonce c; cipher_key := cipher_key c;
      cipher_offset := cipher_offset c + N.of_nat (length chunk) |},
   stream_xor (cipher_nonce c) (cipher_key c) (cipher_offset c) chunk).

(** The chunks of a list through [update] one after the other: the
    instance after the last, and the transformed chunks. *)
Fixpoint update_chunks (c : cipher) (chunks : list buffer)
  : cipher * list buffer :=
  match chunks with
  | [] => (c, [])
  | chunk :: rest =>
      ((update_chunks (cipher_update c chunk).1 rest).1,
       (cipher_update c chunk).2
         :: (update_chunks (cipher_update c chunk).1 rest).2)
  end.

End Cipher.

(** ** Channel instances *)

Record event := {
  event_name : jsstring;
  event_args : list value
}.

Inductive direction := Sending | Receiving.

#[export] Instance direction_eq_dec : EqDecision direction.
Proof. solve_decision. Defined.

(** A callback taking an optional error is called with [None], for
    [callback()], or with [Some e], for [callback(e)]. *)
Definition callback_argument := option error.

(** The callbacks of the application: [handshake], a send and [finalize]
    each take one. *)
Inductive callback :=
| handshake_callback
| sendMessage_callback
| finalize_callback.

(** The functions the encoder is given to call when a write, or the end,
    is done: the function [handshake] makes around its callback, or the
    callback of a send or of [finalize] as it is. *)
Inductive continuation :=
| handshake_written
| sendMessage_given
| finalize_given.

(** What a step has done to the application's callbacks: called none, or
    called one with an argument. *)
Inductive reply :=
| NoReply
| Reply (c : callback) (argument : callback_argument).

(** The fields of an instance.  Besides the properties the source sets on
    [this], the record keeps what the instance has done to its surroundings:
    the chunks pushed by [_readableStream] to the transport, the chunks
    [_writableStream] passed on to the frame decoder, the events emitted, the
    error [destroy] was called with, whether [_encoderStream] has been ended,
    the ciphers on which [final()] has run, and the functions the encoder
    holds to call on a later tick. All lists are oldest first. *)
Record channel := {
  _key : buffer;
  _sendingNonce : buffer;
  _sendingCipher : option cipher;
  _sentNonce : bool;
  _receivingNonce : option buffer;
  _receivingCipher : option cipher;
  encoder_ended : bool;
  pushed : list buffer;
  decoded : list buffer;
  emitted : list event;
  destroyed : option error;
  finals : list (direction * cipher);
  nextTick : list continuation
}.

Definition set_sendingCipher (c : option cipher) (s : channel) : channel :=
  {| _key := _key s; _sendingNonce := _sendingNonce s; _sendingCipher := c;
     _sentNonce := _sentNonce s; _receivingNonce := _receivingNonce s;
     _receivingCipher := _receivingCipher s; encoder_ended := encoder_ended s;
     pushed := pushed s; decoded := decoded s; emitted := emitted s;
     destroyed := destroyed s; finals := finals s;
     nextTick := nextTick s |}.

Definition set_sentNonce (b : bool) (s : channel) : channel :=
  {| _key := _key s; _sendingNonce := _sendingNonce s;
     _sendingCipher := _sendingCipher s;
     _sentNonce := b; _receivingNonce := _receivingNonce s;
     _receivingCipher := _receivingCipher s; encoder_ended := encoder_ended s;
     pushed := pushed s; decoded := decoded s; emitted := emitted s;
     destroyed := destroyed s; finals := finals s;
     nextTick := nextTick s |}.

Definition set_receivingNonce (n : option buffer) (s : channel) : channel :=
  {| _key := _key s; _sendingNonce := _sendingNonce s;
     _sendingCipher := _sendingCipher s;
     _sentNonce := _sentNonce s; _receivingNonce := n;
     _receivingCipher := _receivingCipher s; encoder_ended := encoder_ended s;
     pushed := pushed s; decoded := decoded s; emitted := emitted s;
     destroyed := destroyed s; finals := finals s;
     nextTick := nextTick s |}.

Definition set_receivingCipher (c : option cipher) (s : channel) : channel :=
  {| _key := _key s; _sendingNonce := _sendingNonce s;
     _sendingCipher := _sendingCipher s;
     _sentNonce := _sentNonce s; _receivingNonce := _receivingNonce s;
     _receivingCipher := c; encoder_ended := encoder_ended s;
     pushed := pushed s; decoded := decoded s; emitted := emitted s;
     destroyed := destroyed s; finals := finals s;
     nextTick := nextTick s |}.

Definition set_encoder_ended (b : bool) (s : channel) : channel :=
  {| _key := _key s; _sendingNonce := _sendingNonce s;
     _sendingCipher := _sendingCipher s;
     _sentNonce := _sentNonce s; _receivingNonce := _receivingNonce s;
     _receivingCipher := _receivingCipher s; encoder_ended := b;
     pushed := pushed s; decoded := decoded s; emitted := emitted s;
     destroyed := destroyed s; finals := finals s;
     nextTick := nextTick s |}.

Definition add_pushed (chunk : buffer) (s : channel) : channel :=
  {| _key := _key s; _sendingNonce := _sendingNonce s;
     _sendingCipher := _sendingCipher s;
     _sentNonce := _sentNonce s; _receivingNonce := _receivingNonce s;
     _receivingCipher := _receivingCipher s; encoder_ended := encoder_ended s;
     pushed := pushed s ++ [chunk]; decoded := decoded s; emitted := emitted s;
     destroyed := destroyed s; finals := finals s;
     nextTick := nextTick s |}.

Definition add_decoded (chunk : buffer) (s : channel) : channel :=
  {| _key := _key s; _sendingNonce := _sendingNonce s;
     _sendingCipher := _sendingCipher s;
     _sentNonce := _sentNonce s; _receivingNonce := _receivingNonce s;
     _receivingCipher := _receivingCipher s; encoder_ended := encoder_ended s;
     pushed := pushed s; decoded := decoded s ++ [chunk]; emitted := emitted s;
     destroyed := destroyed s; finals := finals s;
     nextTick := nextTick s |}.

Definition add_emitted (e : event) (s : channel) : channel :=
  {| _key := _key s; _sendingNonce := _sendingNonce s;
     _sendingCipher := _sendingCipher s;
     _sentNonce := _sentNonce s; _receivingNonce := _receivingNonce s;
     _receivingCipher := _receivingCipher s; encoder_ended := encoder_ended s;
     pushed := pushed s; decoded := decoded s; emitted := emitted s ++ [e];
     destroyed := destroyed s; finals := finals s;
     nextTick := nextTick s |}.

Definition set_destroyed (e : option error) (s : channel) : channel :=
  {| _key := _key s; _sendingNonce := _sendingNonce s;
     _sendingCipher := _sendingCipher s;
     _sentNonce := _sentNonce s; _receivingNonce := _receivingNonce s;
     _receivingCipher := _receivingCipher s; encoder_ended := encoder_ended s;
     pushed := pushed s; decoded := decoded s; emitted := emitted s;
     destroyed := e; finals := finals s;
     nextTick := nextTick s |}.

Definition add_final (d : direction) (c : cipher) (s : channel) : channel :=
  {| _key := _key s; _sendingNonce := _sendingNonce s;
     _sendingCipher := _sendingCipher s;
     _sentNonce := _sentNonce s; _receivingNonce := _receivingNonce s;
     _receivingCipher := _receivingCipher s; encoder_ended := encoder_ended s;
     pushed := pushed s; decoded := decoded s; emitted := emitted s;
     destroyed := destroyed s; finals := finals s ++ [(d, c)];
     nextTick := nextTick s |}.

Definition set_nextTick (queue : list continuation) (s : channel) : channel :=
  {| _key := _key s; _sendingNonce := _sendingNonce s;
     _sendingCipher := _sendingCipher s;
     _sentNonce := _sentNonce s; _receivingNonce := _receivingNonce s;
     _receivingCipher := _receivingCipher s; encoder_ended := encoder_ended s;
     pushed := pushed s; decoded := decoded s; emitted := emitted s;
     destroyed := destroyed s; finals := finals s; nextTick := queue |}.

Definition add_nextTick (k : continuation) (s : channel) : channel :=
  set_nextTick (nextTick s ++ [k]) s.

(** ** Methods as programs *)

(** How a call ends: it returns, or it throws. *)
Inductive completion (A : Type) :=
| Normal (a : A)
| Throw (e : error).
Arguments Normal {A} a.
Arguments Throw {A} e.

(** A method reads and writes the fields of [this]; what it wrote before
    throwing stays written. *)
Definition M (A : Type) : Type := channel -> completion A * channel.

#[export] Instance M_ret : MRet M := fun A a s => (Normal a, s).
#[export] Instance M_bind : MBind M := fun A B k m s =>
  match m s with
  | (Normal a, s') => k a s'
  | (Throw e, s') => (Throw e, s')
  end.
#[export] Instance M_throw : MThrow error M := fun A e s => (Throw e, s).

Definition this : M channel := fun s => (Normal s, s).
Definition assign (f : channel -> channel) : M unit := fun s => (Normal tt, f s).

(** [assert(condition, message)] of nanoassert. *)
Definition assert (condition : bool) (msg : jsstring) : M unit :=
  if condition then mret tt
  else mthrow {| error_class_of := AssertionErrorC; message := msg;
                 error_version := None; error_errors := None |}.

(** [this.emit(name, ...args)]. *)
Definition emit (name : jsstring) (args : list value) : M unit :=
  assign (add_emitted {| event_name := name; event_args := args |}).

(** The same for code that runs before there is an instance. *)
#[export] Instance completion_ret : MRet completion := fun A a => Normal a.
#[export] Instance completion_bind : MBind completion := fun A B k m =>
  match m with
  | Normal a => k a
  | Throw e => Throw e
  end.

Definition assert_ (condition : bool) (msg : string) : completion unit :=
  if condition then Normal tt else Throw (AssertionError msg).

(** ** The factory: message types and their prefixes *)

(** A compiled schema.  Calling it leaves its verdict in its [errors]
    property: [null] when the value is valid, the list of failures when it
    is not. The model returns that property. *)
Definition validator := value -> option (list value).

Definition accepts (valid : validator) (data : value) : bool :=
  match valid data with
  | None => true
  | Some _ => false
  end.

Record message_type := {
  name : jsstring;
  valid : validator;
  verify : value -> bool;
  prefix : nat
}.

(** The [verify] property of a message's options. *)
Inductive verify_property :=
| verify_absent
| verify_not_a_function
| verify_function (f : value -> bool).

(** The options of one message.  [schema] is [None] when the object has no
    such property of its own, and else is what [ajv.compile] does with the
    property: it returns a compiled schema or throws. *)
Record message_options := {
  schema : option (completion validator);
  options_verify : verify_property
}.

(** A property of [messages]: [null] or [undefined], or a value that has
    properties. *)
Inductive message_entry :=
| entry_null
| entry_object (options : message_options).

(** The [messages] property of the factory's options: a value whose type
    is not ['object'], [null], or an object, given by its own properties. *)
Inductive messages_property :=
| messages_not_an_object
| messages_null
| messages_object (entries : gmap jsstring message_entry).

(** The argument of the factory, an object. *)
Record factory_options := {
  options_version : value;
  options_messages : messages_property
}.

(** The entries of [options.messages]. *)
Definition messages (options : factory_options)
  : gmap jsstring message_entry :=
  match options_messages options with
  | messages_object entries => entries
  | _ => ∅
  end.

(** What the factory's closure holds for the methods of [Protocol]. *)
Record protocol := {
  version : number;
  messageTypesByName : gmap jsstring message_type;
  messageTypesByPrefix : gmap nat message_type;
  messageTypePrefixes : list nat
}.

Definition HANDSHAKE_PREFIX : nat := 0.

(** The order of [Array.prototype.sort] without a comparator: strings by
    code units, a proper prefix first. *)
Fixpoint jsstring_leb (a b : jsstring) : bool :=
  match a, b with
  | [], _ => true
  | _ :: _, [] => false
  | x :: a', y :: b' =>
      if (x <? y)%N then true
      else if (x =? y)%N then jsstring_leb a' b'
      else false
  end.

Definition jsstring_le (a b : jsstring) : Prop := jsstring_leb a b = true.

#[export] Instance jsstring_le_dec a b : Decision (jsstring_le a b).
Proof. unfold jsstring_le. apply _. Defined.

Definition sort (names : list jsstring) : list jsstring :=
  merge_sort jsstring_le names.

(** [Object.keys(messages)]; the order is the map's, and [sort] forgets
    it. *)
Definition Object_keys (m : gmap jsstring message_entry) : list jsstring :=
  (map_to_list m).*1.

Definition number_is_positive (n : number) : bool :=
  match n with
  | Finite q => negb (Qle_bool q 0)
  | Infinity negative => negb negative
  | NaN => false
  end.

Definition Number_isSafeInteger (n : number) : bool :=
  match n with
  | Finite q =>
      Q_is_integer q && Qle_bool (-(9007199254740991 # 1)) q
        && Qle_bool q (9007199254740991 # 1)
  | _ => false
  end.

(** [options.verify || function () { return true }]. *)
Definition verify_or_default (property : verify_property) : value -> bool :=
  match property with
  | verify_function f => f
  | _ => fun _ => true
  end.

(** The body of the [forEach] over the sorted names, for the name at
    [index], on the tables built so far.  The method the loop installs under
    the name on the prototype is [_sendMessage] applied to the name. *)
Definition register_message (messages : gmap jsstring message_entry)
    (name : jsstring) (index : nat) (tables : protocol) : completion protocol :=
  match messages !! name with
  | None => Throw (TypeError "Cannot read properties of undefined")
  | Some entry_null => Throw (TypeError "Cannot read properties of null")
  | Some (entry_object options) =>
      match schema options with
      | None => Throw (AssertionError "message type must have schema")
      | Some compile =>
          match options_verify options with
          | verify_not_a_function =>
              Throw (AssertionError "verify must be a Function")
          | property =>
              valid ← compile;
              let prefix := index + 1 in
              let type :=
                {| name := name;
                   valid := valid;
                   verify := verify_or_default property;
                   prefix := prefix |} in
              Normal
                {| version := version tables;
                   messageTypesByName :=
                     <[name := type]> (messageTypesByName tables);
                   messageTypesByPrefix :=
                     <[prefix := type]> (messageTypesByPrefix tables);
                   messageTypePrefixes :=
                     messageTypePrefixes tables ++ [prefix] |}
          end
      end
  end.

Fixpoint forEach (messages : gmap jsstring message_entry)
    (names : list jsstring) (index : nat) (tables : protocol)
  : completion protocol :=
  match names with
  | [] => Normal tables
  | name :: rest =>
      tables' ← register_message messages name index tables;
      forEach messages rest (S index) tables'
  end.

(** [module.exports] past its first line, where the argument is known to
    be an object: the factory, under the name the test gives it. *)
Definition makeProtocol (options : factory_options) : completion protocol :=
  match options_version options with
  | JNumber version =>
      assert_ (number_is_positive version)
        "version must be greater than zero";;
      assert_ (Number_isSafeInteger version) "version must be safe integer";;
      match options_messages options with
      | messages_not_an_object =>
          Throw (AssertionError "messages must be an Object")
      | messages_null =>
          Throw (TypeError "Cannot convert undefined or null to object")
      | messages_object messages =>
          let messageNames := Object_keys messages in
          assert_ (negb (length messageNames =? 0))
            "messages must have properties";;
          forEach messages (sort messageNames) 0
            {| version := version;
               messageTypesByName := ∅;
               messageTypesByPrefix := ∅;
               messageTypePrefixes := [0] |}
      end
  | _ => Throw (AssertionError "version must be a Number")
  end.

(** What [module.exports] can be called with: a value whose type is not
    ['object'], [null], or an object. *)
Inductive factory_argument :=
| argument_not_an_object
| argument_null
| argument_object (options : factory_options).

(** [module.exports]. *)
Definition module_exports (argument : factory_argument)
  : completion protocol :=
  match argument with
  | argument_not_an_object =>
      Throw (AssertionError "argument must be an Object")
  | argument_null => Throw (TypeError "Cannot read properties of null")
  | argument_object options => makeProtocol options
  end.

(** ** The methods of [Protocol] *)

Section Protocol.
Context `{Sodium} `{Framing} `{Json}.

(** The variables of the factory's closure. *)
Variable P : protocol.

Definition is_undefined (v : value) : bool :=
  match v with
  | JUndefined => true
  | _ => false
  end.

(** [v === n] for a number [n]. *)
Definition strict_equals (v : value) (n : number) : bool :=
  match v with
  | JNumber m => number_eqb m n
  | _ => false
  end.

(** The compiled tuple schema: an array; its first item, if there is one,
    a number of the [enum]; its second item, if there is one, anything;
    no third item. *)
Definition validTuple (data : value) : bool :=
  match data with
  | JArray items =>
      match items with
      | [] => true
      | first :: _ =>
          match first with
          | JNumber n =>
              existsb (fun p => number_eqb n (of_nat p)) (messageTypePrefixes P)
          | _ => false
          end
      end
      && (length items <=? 2)
  | _ => false
  end.

(** A string matched by [^class{n}$]. *)
Fixpoint matches_repeated (class : N -> bool) (n : nat) (s : jsstring) : bool :=
  match n, s with
  | 0, [] => true
  | S n', c :: rest => class c && matches_repeated class n' rest
  | _, _ => false
  end.

(** The class [[a-f0-9]]. *)
Definition lower_hex (c : N) : bool :=
  ((97 <=? c)%N && (c <=? 102)%N) || ((48 <=? c)%N && (c <=? 57)%N).

Definition valid_version (data : value) : bool :=
  match data with
  | JNumber (Finite q) => Q_is_integer q && Qle_bool 1 q
  | _ => false
  end.

Definition valid_nonce (data : value) : bool :=
  match data with
  | JString s => matches_repeated lower_hex (STREAM_NONCEBYTES * 2) s
  | _ => false
  end.

(** The compiled handshake schema. *)
Definition validHandshake (data : value) : bool :=
  match data with
  | JObject properties =>
      negb (is_undefined (get_property properties (js "version")))
      && negb (is_undefined (get_property properties (js "nonce")))
      && valid_version (get_property properties (js "version"))
      && valid_nonce (get_property properties (js "nonce"))
      && forallb (fun kv => jsstring_eqb kv.1 (js "version")
                            || jsstring_eqb kv.1 (js "nonce")) properties
  | _ => false
  end.

(** [body.version] and [body.nonce]. *)
Definition property_of (data : value) (key : string) : value :=
  match data with
  | JObject properties => get_property properties (js key)
  | _ => JUndefined
  end.

(** [messageTypesByPrefix[prefix]].  The keys of the table are the
    prefixes; a value that is not a natural number spells none of them. *)
Definition type_with_prefix (prefix : value) : option message_type :=
  match prefix with
  | JNumber (Finite q) =>
      if Q_is_integer q && Qle_bool 0 q
      then messageTypesByPrefix P !! Z.to_nat (Qnum q / Zpos (Qden q))
      else None
  | _ => None
  end.

Definition initializeCipher (nonce secretKey : buffer) : M cipher :=
  assert (length nonce =? STREAM_NONCEBYTES)
    (js "nonce must be STREAM_NONCEBYTES long");;
  assert (length secretKey =? STREAM_KEYBYTES)
    (js "secretKey must be STREAM_KEYBYTES long");;
  mret (crypto_stream_xor_instance nonce secretKey).

(** [Duplexify.prototype.destroy]: only the first call counts. *)
Definition destroy (e : error) : M unit :=
  s ← this;
  match destroyed s with
  | Some _ => mret tt
  | None => assign (set_destroyed (Some e))
  end.

(** The transform of [_readableStream], for one chunk coming from the
    encoder: once the nonce has been sent the chunk is encrypted in place;
    then it is pushed. *)
Definition _readableStream_transform (chunk : buffer) : M unit :=
  s ← this;
  if _sentNonce s then
    match _sendingCipher s with
    | Some c =>
        assign (set_sendingCipher (Some (cipher_update c chunk).1));;
        assign (add_pushed (cipher_update c chunk).2)
    | None => mthrow (TypeError "Cannot read properties of null")
    end
  else assign (add_pushed chunk).

Fixpoint for_each_chunk (f : buffer -> M unit) (chunks : list buffer) : M unit :=
  match chunks with
  | [] => mret tt
  | chunk :: rest => f chunk;; for_each_chunk f rest
  end.

(** [this._encoderStream.write(buffer, callback)].  The encoder is piped
    into [_readableStream] and the pipe is flowing: the chunks the encoder
    makes of the buffer go through the transform during the call.  The
    callback does not run during the call: the stream keeps it and calls it
    on a later tick.  A write to an encoder that has been ended makes the
    encoder emit [error]; nothing listens for it there, so the call throws
    that error and the callback is dropped. *)
Definition _encoderStream_write (buffer : buffer) (callback : continuation)
  : M unit :=
  s ← this;
  if encoder_ended s then mthrow (new_Error "write after end")
  else
    for_each_chunk _readableStream_transform
      (lengthPrefixedStream_encode buffer);;
    assign (add_nextTick callback).

(** [this._encoderStream.end(callback)]: the callback is kept for the
    [finish] event, which comes on a later tick, after the callbacks of the
    writes before it; a stream that is ending already ignores the call. *)
Definition _encoderStream_end (callback : continuation) : M unit :=
  s ← this;
  if encoder_ended s then mret tt
  else
    assign (set_encoder_ended true);;
    assign (add_nextTick callback).

(** The transform of [_writableStream], for one chunk coming from the
    transport: decrypted in place once there is a receiving cipher, and
    passed on to the frame decoder. *)
Definition _writableStream_transform (chunk : buffer) : M unit :=
  s ← this;
  match _receivingCipher s with
  | Some c =>
      assign (set_receivingCipher (Some (cipher_update c chunk).1));;
      assign (add_decoded (cipher_update c chunk).2)
  | None => assign (add_decoded chunk)
  end.

Definition _initializeReadable (random : buffer) : M unit :=
  assign (fun s =>
    {| _key := _key s; _sendingNonce := random;
       _sendingCipher := _sendingCipher s;
       _sentNonce := _sentNonce s; _receivingNonce := _receivingNonce s;
       _receivingCipher := _receivingCipher s;
       encoder_ended := encoder_ended s;
       pushed := pushed s; decoded := decoded s; emitted := emitted s;
       destroyed := destroyed s; finals := finals s;
       nextTick := nextTick s |});;
  s ← this;
  c ← initializeCipher (_sendingNonce s) (_key s);
  assign (set_sendingCipher (Some c)).

Definition _initializeWritable : M unit :=
  assign (set_receivingNonce None);;
  assign (set_receivingCipher None).

(** [new Protocol({ key })]; [random] is what [randombytes_buf] writes into
    the fresh nonce buffer of [STREAM_NONCEBYTES] bytes. *)
Definition Protocol (key random : buffer) : completion channel :=
  let construct : M unit :=
    assert (length key =? STREAM_KEYBYTES)
      (js "key must be crypto_stream_KEYBYTES long");;
    _initializeReadable random;;
    _initializeWritable in
  match construct
          {| _key := key; _sendingNonce := []; _sendingCipher := None;
             _sentNonce := false; _receivingNonce := None;
             _receivingCipher := None; encoder_ended := false;
             pushed := []; decoded := []; emitted := [];
             destroyed := None; finals := []; nextTick := [] |} with
  | (Normal _, s) => Normal s
  | (Throw e, _) => Throw e
  end.

Definition _encode (prefix : nat) (body : value) (callback : continuation)
  : M unit :=
  let tuple := JArray [JNumber (of_nat prefix); body] in
  let buffer := Buffer_from_utf8 (JSON_stringify tuple) in
  _encoderStream_write buffer callback.

(** The function [handshake] hands to [_encode] as the callback of the
    write. *)
Definition handshake_after_write (error : callback_argument) : M reply :=
  match error with
  | Some e => mret (Reply handshake_callback (Some e))
  | None =>
      assign (set_sentNonce true);;
      mret (Reply handshake_callback None)
  end.

Definition handshake : M reply :=
  s ← this;
  if _sentNonce s
  then mret (Reply handshake_callback
               (Some (new_Error "already sent handshake")))
  else
    _encode HANDSHAKE_PREFIX
      (JObject [(js "version", JNumber (version P));
                (js "nonce", JString (Buffer_toString_hex (_sendingNonce s)))])
      handshake_written;;
    mret NoReply.

Definition invalid_error (typeName : jsstring) (errors : option (list value))
  : error :=
  {| error_class_of := ErrorC; message := js "invalid " ++ typeName;
     error_version := None; error_errors := Some errors |}.

Definition _sendMessage (typeName : jsstring) (data : value) : M reply :=
  match messageTypesByName P !! typeName with
  | None =>
      assert false (js "unknown message type: " ++ typeName);; mret NoReply
  | Some type =>
      if accepts (valid type) data && verify type data
      then _encode (prefix type) data sendMessage_given;; mret NoReply
      else mthrow (invalid_error typeName (valid type data))
  end.

(** [finalize(callback)]; [drain] is what the [_finalize] hook, which the
    source calls and does not define, calls back with.  The function handed
    to the hook runs as part of the call, so what it throws shows as thrown
    by [finalize]. *)
Definition finalize (drain : callback_argument) : M unit :=
  match drain with
  | Some error => destroy error
  | None =>
      _encoderStream_end finalize_given;;
      s ← this;
      match _sendingCipher s with
      | Some c => assign (add_final Sending c)
      | None => mthrow (TypeError "Cannot read properties of null")
      end;;
      assign (set_sendingCipher None);;
      match _receivingCipher s with
      | Some c => assign (add_final Receiving c)
      | None => mthrow (TypeError "Cannot read properties of null")
      end;;
      assign (set_receivingCipher None)
  end.

(** A function the encoder kept, called: the encoder's transform cannot
    fail, so it is called without an error. *)
Definition call_continuation (k : continuation) (argument : callback_argument)
  : M reply :=
  match k with
  | handshake_written => handshake_after_write argument
  | sendMessage_given => mret (Reply sendMessage_callback argument)
  | finalize_given => mret (Reply finalize_callback argument)
  end.

(** The next tick: the oldest of the functions the encoder keeps is
    called. *)
Definition tick : M reply :=
  s ← this;
  match nextTick s with
  | [] => mret NoReply
  | k :: rest => assign (set_nextTick rest);; call_continuation k None
  end.

Definition version_mismatch (remote : value) : error :=
  {| error_class_of := ErrorC; message := js "version mismatch";
     error_version := Some remote; error_errors := None |}.

Definition _parse (message : buffer) : M callback_argument :=
  match JSON_parse message with
  | None => mret (Some SyntaxError)
  | Some parsed =>
      if negb (validTuple parsed) then mret (Some (new_Error "invalid tuple"))
      else
        let prefix := get_index parsed 0 in
        let body := get_index parsed 1 in
        if strict_equals prefix (of_nat 0) && validHandshake body then
          if negb (strict_equals (property_of body "version") (version P))
          then mret (Some (version_mismatch (property_of body "version")))
          else
            s ← this;
            match _receivingCipher s with
            | None =>
                match property_of body "nonce" with
                | JString nonce =>
                    assign (set_receivingNonce (Some (Buffer_from_hex nonce)));;
                    assert (length (Buffer_from_hex nonce) =? STREAM_NONCEBYTES)
                      (js "receiving nonce must be STREAM_NONCEBYTES long");;
                    c ← initializeCipher (Buffer_from_hex nonce) (_key s);
                    assign (set_receivingCipher (Some c));;
                    emit (js "handshake") [];;
                    mret None
                | _ => mthrow (TypeError "argument must be a string")
                end
            | Some _ =>
                emit (js "handshake") [];;
                mret None
            end
        else
          match type_with_prefix prefix with
          | None => emit (js "invalid") [body];; mret None
          | Some type =>
              if negb (accepts (valid type) body) || negb (verify type body)
              then emit (js "invalid") [body];; mret None
              else emit (name type) [body];; mret None
          end
  end.

(** The transform of [_parserStream], for one frame coming from the
    decoder, with the [error] listener of the pipeline behind it. *)
Definition _parserStream_transform (chunk : buffer) : M unit :=
  error ← _parse chunk;
  match error with
  | Some e => destroy e
  | None => mret tt
  end.

End Protocol.

(** ** Histories of an instance *)

(** What can happen to an instance: the application calls one of its
    methods, the transport writes a chunk to it, the frame decoder delivers
    a frame to the parser, or a tick comes on which the encoder calls a
    function it kept. *)
Inductive call :=
| call_handshake
| call_sendMessage (typeName : jsstring) (data : value)
| call_finalize (drain : callback_argument)
| call_write (chunk : buffer)
| call_frame (message : buffer)
| call_tick.

Section Histories.
Context `{Sodium} `{Framing} `{Json}.
Variable P : protocol.

Definition perform (c : call) : M reply :=
  match c with
  | call_handshake => handshake P
  | call_sendMessage typeName data => _sendMessage P typeName data
  | call_finalize drain => finalize drain;; mret NoReply
  | call_write chunk => _writableStream_transform chunk;; mret NoReply
  | call_frame message => _parserStream_transform P message;; mret NoReply
  | call_tick => tick
  end.

(** The steps of a history in turn, with how each of them ended. *)
Fixpoint run (calls : list call) (s : channel)
  : list (completion reply) * channel :=
  match calls with
  | [] => ([], s)
  | c :: rest =>
      let (result, s') := perform c s in
      let (results, s'') := run rest s' in
      (result :: results, s'')
  end.

(** The states an instance can be in: those a history leads to from a
    fresh instance. *)
Definition reachable (s : channel) : Prop :=
  ∃ key random s0 calls,
    Protocol key random = Normal s0 ∧ (run calls s0).2 = s.


(** The tuple [handshake] writes, and its bytes. *)
Definition handshake_tuple (s : channel) : value :=
  JArray [JNumber (of_nat HANDSHAKE_PREFIX);
          JObject [(js "version", JNumber (version P));
                   (js "nonce", JString (Buffer_toString_hex (_sendingNonce s)))]].

Definition handshake_message (s : channel) : buffer :=
  Buffer_from_utf8 (JSON_stringify (handshake_tuple s)).

(** A frame the parser takes for a handshake of its own version: it parses,
    passes the tuple schema, has prefix 0 and a body that passes the
    handshake schema and names the local version. *)
Definition handshake_frame (message : buffer) : bool :=
  match JSON_parse message with
  | Some parsed =>
      validTuple P parsed
      && strict_equals (get_index parsed 0) (of_nat 0)
      && validHandshake (get_index parsed 1)
      && strict_equals (property_of (get_index parsed 1) "version") (version P)
  | None => false
  end.

(** The nonce such a frame carries. *)
Definition frame_nonce (message : buffer) : buffer :=
  match JSON_parse message with
  | Some parsed =>
      match property_of (get_index parsed 1) "nonce" with
      | JString nonce => Buffer_from_hex nonce
      | _ => []
      end
  | None => []
  end.

(** The frames of a list in turn through the parser. *)
Fixpoint receive_frames (frames : list buffer) (s : channel) : channel :=
  match frames with
  | [] => s
  | frame :: rest => receive_frames rest (_parserStream_transform P frame s).2
  end.

End Histories.

(** Chunks pushed one after the other, untouched. *)
Definition push_chunks (chunks : list buffer) (s : channel) : channel :=
  foldl (fun s chunk => add_pushed chunk s) s chunks.

Definition handshake_event : event :=
  {| event_name := js "handshake"; event_args := [] |}.

Definition invalid_event (body : value) : event :=
  {| event_name := js "invalid"; event_args := [body] |}.

(** [n] more [handshake] events and nothing else. *)
Definition handshakes_emitted (n : nat) (s : channel) : channel :=
  Nat.iter n (add_emitted handshake_event) s.

(** How often [final()] has run on the cipher of one direction. *)
Definition final_count (d : direction) (s : channel) : nat :=
  length (filter (fun f => f.1 = d) (finals s)).

(** ** Notions used in the statements and proofs *)

(** [I] holds after [m] whenever it held before, however [m] ends. *)
Definition stable (I : channel → Prop) {A} (m : M A) : Prop :=
  ∀ s, I s → I (m s).2.

(** [s'] differs from [s] at most in what has been pushed and in how far
    the sending cipher has moved. *)
Definition wrote (s s' : channel) : Prop :=
  _key s' = _key s ∧ _sendingNonce s' = _sendingNonce s ∧
  (is_Some (_sendingCipher s') ↔ is_Some (_sendingCipher s)) ∧
  _sentNonce s' = _sentNonce s ∧ _receivingNonce s' = _receivingNonce s ∧
  _receivingCipher s' = _receivingCipher s ∧
  encoder_ended s' = encoder_ended s ∧ decoded s' = decoded s ∧
  emitted s' = emitted s ∧ destroyed s' = destroyed s ∧ finals s' = finals s.

(** The instance after [_encoderStream.end(callback)]. *)
Definition ended (callback : continuation) (s : channel) : channel :=
  if encoder_ended s then s
  else add_nextTick callback (set_encoder_ended true s).

(** The sending cipher is there until [finalize] has run [final()] on it;
    from then on the encoder is ended, and [final()] has run once on the
    sending cipher and at most once on a receiving cipher. *)
Definition torn_down_once (s : channel) : Prop :=
  match _sendingCipher s with
  | Some _ => finals s = []
  | None =>
      encoder_ended s = true ∧
      ∃ c, finals s = [(Sending, c)]
           ∨ ∃ c', finals s = [(Sending, c); (Receiving, c')]
  end.

(** ** Instances of the interfaces, to run the model

    The statements below hold for every cipher, framing and JSON
    implementation; the instances of this module make the model run on
    concrete frames.  The JSON reader and writer follow ECMA-404 and read
    and write numbers exactly, where the host rounds to a double: they agree
    with the host on integers below 2^53.  The key stream stands in for
    XSalsa20. *)
Module Reference.

Record utf8_state := {
  code_point : N;
  bytes_seen : nat;
  bytes_needed : nat;
  lower_boundary : N;
  upper_boundary : N
}.

Definition utf8_initial : utf8_state :=
  {| code_point := 0; bytes_seen := 0; bytes_needed := 0;
     lower_boundary := 128; upper_boundary := 191 |}.

(** UTF-16 of one code point. *)
Definition code_units (c : N) : jsstring :=
  if (c <? 65536)%N then [c]
  else [(55296 + (c - 65536) / 1024)%N; (56320 + (c - 65536) mod 1024)%N].

(** A byte met when no sequence is open. *)
Definition utf8_lead (b : N) : jsstring * utf8_state :=
  if (b <=? 127)%N then ([b], utf8_initial)
  else if (194 <=? b)%N && (b <=? 223)%N then
    ([], {| code_point := b - 192; bytes_seen := 0; bytes_needed := 1;
            lower_boundary := 128; upper_boundary := 191 |})
  else if (224 <=? b)%N && (b <=? 239)%N then
    ([], {| code_point := b - 224; bytes_seen := 0; bytes_needed := 2;
            lower_boundary := if (b =? 224)%N then 160%N else 128%N;
            upper_boundary := if (b =? 237)%N then 159%N else 191%N |})
  else if (240 <=? b)%N && (b <=? 244)%N then
    ([], {| code_point := b - 240; bytes_seen := 0; bytes_needed := 3;
            lower_boundary := if (b =? 240)%N then 144%N else 128%N;
            upper_boundary := if (b =? 244)%N then 143%N else 191%N |})
  else ([65533%N], utf8_initial).

(** One byte through the decoder: the code units it completes and the
    state after it. A byte that cannot continue the open sequence closes it
    with U+FFFD and is read again as a lead. *)
Definition utf8_step (st : utf8_state) (b : N) : jsstring * utf8_state :=
  if bytes_needed st =? 0 then utf8_lead b
  else if (b <? lower_boundary st)%N || (upper_boundary st <? b)%N then
    (65533%N :: (utf8_lead b).1, (utf8_lead b).2)
  else
    let c := (code_point st * 64 + (b - 128))%N in
    if S (bytes_seen st) =? bytes_needed st then (code_units c, utf8_initial)
    else ([], {| code_point := c; bytes_seen := S (bytes_seen st);
                 bytes_needed := bytes_needed st;
                 lower_boundary := 128; upper_boundary := 191 |}).

Fixpoint utf8_decode (st : utf8_state) (b : buffer) : jsstring :=
  match b with
  | [] => if bytes_needed st =? 0 then [] else [65533%N]
  | x :: rest =>
      (utf8_step st (Byte.to_N x)).1
        ++ utf8_decode (utf8_step st (Byte.to_N x)).2 rest
  end.

(** [buffer.toString()]. *)
Definition Buffer_toString (b : buffer) : jsstring := utf8_decode utf8_initial b.

Definition is_whitespace (c : N) : bool :=
  (c =? 32)%N || (c =? 9)%N || (c =? 10)%N || (c =? 13)%N.

Fixpoint skip_whitespace (s : jsstring) : jsstring :=
  match s with
  | c :: rest => if is_whitespace c then skip_whitespace rest else s
  | [] => []
  end.

Definition is_digit (c : N) : bool := (48 <=? c)%N && (c <=? 57)%N.

(** The longest run of digits at the head of a text, and what follows. *)
Fixpoint take_digits (s : jsstring) : list N * jsstring :=
  match s with
  | c :: rest =>
      if is_digit c
      then ((c - 48)%N :: (take_digits rest).1, (take_digits rest).2)
      else ([], s)
  | [] => ([], [])
  end.

Definition number_of_digits (digits : list N) : Z :=
  fold_left (fun n d => (10 * n + Z.of_N d)%Z) digits 0%Z.

(** [e] or [E], a sign and digits, if the text starts with them. *)
Definition read_exponent (s : jsstring) : option (Z * jsstring) :=
  match s with
  | c :: rest =>
      if (c =? 101)%N || (c =? 69)%N then
        let (negative, rest) :=
          match rest with
          | d :: rest' =>
              if (d =? 45)%N then (true, rest')
              else if (d =? 43)%N then (false, rest')
              else (false, rest)
          | [] => (false, rest)
          end in
        match take_digits rest with
        | ([], _) => None
        | (digits, rest') =>
            Some (if negative then (- number_of_digits digits)%Z
                  else number_of_digits digits, rest')
        end
      else Some (0%Z, s)
  | [] => Some (0%Z, s)
  end.

(** A JSON number at the head of a text. *)
Definition read_number (s : jsstring) : option (number * jsstring) :=
  let (negative, s) :=
    match s with
    | c :: rest => if (c =? 45)%N then (true, rest) else (false, s)
    | [] => (false, s)
    end in
  match take_digits s with
  | ([], _) => None
  | (d :: ds, s) =>
      if (d =? 0)%N && negb (length ds =? 0) then None
      else
        let fraction :=
          match s with
          | c :: rest =>
              if (c =? 46)%N then
                match take_digits rest with
                | ([], _) => None
                | (digits, rest') => Some (digits, rest')
                end
              else Some ([], s)
          | [] => Some ([], s)
          end in
        match fraction with
        | None => None
        | Some (fs, s) =>
            match read_exponent s with
            | None => None
            | Some (e, s) =>
                let mantissa := number_of_digits ((d :: ds) ++ fs) in
                let mantissa := if negative then (- mantissa)%Z else mantissa in
                let e := (e - Z.of_nat (length fs))%Z in
                Some (Finite (if (0 <=? e)%Z
                              then (mantissa * 10 ^ e)%Z # 1
                              else mantissa # Z.to_pos (10 ^ (- e))), s)
            end
        end
  end.

(** The characters of a JSON string after its opening quote, up to and
    with the closing one. *)
Fixpoint read_string (s : jsstring) (read : jsstring)
  : option (jsstring * jsstring) :=
  match s with
  | [] => None
  | c :: rest =>
      if (c =? 34)%N then Some (rev read, rest)
      else if (c =? 92)%N then
        match rest with
        | [] => None
        | e :: rest' =>
            if (e =? 34)%N || (e =? 92)%N || (e =? 47)%N
            then read_string rest' (e :: read)
            else if (e =? 98)%N then read_string rest' (8%N :: read)
            else if (e =? 102)%N then read_string rest' (12%N :: read)
            else if (e =? 110)%N then read_string rest' (10%N :: read)
            else if (e =? 114)%N then read_string rest' (13%N :: read)
            else if (e =? 116)%N then read_string rest' (9%N :: read)
            else if (e =? 117)%N then
              match rest' with
              | h1 :: h2 :: h3 :: h4 :: rest'' =>
                  match hex_value h1, hex_value h2, hex_value h3, hex_value h4
                  with
                  | Some a, Some b, Some c, Some d =>
                      read_string rest''
                        ((4096 * a + 256 * b + 16 * c + d)%N :: read)
                  | _, _, _, _ => None
                  end
              | _ => None
              end
            else None
        end
      else if (c <? 32)%N then None
      else read_string rest (c :: read)
  end.

(** [object[key] = v] while reading an object: a key met again keeps its
    place and takes the new value. *)
Fixpoint define_property (key : jsstring) (v : value)
    (properties : list (jsstring * value)) : list (jsstring * value) :=
  match properties with
  | [] => [(key, v)]
  | (k, w) :: rest =>
      if jsstring_eqb k key then (k, v) :: rest
      else (k, w) :: define_property key v rest
  end.

Definition starts_with (word : string) (s : jsstring) : option jsstring :=
  if jsstring_eqb (take (length (js word)) s) (js word)
  then Some (drop (length (js word)) s)
  else None.

(** A JSON value at the head of a text; [fuel] bounds the nesting. *)
Fixpoint read_value (fuel : nat) (s : jsstring) : option (value * jsstring) :=
  match fuel with
  | 0 => None
  | S fuel =>
      match skip_whitespace s with
      | [] => None
      | c :: rest =>
          if (c =? 123)%N then
            match skip_whitespace rest with
            | c' :: rest' =>
                if (c' =? 125)%N then Some (JObject [], rest')
                else read_members fuel rest []
            | [] => None
            end
          else if (c =? 91)%N then
            match skip_whitespace rest with
            | c' :: rest' =>
                if (c' =? 93)%N then Some (JArray [], rest')
                else read_elements fuel rest []
            | [] => None
            end
          else if (c =? 34)%N then
            match read_string rest [] with
            | Some (text, rest') => Some (JString text, rest')
            | None => None
            end
          else if (c =? 116)%N then
            rest' ← starts_with "true" (c :: rest); Some (JBool true, rest')
          else if (c =? 102)%N then
            rest' ← starts_with "false" (c :: rest); Some (JBool false, rest')
          else if (c =? 110)%N then
            rest' ← starts_with "null" (c :: rest); Some (JNull, rest')
          else
            match read_number (c :: rest) with
            | Some (n, rest') => Some (JNumber n, rest')
            | None => None
            end
      end
  end
with read_elements (fuel : nat) (s : jsstring) (read : list value)
  : option (value * jsstring) :=
  match fuel with
  | 0 => None
  | S fuel =>
      match read_value fuel s with
      | None => None
      | Some (v, rest) =>
          match skip_whitespace rest with
          | c :: rest' =>
              if (c =? 44)%N then read_elements fuel rest' (v :: read)
              else if (c =? 93)%N then Some (JArray (rev (v :: read)), rest')
              else None
          | [] => None
          end
      end
  end
with read_members (fuel : nat) (s : jsstring)
    (read : list (jsstring * value)) : option (value * jsstring) :=
  match fuel with
  | 0 => None
  | S fuel =>
      match skip_whitespace s with
      | c :: rest =>
          if (c =? 34)%N then
            match read_string rest [] with
            | Some (key, rest) =>
                match skip_whitespace rest with
                | c :: rest =>
                    if (c =? 58)%N then
                      match read_value fuel rest with
                      | Some (v, rest) =>
                          match skip_whitespace rest with
                          | c :: rest =>
                              if (c =? 44)%N then
                                read_members fuel rest
                                  (define_property key v read)
                              else if (c =? 125)%N then
                                Some (JObject (define_property key v read), rest)
                              else None
                          | [] => None
                          end
                      | None => None
                      end
                    else None
                | [] => None
                end
            | None => None
            end
          else None
      | [] => None
      end
  end.

(** [JSON.parse(buffer)]: the buffer as text, one value, and nothing but
    white space after it. *)
Definition parse (b : buffer) : option value :=
  let text := Buffer_toString b in
  match read_value (2 * length text + 2) text with
  | Some (v, rest) =>
      match skip_whitespace rest with
      | [] => Some v
      | _ => None
      end
  | None => None
  end.

Fixpoint digits_of (fuel : nat) (n : N) (written : jsstring) : jsstring :=
  match fuel with
  | 0 => written
  | S fuel =>
      if (n <? 10)%N then (48 + n)%N :: written
      else digits_of fuel (n / 10)%N ((48 + n mod 10)%N :: written)
  end.

Definition decimal (n : N) : jsstring := digits_of (S (N.size_nat n)) n [].

Fixpoint fraction_digits (fuel : nat) (r d : N) : jsstring :=
  match fuel with
  | 0 => []
  | S fuel =>
      if (r =? 0)%N then []
      else (48 + 10 * r / d)%N :: fraction_digits fuel ((10 * r) mod d)%N d
  end.

(** A number as JSON text: integers in full, other finite numbers with up
    to twenty digits after the point, the rest as [null]. *)
Definition write_number (n : number) : jsstring :=
  match n with
  | Finite q =>
      let magnitude := Z.abs_N (Qnum q) in
      let d := Npos (Qden q) in
      (if (Qnum q <? 0)%Z then js "-" else [])
        ++ decimal (magnitude / d)
        ++ (if (magnitude mod d =? 0)%N then []
            else js "." ++ fraction_digits 20 (magnitude mod d) d)
  | _ => js "null"
  end.

Definition write_escape (c : N) : jsstring :=
  js "\u" ++ [hex_digit (c / 4096); hex_digit ((c / 256) mod 16);
              hex_digit ((c / 16) mod 16); hex_digit (c mod 16)].

Definition write_unit (c : N) : jsstring :=
  if (c =? 34)%N then js "\" ++ [34%N]
  else if (c =? 92)%N then js "\\"
  else if (c =? 8)%N then js "\b"
  else if (c =? 12)%N then js "\f"
  else if (c =? 10)%N then js "\n"
  else if (c =? 13)%N then js "\r"
  else if (c =? 9)%N then js "\t"
  else if (c <? 32)%N then write_escape c
  else [c].

(** The characters of a string between its quotes; a surrogate without its
    partner is escaped. *)
Fixpoint write_units (s : jsstring) : jsstring :=
  match s with
  | [] => []
  | c :: rest =>
      if is_high_surrogate c then
        match rest with
        | d :: rest' =>
            if is_low_surrogate d then c :: d :: write_units rest'
            else write_escape c ++ write_units rest
        | [] => write_escape c
        end
      else if is_low_surrogate c then write_escape c ++ write_units rest
      else write_unit c ++ write_units rest
  end.

Definition write_string (s : jsstring) : jsstring :=
  [34%N] ++ write_units s ++ [34%N].

Fixpoint join (pieces : list jsstring) : jsstring :=
  match pieces with
  | [] => []
  | [piece] => piece
  | piece :: rest => piece ++ js "," ++ join rest
  end.

(** [JSON.stringify(v)], [None] when it returns [undefined]. *)
Fixpoint write_value (v : value) : option jsstring :=
  match v with
  | JUndefined => None
  | JNull => Some (js "null")
  | JBool true => Some (js "true")
  | JBool false => Some (js "false")
  | JNumber n => Some (write_number n)
  | JString s => Some (write_string s)
  | JArray items =>
      let fix elements (items : list value) : list jsstring :=
        match items with
        | [] => []
        | item :: rest => default (js "null") (write_value item) :: elements rest
        end in
      Some (js "[" ++ join (elements items) ++ js "]")
  | JObject properties =>
      let fix members (properties : list (jsstring * value)) : list jsstring :=
        match properties with
        | [] => []
        | (key, item) :: rest =>
            match write_value item with
            | Some text => (write_string key ++ js ":" ++ text) :: members rest
            | None => members rest
            end
        end in
      Some (js "{" ++ join (members properties) ++ js "}")
  end.

Definition stringify (v : value) : jsstring := default [] (write_value v).

#[export] Instance json : Json :=
  {| JSON_parse := parse; JSON_stringify := stringify |}.

(** The length of a frame as a varint, low seven bits first. *)
Fixpoint varint (fuel : nat) (n : N) : buffer :=
  match fuel with
  | 0 => []
  | S fuel =>
      if (n <? 128)%N then [byte_of_N n]
      else byte_of_N (128 + n mod 128) :: varint fuel (n / 128)%N
  end.

(** The encoder pushes the length and then the buffer itself. *)
#[export] Instance framing : Framing :=
  {| lengthPrefixedStream_encode := fun b =>
       [varint (S (length b)) (N.of_nat (length b)); b] |}.

(** A key stream made of the key, the nonce and the offset. *)
Definition key_stream (nonce secretKey : buffer) (offset : N) : byte :=
  byte_of_N
    ((Byte.to_N (nth (N.to_nat offset mod 32) secretKey x00)
      + Byte.to_N (nth (N.to_nat offset mod 24) nonce x00)
      + 7 * offset + 1) mod 256)%N.

#[export] Instance sodium : Sodium :=
  {| STREAM_NONCEBYTES := 24; STREAM_KEYBYTES := 32;
     crypto_stream := key_stream |}.

Definition bytes (s : string) : buffer := Buffer_from_utf8 (js s).

(** The protocol of the test: [apple] and [orange], each a string
    constant. *)
Definition const_schema (text : string) : validator :=
  fun data =>
    match data with
    | JString s => if jsstring_eqb s (js text) then None
                   else Some [JString (js "should be equal to constant")]
    | _ => Some [JString (js "should be string")]
    end.

Definition apple_orange_options : factory_options :=
  {| options_version := JNumber (of_nat 1);
     options_messages :=
       messages_object
         (<[js "apple" :=
              entry_object {| schema := Some (Normal (const_schema "apple"));
                              options_verify := verify_absent |}]>
          (<[js "orange" :=
               entry_object {| schema := Some (Normal (const_schema "orange"));
                               options_verify := verify_absent |}]> ∅)) |}.

(** The protocol the factory makes of them. *)
Definition apple_orange : protocol :=
  match makeProtocol apple_orange_options with
  | Normal P => P
  | Throw _ =>
      {| version := NaN; messageTypesByName := ∅; messageTypesByPrefix := ∅;
         messageTypePrefixes := [] |}
  end.

(** A key, and the nonces two instances draw. *)
Definition key : buffer := repeat x6b 32.
Definition anna_random : buffer := repeat x61 24.
Definition bob_random : buffer := repeat x62 24.

(** An instance as [new Protocol({ key })] leaves it. *)
Definition fresh (random : buffer) : channel :=
  {| _key := key; _sendingNonce := random;
     _sendingCipher := Some (crypto_stream_xor_instance random key);
     _sentNonce := false; _receivingNonce := None;
     _receivingCipher := None; encoder_ended := false;
     pushed := []; decoded := []; emitted := [];
     destroyed := None; finals := []; nextTick := [] |}.

Definition anna : channel := fresh anna_random.
Definition bob : channel := fresh bob_random.

(** The frame [[3,true]]: a tuple whose prefix no message type has. *)
Definition unknown_prefix_frame : buffer := bytes "[3,true]".

(** What bob's [handshake] writes, as the decoder hands it to anna. *)
Definition bob_handshake : buffer := handshake_message apple_orange bob.

(** The same with another version. *)
Definition other_version_handshake : buffer :=
  Buffer_from_utf8
    (JSON_stringify
       (JArray [JNumber (of_nat 0);
                JObject [(js "version", JNumber (of_nat 2));
                         (js "nonce",
                          JString (Buffer_toString_hex bob_random))]])).

(** anna after bob's handshake has come in. *)
Definition anna_received : channel :=
  (_parserStream_transform apple_orange bob_handshake anna).2.

(** The type the factory makes of [apple], and the frame of an apple. *)
Definition apple_type : message_type :=
  {| name := js "apple"; valid := const_schema "apple";
     verify := verify_or_default verify_absent; prefix := 1 |}.

Definition apple_frame : buffer :=
  Buffer_from_utf8
    (JSON_stringify (JArray [JNumber (of_nat 1); JString (js "apple")])).

(** anna after a [finalize] before bob's handshake has come in. *)
Definition anna_ended : channel := (finalize None anna).2.

(** anna after a call of [handshake] and the tick that follows it. *)
Definition anna_sent : channel :=
  (run apple_orange [call_handshake; call_tick] anna).2.

(** anna after a call of [handshake], before its tick. *)
Definition anna_written : channel := (handshake apple_orange anna).2.

(** bob after anna's handshake has come in. *)
Definition bob_received : channel :=
  (_parserStream_transform apple_orange
     (handshake_message apple_orange anna) bob).2.

(** Options the factory turns down: the schema of [apple] is one
    [ajv.compile] throws on, and [orange] is [null]. *)
Definition schema_error : error := new_Error "schema is invalid".

Definition rejected_options : factory_options :=
  {| options_version := JNumber (of_nat 1);
     options_messages :=
       messages_object
         (<[js "apple" :=
              entry_object {| schema := Some (Throw schema_error);
                              options_verify := verify_absent |}]>
          (<[js "orange" := entry_null]> ∅)) |}.

End Reference.

(** ** The sentences of the specification that the code does not follow *)

(** "A received frame with an unknown prefix produces an invalid event with
    the raw body, and does not terminate the channel", for one frame on one
    instance: if the frame is a tuple whose prefix is neither 0 nor the
    prefix of a message type, the parser emits [invalid] with the body and
    leaves the channel open. *)
Definition unknown_prefix_tolerated `{Sodium} `{Framing} `{Json}
    (P : protocol) (message : buffer) (s : channel) : Prop :=
  ∀ prefix body,
    JSON_parse message = Some (JArray [prefix; body]) →
    strict_equals prefix (of_nat 0) = false →
    (∀ p type, messageTypesByPrefix P !! p = Some type →
               strict_equals prefix (of_nat p) = false) →
    emitted (_parserStream_transform P message s).2
    = emitted s ++ [invalid_event body] ∧
    destroyed (_parserStream_transform P message s).2 = None.



(** ** Notions used in the further properties *)

(** Chunks passed on to the frame decoder one after the other,
    untouched. *)
Definition pass_chunks (chunks : list buffer) (s : channel) : channel :=
  foldl (fun s chunk => add_decoded chunk s) s chunks.

(** The event [emit(name, body)] leaves. *)
Definition message_event (name : jsstring) (body : value) : event :=
  {| event_name := name; event_args := [body] |}.

(** The error the body of the factory's loop throws for an entry of
    [messages], if it throws one: for [null], for an object without a
    schema, for a [verify] that is no function, and what [ajv.compile]
    throws. *)
Definition entry_error (entry : message_entry) : option error :=
  match entry with
  | entry_null => Some (TypeError "Cannot read properties of null")
  | entry_object options =>
      match schema options, options_verify options with
      | None, _ => Some (AssertionError "message type must have schema")
      | Some _, verify_not_a_function =>
          Some (AssertionError "verify must be a Function")
      | Some (Throw e), _ => Some e
      | Some (Normal _), _ => None
      end
  end.

(** The names of the message types stay clear of what a plain object
    inherits: the table of the types is asked with its [hasOwnProperty],
    which a type of that name would hide, and a type named [__proto__]
    would not become a property of the table. *)
Definition plain_names (P : protocol) : Prop :=
  messageTypesByName P !! js "hasOwnProperty" = None ∧
  messageTypesByName P !! js "__proto__" = None.

(** The sending cipher of [s'] continues that of [s]: the same nonce and
    key, no earlier in the key stream; or both are gone. *)
Definition continues (c c' : option cipher) : Prop :=
  match c, c' with
  | Some c, Some c' =>
      cipher_nonce c' = cipher_nonce c ∧ cipher_key c' = cipher_key c ∧
      (cipher_offset c <= cipher_offset c')%N
  | None, None => True
  | _, _ => False
  end.

(** The ciphers of an instance fit its other fields: the key and the
    sending nonce have the lengths the cipher wants; the sending cipher is
    over the sending nonce and the key, and has used no key stream while
    [_sentNonce] is unset; the receiving cipher is over the key
    and the nonce kept in [_receivingNonce]. *)
Definition ciphers_fit `{Sodium} (s : channel) : Prop :=
  length (_key s) = STREAM_KEYBYTES ∧
  length (_sendingNonce s) = STREAM_NONCEBYTES ∧
  (∀ c, _sendingCipher s = Some c →
        cipher_nonce c = _sendingNonce s ∧ cipher_key c = _key s ∧
        (_sentNonce s = false → cipher_offset c = 0%N)) ∧
  (∀ c, _receivingCipher s = Some c →
        cipher_key c = _key s ∧ _receivingNonce s = Some (cipher_nonce c)).

Section Tuples.
Context `{Json}.

(** The buffer [_encode] hands to the encoder. *)
Definition tuple_bytes (prefix : nat) (body : value) : buffer :=
  Buffer_from_utf8 (JSON_stringify (JArray [JNumber (of_nat prefix); body])).

End Tuples.

(** ** Tactics *)

(** Case analysis on the comparisons of code units in sight. *)
Ltac compare_units :=
  repeat match goal with
  | |- context [(?x <? ?y)%N] => destruct (N.ltb_spec x y)
  | |- context [(?x =? ?y)%N] => destruct (N.eqb_spec x y)
  | H : context [(?x <? ?y)%N] |- _ => destruct (N.ltb_spec x y)
  | H : context [(?x =? ?y)%N] |- _ => destruct (N.eqb_spec x y)
  end; subst; try lia; try easy.

(** * Properties *)

(** ** Strings and their order *)

Lemma jsstring_eqb_eq a b : jsstring_eqb a b = true ↔ a = b.
Proof.
  revert b. induction a as [|x a IH]; intros [|y b]; simpl; try easy.
  rewrite andb_true_iff, N.eqb_eq, IH. split.
  - intros [-> ->]. reflexivity.
  - intros [= -> ->]. auto.
Qed.

Lemma jsstring_eqb_refl a : jsstring_eqb a a = true.
Proof. apply jsstring_eqb_eq. reflexivity. Qed.

Lemma jsstring_eqb_neq a b : a ≠ b → jsstring_eqb a b = false.
Proof.
  intros Hne. destruct (jsstring_eqb a b) eqn:E; [|reflexivity].
  apply jsstring_eqb_eq in E. contradiction.
Qed.

#[export] Instance jsstring_le_refl : Reflexive jsstring_le.
Proof.
  intros a. unfold jsstring_le. induction a as [|x a IH]; simpl; [reflexivity|].
  compare_units.
Qed.

#[export] Instance jsstring_le_total : Total jsstring_le.
Proof.
  intros a. unfold jsstring_le.
  induction a as [|x a IH]; intros [|y b]; simpl; auto.
  compare_units; auto.
Qed.

#[export] Instance jsstring_le_trans : Transitive jsstring_le.
Proof.
  intros a. unfold jsstring_le.
  induction a as [|x a IH]; intros [|y b] [|z c]; simpl; auto; try easy.
  compare_units. apply IH.
Qed.

#[export] Instance jsstring_le_antisymm : AntiSymm (=) jsstring_le.
Proof.
  intros a. unfold jsstring_le.
  induction a as [|x a IH]; intros [|y b]; simpl; auto; try easy.
  compare_units. intros Hab Hba. f_equal. apply IH; assumption.
Qed.

(** The sorted names: in order, and the same names. *)
Lemma sort_Sorted names : Sorted jsstring_le (sort names).
Proof. apply Sorted_merge_sort. apply _. Qed.

Lemma sort_Permutation names : sort names ≡ₚ names.
Proof. apply merge_sort_Permutation. Qed.

Lemma Object_keys_NoDup m : NoDup (Object_keys m).
Proof. apply NoDup_fst_map_to_list. Qed.

Lemma elem_of_Object_keys m key : key ∈ Object_keys m ↔ is_Some (m !! key).
Proof.
  unfold Object_keys. rewrite list_elem_of_fmap. split.
  - intros [[k v] [-> Hin]]. apply elem_of_map_to_list in Hin. eauto.
  - intros [v Hv]. exists (key, v). split; [reflexivity|].
    apply elem_of_map_to_list. exact Hv.
Qed.

Lemma sort_keys_NoDup m : NoDup (sort (Object_keys m)).
Proof. rewrite sort_Permutation. apply Object_keys_NoDup. Qed.

(** Two tables with the same names have the same sorted names. *)
Lemma sort_keys_same_names (m m' : gmap jsstring message_entry) :
  dom m = dom m' → sort (Object_keys m) = sort (Object_keys m').
Proof.
  intros Hdom. apply (Sorted_unique jsstring_le); try apply sort_Sorted.
  rewrite !sort_Permutation.
  apply NoDup_Permutation; try apply Object_keys_NoDup.
  intros key. rewrite !elem_of_Object_keys, <- !elem_of_dom, Hdom.
  reflexivity.
Qed.

(** ** The factory *)

Lemma register_message_Normal msgs n index tables T :
  register_message msgs n index tables = Normal T →
  ∃ type,
    name type = n ∧ prefix type = index + 1 ∧
    (∃ options, msgs !! n = Some (entry_object options) ∧
                schema options = Some (Normal (valid type)) ∧
                verify type = verify_or_default (options_verify options)) ∧
    version T = version tables ∧
    messageTypesByName T = <[n := type]> (messageTypesByName tables) ∧
    messageTypesByPrefix T = <[index + 1 := type]> (messageTypesByPrefix tables) ∧
    messageTypePrefixes T = messageTypePrefixes tables ++ [index + 1].
Proof.
  unfold register_message. intros Hreg.
  destruct (msgs !! n) as [[|options]|] eqn:Hn; try discriminate.
  destruct (schema options) as [[v|e]|] eqn:Hv;
    [|destruct (options_verify options); discriminate|discriminate].
  destruct (options_verify options) eqn:Hverify; try discriminate;
    injection Hreg as <-;
    (eexists {| name := n; valid := v; verify := _; prefix := index + 1 |});
    simpl; (split; [reflexivity|]); (split; [reflexivity|]);
    (split; [exists options; rewrite Hverify; auto|]);
    repeat split; reflexivity.
Qed.

(** What the loop over the sorted names leaves in the tables. *)
Lemma forEach_Normal msgs names :
  NoDup names →
  ∀ index tables T,
    forEach msgs names index tables = Normal T →
    version T = version tables ∧
    messageTypePrefixes T
      = messageTypePrefixes tables ++ seq (index + 1) (length names) ∧
    (∀ n, n ∉ names →
          messageTypesByName T !! n = messageTypesByName tables !! n) ∧
    (∀ p, (p ≤ index ∨ index + length names < p) →
          messageTypesByPrefix T !! p = messageTypesByPrefix tables !! p) ∧
    (∀ i n, names !! i = Some n →
            ∃ type, messageTypesByName T !! n = Some type ∧
                    messageTypesByPrefix T !! (index + i + 1) = Some type ∧
                    name type = n ∧ prefix type = index + i + 1 ∧
                    ∃ options,
                      msgs !! n = Some (entry_object options) ∧
                      schema options = Some (Normal (valid type)) ∧
                      verify type = verify_or_default (options_verify options)).
Proof.
  induction 1 as [|n names Hnotin Hnodup IH]; intros index tables T; simpl.
  - intros [= <-]. rewrite app_nil_r.
    repeat split; auto. intros i n Hi. discriminate.
  - unfold mbind, completion_bind.
    destruct (register_message msgs n index tables) as [tables'|] eqn:Hreg;
      [|discriminate].
    intros Hrest.
    destruct (register_message_Normal _ _ _ _ _ Hreg)
      as (type & Hname & Hprefix & Hoptions & Hv & HbyName & HbyPrefix
          & Hprefixes).
    destruct (IH _ _ _ Hrest) as (Hv' & Hp' & Hout & Hfar & Hin).
    split; [congruence|]. split.
    { rewrite Hp', Hprefixes, <- app_assoc. simpl.
      replace (S index + 1) with (S (index + 1)) by lia. reflexivity. }
    split.
    { intros m Hm. rewrite not_elem_of_cons in Hm. destruct Hm as [Hne Hm].
      rewrite (Hout m Hm), HbyName. apply lookup_insert_ne. congruence. }
    split.
    { intros p Hp. rewrite Hfar by lia. rewrite HbyPrefix.
      apply lookup_insert_ne. lia. }
    intros [|i] m; simpl.
    + intros [= <-]. exists type.
      rewrite (Hout n Hnotin), HbyName, lookup_insert_eq.
      rewrite Hfar by lia. rewrite HbyPrefix.
      replace (index + 0 + 1) with (index + 1) by lia.
      rewrite lookup_insert_eq. auto.
    + intros Hi. destruct (Hin i m Hi) as (t & H1 & H2 & H3 & H4 & H5).
      exists t. replace (index + S i + 1) with (S index + i + 1) by lia. auto.
Qed.

(** What a protocol made by the factory holds. *)
Lemma makeProtocol_Normal options P :
  makeProtocol options = Normal P →
  let names := sort (Object_keys (messages options)) in
  messageTypePrefixes P = seq 0 (S (length names)) ∧
  messageTypesByPrefix P !! 0 = None ∧
  (∀ n, n ∉ names → messageTypesByName P !! n = None) ∧
  (∀ p, length names < p → messageTypesByPrefix P !! p = None) ∧
  (∀ i n, names !! i = Some n →
          ∃ type, messageTypesByName P !! n = Some type ∧
                  messageTypesByPrefix P !! (i + 1) = Some type ∧
                  name type = n ∧ prefix type = i + 1 ∧
                  ∃ mo, messages options !! n = Some (entry_object mo) ∧
                        schema mo = Some (Normal (valid type)) ∧
                        verify type = verify_or_default (options_verify mo)).
Proof.
  intros Hmake names. unfold makeProtocol in Hmake.
  unfold messages in *.
  destruct (options_version options); try discriminate.
  unfold mbind, completion_bind, assert_ in Hmake.
  destruct (number_is_positive n); [|discriminate].
  destruct (Number_isSafeInteger n); [|discriminate].
  destruct (options_messages options) as [| |entries]; try discriminate.
  destruct (negb _); [|discriminate].
  destruct (forEach_Normal _ _ (sort_keys_NoDup _) _ _ _ Hmake)
    as (_ & Hp & Hout & Hfar & Hin).
  simpl in *. fold names in Hp, Hout, Hfar, Hin.
  split; [rewrite Hp; reflexivity|].
  split; [rewrite Hfar by lia; apply lookup_empty|].
  split; [intros m Hm; rewrite Hout by assumption; apply lookup_empty|].
  split; [intros p Hp'; rewrite Hfar by lia; apply lookup_empty|].
  exact Hin.
Qed.

(** C7. For every protocol the factory makes, the prefix of each message
    name is its place, counted from one, in the list of the names sorted by
    code units: every declared name has a type, the types' names are the
    declared ones, the list is in order without repetition and holds the
    declared names; no type has prefix 0; and two builds over the same set
    of names give every name the same prefix. *)
Theorem prefix_is_sorted_index options P :
  makeProtocol options = Normal P →
  let names := sort (Object_keys (messages options)) in
  (∀ n type, messageTypesByName P !! n = Some type →
             ∃ i, names !! i = Some n ∧ prefix type = i + 1) ∧
  (∀ n, is_Some (messages options !! n) →
        is_Some (messageTypesByName P !! n)) ∧
  (Sorted jsstring_le names ∧ NoDup names ∧
   ∀ n, n ∈ names ↔ is_Some (messages options !! n)) ∧
  (∀ n type, messageTypesByName P !! n = Some type → prefix type ≠ 0) ∧
  (∀ options' P',
     makeProtocol options' = Normal P' →
     dom (messages options') = dom (messages options) →
     ∀ n type type',
       messageTypesByName P !! n = Some type →
       messageTypesByName P' !! n = Some type' →
       prefix type = prefix type').
Proof.
  intros Hmake names.
  destruct (makeProtocol_Normal _ _ Hmake) as (_ & _ & Hout & _ & Hin).
  fold names in Hout, Hin.
  assert (Hindex : ∀ n type, messageTypesByName P !! n = Some type →
                            ∃ i, names !! i = Some n ∧ prefix type = i + 1).
  { intros n type Hn. destruct (decide (n ∈ names)) as [Hel|Hnel].
    - apply list_elem_of_lookup in Hel as [i Hi].
      destruct (Hin i n Hi) as (t & Ht & _ & _ & Hp & _).
      exists i. split; [assumption|]. congruence.
    - rewrite Hout in Hn by assumption. discriminate. }
  assert (Hnames : ∀ n, n ∈ names ↔ is_Some (messages options !! n)).
  { intros n. unfold names. rewrite sort_Permutation.
    apply elem_of_Object_keys. }
  split; [exact Hindex|]. split.
  { intros n Hn. apply Hnames, list_elem_of_lookup in Hn as [i Hi].
    destruct (Hin i n Hi) as (t & Ht & _). eauto. }
  split.
  { split; [apply sort_Sorted|]. split; [apply sort_keys_NoDup|exact Hnames]. }
  split.
  { intros n type Hn. destruct (Hindex n type Hn) as (i & _ & ->). lia. }
  intros options' P' Hmake' Hdom n type type' Hn Hn'.
  destruct (makeProtocol_Normal _ _ Hmake') as (_ & _ & Hout' & _ & Hin').
  rewrite (sort_keys_same_names _ _ Hdom) in Hout', Hin'. fold names in Hout', Hin'.
  destruct (Hindex n type Hn) as (i & Hi & ->).
  destruct (Hin' i n Hi) as (t & Ht & _ & _ & Hp & _). congruence.
Qed.

(** ** Programs and what they leave alone *)

Lemma stable_ret I {A} (a : A) : stable I (mret a : M A).
Proof. intros s Hs. exact Hs. Qed.

Lemma stable_throw I {A} (e : error) : stable I (mthrow e : M A).
Proof. intros s Hs. exact Hs. Qed.

Lemma stable_this I : stable I this.
Proof. intros s Hs. exact Hs. Qed.

Lemma stable_assign I f : (∀ s, I s → I (f s)) → stable I (assign f).
Proof. intros Hf s Hs. apply Hf, Hs. Qed.

Lemma stable_bind I {A B} (m : M A) (k : A → M B) :
  stable I m → (∀ a, stable I (k a)) → stable I (m ≫= k).
Proof.
  intros Hm Hk s Hs. specialize (Hm s Hs).
  unfold mbind, M_bind. destruct (m s) as [[a|e] s']; simpl in *.
  - apply Hk, Hm.
  - exact Hm.
Qed.

Lemma stable_assert I condition msg : stable I (assert condition msg).
Proof.
  unfold assert. destruct condition; [apply stable_ret|apply stable_throw].
Qed.

Lemma stable_for_each_chunk I f chunks :
  (∀ chunk, stable I (f chunk)) → stable I (for_each_chunk f chunks).
Proof.
  intros Hf. induction chunks as [|chunk rest IH]; simpl.
  - apply stable_ret.
  - apply stable_bind; [apply Hf|intros _; exact IH].
Qed.

(** Splits a program along its binds and branches, leaving its
    assignments to [tac]. *)
Ltac stable_steps tac :=
  repeat first
    [ apply stable_ret | apply stable_throw | apply stable_this
    | apply stable_assert
    | apply stable_bind; [|intros ?]
    | apply stable_for_each_chunk; intros ?
    | apply stable_assign; intros ? ?; tac
    | match goal with
      | |- stable _ (match ?x with _ => _ end) => destruct x
      | |- stable _ (if ?x then _ else _) => destruct x
      end ].

(** ** Sending *)

Lemma pushed_push_chunks chunks s :
  pushed (push_chunks chunks s) = pushed s ++ chunks.
Proof.
  unfold push_chunks. revert s.
  induction chunks as [|chunk rest IH]; intros s; simpl.
  - rewrite app_nil_r. reflexivity.
  - rewrite IH. simpl. rewrite <- app_assoc. reflexivity.
Qed.


Lemma nextTick_push_chunks chunks s :
  nextTick (push_chunks chunks s) = nextTick s.
Proof.
  unfold push_chunks. revert s.
  induction chunks as [|chunk rest IH]; intros s; simpl; [reflexivity|].
  rewrite IH. reflexivity.
Qed.

Lemma push_chunks_fields chunks s :
  _key (push_chunks chunks s) = _key s ∧
  _sendingNonce (push_chunks chunks s) = _sendingNonce s ∧
  _sendingCipher (push_chunks chunks s) = _sendingCipher s ∧
  _receivingNonce (push_chunks chunks s) = _receivingNonce s ∧
  _receivingCipher (push_chunks chunks s) = _receivingCipher s ∧
  encoder_ended (push_chunks chunks s) = encoder_ended s ∧
  emitted (push_chunks chunks s) = emitted s ∧
  destroyed (push_chunks chunks s) = destroyed s.
Proof.
  unfold push_chunks. revert s.
  induction chunks as [|chunk rest IH]; intros s; simpl; [tauto|].
  destruct (IH (add_pushed chunk s)) as (-> & -> & -> & -> & -> & -> & -> & ->).
  simpl. tauto.
Qed.

Section Sending.
Context `{Sodium} `{Framing} `{Json}.
Variable P : protocol.

Lemma destroy_live e s :
  destroyed s = None → destroy e s = (Normal tt, set_destroyed (Some e) s).
Proof.
  intros Hlive. unfold destroy, mbind, M_bind, this. simpl.
  rewrite Hlive. reflexivity.
Qed.

(** Before the nonce has been sent a chunk is pushed as it is. *)
Lemma _readableStream_transform_clear chunk s :
  _sentNonce s = false →
  _readableStream_transform chunk s = (Normal tt, add_pushed chunk s).
Proof.
  intros Hclear. unfold _readableStream_transform, mbind, M_bind, this. simpl.
  rewrite Hclear. reflexivity.
Qed.

(** After it, the chunk goes through the sending cipher. *)
Lemma _readableStream_transform_cipher chunk s c :
  _sentNonce s = true → _sendingCipher s = Some c →
  _readableStream_transform chunk s
  = (Normal tt, add_pushed (cipher_update c chunk).2
                  (set_sendingCipher (Some (cipher_update c chunk).1) s)).
Proof.
  intros Hsent Hcipher.
  unfold _readableStream_transform, mbind, M_bind, this. simpl.
  rewrite Hsent, Hcipher. reflexivity.
Qed.

Lemma for_each_chunk_clear chunks s :
  _sentNonce s = false →
  for_each_chunk _readableStream_transform chunks s
  = (Normal tt, push_chunks chunks s).
Proof.
  revert s. induction chunks as [|chunk rest IH]; intros s Hclear; simpl.
  - reflexivity.
  - unfold mbind, M_bind.
    rewrite _readableStream_transform_clear by assumption.
    apply IH. exact Hclear.
Qed.

Lemma _encoderStream_write_clear buffer k s :
  _sentNonce s = false → encoder_ended s = false →
  _encoderStream_write buffer k s
  = (Normal tt,
     add_nextTick k (push_chunks (lengthPrefixedStream_encode buffer) s)).
Proof.
  intros Hclear Hopen. unfold _encoderStream_write, mbind, M_bind, this. simpl.
  rewrite Hopen. rewrite for_each_chunk_clear by assumption. reflexivity.
Qed.

Lemma _encoderStream_write_ended buffer k s :
  encoder_ended s = true →
  _encoderStream_write buffer k s = (Throw (new_Error "write after end"), s).
Proof.
  intros Hended. unfold _encoderStream_write, mbind, M_bind, this. simpl.
  rewrite Hended. reflexivity.
Qed.

Lemma handshake_already_sent s :
  _sentNonce s = true →
  handshake P s
  = (Normal (Reply handshake_callback
               (Some (new_Error "already sent handshake"))), s).
Proof.
  intros Hsent. unfold handshake, mbind, M_bind, this. simpl.
  rewrite Hsent. reflexivity.
Qed.

Lemma handshake_first s :
  _sentNonce s = false → encoder_ended s = false →
  handshake P s
  = (Normal NoReply,
     add_nextTick handshake_written
       (push_chunks (lengthPrefixedStream_encode (handshake_message P s)) s)).
Proof.
  intros Hclear Hopen. unfold handshake, _encode, mbind, M_bind, this. simpl.
  rewrite Hclear.
  change (Buffer_from_utf8 _) with (handshake_message P s).
  rewrite _encoderStream_write_clear by assumption. reflexivity.
Qed.

Lemma handshake_refused s :
  _sentNonce s = false → encoder_ended s = true →
  handshake P s = (Throw (new_Error "write after end"), s).
Proof.
  intros Hclear Hended. unfold handshake, _encode, mbind, M_bind, this. simpl.
  rewrite Hclear. rewrite _encoderStream_write_ended by assumption.
  reflexivity.
Qed.


End Sending.

Section SendingMessages.
Context `{Sodium} `{Framing} `{Json}.



End SendingMessages.

(** ** Histories *)

Lemma wrote_refl s : wrote s s.
Proof. unfold wrote. tauto. Qed.

Lemma wrote_trans s1 s2 s3 : wrote s1 s2 → wrote s2 s3 → wrote s1 s3.
Proof. unfold wrote. intuition congruence. Qed.

Section HistoryFacts.
Context `{Sodium} `{Framing} `{Json}.
Variable P : protocol.

Lemma _readableStream_transform_wrote chunk s :
  wrote s (_readableStream_transform chunk s).2.
Proof.
  unfold _readableStream_transform, mbind, M_bind, this. simpl.
  destruct (_sentNonce s) eqn:Hsent; simpl.
  - destruct (_sendingCipher s) eqn:Hcipher; simpl.
    + unfold wrote. simpl. rewrite Hcipher.
      repeat split; auto; intros _; eauto.
    + apply wrote_refl.
  - unfold wrote. simpl. tauto.
Qed.

Lemma for_each_chunk_wrote chunks s :
  wrote s (for_each_chunk _readableStream_transform chunks s).2.
Proof.
  revert s. induction chunks as [|chunk rest IH]; intros s; simpl.
  - apply wrote_refl.
  - unfold mbind, M_bind.
    pose proof (_readableStream_transform_wrote chunk s) as Hstep.
    destruct (_readableStream_transform chunk s) as [[[]|e] s']; simpl in *.
    + eapply wrote_trans; [exact Hstep|apply IH].
    + exact Hstep.
Qed.

Lemma _encoderStream_write_wrote buffer k s :
  wrote s (_encoderStream_write buffer k s).2.
Proof.
  unfold _encoderStream_write, mbind, M_bind, this. simpl.
  destruct (encoder_ended s); simpl; [apply wrote_refl|].
  pose proof (for_each_chunk_wrote (lengthPrefixedStream_encode buffer) s)
    as Hwrote.
  destruct (for_each_chunk _ _ s) as [[[]|e] s']; exact Hwrote.
Qed.

Lemma _sendMessage_wrote typeName data s :
  wrote s (_sendMessage P typeName data s).2.
Proof.
  unfold _sendMessage.
  destruct (messageTypesByName P !! typeName) as [type|]; simpl;
    [|apply wrote_refl].
  destruct (accepts (valid type) data && verify type data); simpl;
    [|apply wrote_refl].
  unfold mbind, M_bind, _encode.
  pose proof (_encoderStream_write_wrote
                (Buffer_from_utf8
                   (JSON_stringify
                      (JArray [JNumber (of_nat (prefix type)); data])))
                sendMessage_given s) as Hwrote.
  destruct (_encoderStream_write _ _ s) as [[[]|e] s']; exact Hwrote.
Qed.

Lemma handshake_wrote s : wrote s (handshake P s).2.
Proof.
  destruct (_sentNonce s) eqn:Hsent.
  - rewrite handshake_already_sent by assumption. apply wrote_refl.
  - destruct (encoder_ended s) eqn:Hended.
    + rewrite handshake_refused by assumption. apply wrote_refl.
    + rewrite handshake_first by assumption.
      pose proof (_encoderStream_write_wrote (handshake_message P s)
                    handshake_written s) as Hw.
      rewrite _encoderStream_write_clear in Hw by assumption. exact Hw.
Qed.

(** A tick touches the flag and the functions kept, and nothing else. *)
Lemma tick_keeps s :
  _key (tick s).2 = _key s ∧ _sendingNonce (tick s).2 = _sendingNonce s ∧
  _sendingCipher (tick s).2 = _sendingCipher s ∧
  _receivingNonce (tick s).2 = _receivingNonce s ∧
  _receivingCipher (tick s).2 = _receivingCipher s ∧
  encoder_ended (tick s).2 = encoder_ended s ∧
  pushed (tick s).2 = pushed s ∧ decoded (tick s).2 = decoded s ∧
  emitted (tick s).2 = emitted s ∧ destroyed (tick s).2 = destroyed s ∧
  finals (tick s).2 = finals s.
Proof.
  unfold tick, call_continuation, handshake_after_write, mbind, M_bind, this.
  simpl. destruct (nextTick s) as [|[| |] rest]; simpl; auto 12.
Qed.

(** A fresh instance. *)
Lemma Protocol_Normal key random s0 :
  Protocol key random = Normal s0 →
  length key = STREAM_KEYBYTES ∧ length random = STREAM_NONCEBYTES ∧
  s0 = {| _key := key; _sendingNonce := random;
          _sendingCipher := Some (crypto_stream_xor_instance random key);
          _sentNonce := false; _receivingNonce := None;
          _receivingCipher := None; encoder_ended := false;
          pushed := []; decoded := []; emitted := [];
          destroyed := None; finals := []; nextTick := [] |}.
Proof.
  unfold Protocol, _initializeReadable, _initializeWritable, initializeCipher,
    assert, mbind, M_bind, mret, M_ret, mthrow, M_throw, this, assign.
  simpl.
  destruct (length key =? STREAM_KEYBYTES) eqn:Hkey; simpl; [|discriminate].
  destruct (length random =? STREAM_NONCEBYTES) eqn:Hnonce; simpl;
    [|discriminate].
  rewrite Hkey. simpl.
  apply Nat.eqb_eq in Hkey, Hnonce.
  intros [= <-]. auto.
Qed.




End HistoryFacts.

(** ** Invariants of the reachable states *)

Lemma torn_down_once_wrote s s' :
  wrote s s' → torn_down_once s → torn_down_once s'.
Proof.
  unfold wrote, torn_down_once.
  intros (_ & _ & Hcipher & _ & _ & _ & -> & _ & _ & _ & ->).
  destruct (_sendingCipher s) as [c|], (_sendingCipher s') as [c'|]; auto.
  - intros _. destruct Hcipher as [_ Hc]. destruct Hc as [? [=]]. eauto.
  - intros _. destruct Hcipher as [Hc _]. destruct Hc as [? [=]]. eauto.
Qed.

Lemma final_count_torn_down_once s d : torn_down_once s → final_count d s ≤ 1.
Proof.
  unfold torn_down_once, final_count.
  destruct (_sendingCipher s).
  - intros ->. simpl. lia.
  - intros (_ & c & [-> | [c' ->]]); destruct d; simpl; lia.
Qed.

Section Invariants.
Context `{Sodium} `{Framing} `{Json}.
Variable P : protocol.

Lemma run_invariant (I : channel → Prop) :
  (∀ c s, I s → I (perform P c s).2) →
  ∀ calls s, I s → I (run P calls s).2.
Proof.
  intros Hstep calls. induction calls as [|c calls IH]; intros s Hs; simpl.
  - exact Hs.
  - specialize (Hstep c s Hs). destruct (perform P c s) as [r s1].
    specialize (IH s1 Hstep). destruct (run P calls s1) as [rs s2].
    exact IH.
Qed.

Lemma reachable_invariant (I : channel → Prop) :
  (∀ key random s0, Protocol key random = Normal s0 → I s0) →
  (∀ c s, I s → I (perform P c s).2) →
  ∀ s, reachable P s → I s.
Proof.
  intros Hfresh Hstep s (key & random & s0 & calls & Hnew & <-).
  apply run_invariant; eauto.
Qed.

Lemma _encoderStream_end_ended k s :
  _encoderStream_end k s = (Normal tt, ended k s).
Proof.
  unfold _encoderStream_end, ended, mbind, M_bind, this. simpl.
  destruct (encoder_ended s); reflexivity.
Qed.

Lemma ended_fields k s :
  encoder_ended (ended k s) = true ∧
  _key (ended k s) = _key s ∧ _sendingNonce (ended k s) = _sendingNonce s ∧
  _sendingCipher (ended k s) = _sendingCipher s ∧
  _sentNonce (ended k s) = _sentNonce s ∧
  _receivingNonce (ended k s) = _receivingNonce s ∧
  _receivingCipher (ended k s) = _receivingCipher s ∧
  pushed (ended k s) = pushed s ∧ decoded (ended k s) = decoded s ∧
  emitted (ended k s) = emitted s ∧ destroyed (ended k s) = destroyed s ∧
  finals (ended k s) = finals s.
Proof.
  unfold ended. destruct (encoder_ended s) eqn:Hended; simpl; auto 12.
Qed.

(** [finalize] after a drain without error, by the ciphers it finds. *)
Lemma finalize_None s :
  finalize None s
  = match _sendingCipher s with
    | None =>
        (Throw (TypeError "Cannot read properties of null"),
         ended finalize_given s)
    | Some cs =>
        match _receivingCipher s with
        | None =>
            (Throw (TypeError "Cannot read properties of null"),
             set_sendingCipher None
               (add_final Sending cs (ended finalize_given s)))
        | Some cr =>
            (Normal tt,
             set_receivingCipher None
               (add_final Receiving cr
                  (set_sendingCipher None
                     (add_final Sending cs (ended finalize_given s)))))
        end
    end.
Proof.
  unfold finalize, mbind, M_bind. rewrite _encoderStream_end_ended.
  destruct (ended_fields finalize_given s)
    as (_ & _ & _ & Hcs & _ & _ & Hcr & _).
  unfold this, assign. simpl. rewrite Hcs, Hcr.
  destruct (_sendingCipher s) as [cs|]; simpl; [|reflexivity].
  destruct (_receivingCipher s) as [cr|]; reflexivity.
Qed.

Lemma finalize_torn_down_once drain s :
  torn_down_once s → torn_down_once (finalize drain s).2.
Proof.
  destruct drain as [e|].
  - unfold torn_down_once, finalize, destroy, mbind, M_bind, this, assign.
    simpl. destruct (destroyed s); simpl; auto.
  - rewrite finalize_None. unfold torn_down_once.
    destruct (ended_fields finalize_given s)
      as (Hended & _ & _ & Hcs & _ & _ & _ & _ & _ & _ & _ & Hfinals).
    destruct (_sendingCipher s) as [cs|] eqn:Hsending.
    + intros Hf. destruct (_receivingCipher s) as [cr|]; simpl;
        rewrite Hended, Hfinals, Hf; simpl; eauto 6.
    + simpl. rewrite Hcs, Hended, Hfinals. intros [_ Hf]. auto.
Qed.

Lemma perform_torn_down_once c s :
  torn_down_once s → torn_down_once (perform P c s).2.
Proof.
  destruct c as [|typeName data|drain|chunk|message|]; simpl.
  - apply torn_down_once_wrote, handshake_wrote.
  - apply torn_down_once_wrote, _sendMessage_wrote.
  - intros Hs.
    apply (stable_bind torn_down_once);
      [|intros ?; apply stable_ret|exact Hs].
    intros s' Hs'. apply finalize_torn_down_once, Hs'.
  - apply (stable_bind torn_down_once); [|intros ?; apply stable_ret].
    unfold _writableStream_transform.
    stable_steps ltac:(unfold torn_down_once in *; simpl; assumption).
  - apply (stable_bind torn_down_once); [|intros ?; apply stable_ret].
    unfold _parserStream_transform, _parse, destroy, initializeCipher, emit.
    stable_steps ltac:(unfold torn_down_once in *; simpl; assumption).
  - unfold tick, call_continuation, handshake_after_write.
    stable_steps ltac:(unfold torn_down_once in *; simpl; assumption).
Qed.

Lemma reachable_torn_down_once s : reachable P s → torn_down_once s.
Proof.
  apply reachable_invariant.
  - intros key random s0 Hnew.
    destruct (Protocol_Normal _ _ _ Hnew) as (_ & _ & ->). reflexivity.
  - apply perform_torn_down_once.
Qed.

(** C8. On an instance that has both ciphers, [finalize] after a drain
    without error ends the encoder, runs [final()] on the sending cipher
    and then on the receiving cipher, and sets both fields to [null];
    ending an open encoder sets it ended and leaves the callback with it for
    a later tick, and ending an ended one does nothing.  On an instance
    whose receiving cipher was never made, it throws a [TypeError] instead
    of returning.  When the drain fails nothing is torn down: the call is
    [destroy] with the drain's error.  Over every history of an instance,
    [final()] runs at most once for each direction; a [finalize] that
    returns leaves it run exactly once for each, and a later [finalize]
    throws without running it again. *)
Theorem finalize_tears_down_once :
  (∀ s cs cr,
     _sendingCipher s = Some cs → _receivingCipher s = Some cr →
     finalize None s
     = (Normal tt,
        set_receivingCipher None
          (add_final Receiving cr
             (set_sendingCipher None
                (add_final Sending cs (ended finalize_given s)))))) ∧
  (∀ s, encoder_ended s = false →
        ended finalize_given s
        = add_nextTick finalize_given (set_encoder_ended true s)) ∧
  (∀ s, encoder_ended s = true → ended finalize_given s = s) ∧
  (∀ s cs,
     _sendingCipher s = Some cs → _receivingCipher s = None →
     (finalize None s).1 = Throw (TypeError "Cannot read properties of null")) ∧
  (∀ s e, finalize (Some e) s = destroy e s) ∧
  (∀ s, reachable P s →
        final_count Sending s ≤ 1 ∧ final_count Receiving s ≤ 1) ∧
  (∀ s, reachable P s → (finalize None s).1 = Normal tt →
        final_count Sending (finalize None s).2 = 1 ∧
        final_count Receiving (finalize None s).2 = 1 ∧
        _sendingCipher (finalize None s).2 = None ∧
        _receivingCipher (finalize None s).2 = None ∧
        encoder_ended (finalize None s).2 = true) ∧
  (∀ s, _sendingCipher s = None →
        (finalize None s).1 = Throw (TypeError "Cannot read properties of null") ∧
        finals (finalize None s).2 = finals s).
Proof.
  split.
  { intros s cs cr Hcs Hcr. rewrite finalize_None, Hcs, Hcr. reflexivity. }
  split; [intros s Hopen; unfold ended; rewrite Hopen; reflexivity|].
  split; [intros s Hended; unfold ended; rewrite Hended; reflexivity|].
  split.
  { intros s cs Hcs Hcr. rewrite finalize_None, Hcs, Hcr. reflexivity. }
  split; [reflexivity|].
  split.
  { intros s Hs. apply reachable_torn_down_once in Hs.
    split; apply final_count_torn_down_once; exact Hs. }
  split.
  { intros s Hs. apply reachable_torn_down_once in Hs. revert Hs.
    rewrite finalize_None.
    destruct (ended_fields finalize_given s)
      as (Hended & _ & _ & _ & _ & _ & _ & _ & _ & _ & _ & Hfinals).
    unfold torn_down_once, final_count.
    destruct (_sendingCipher s) as [cs|]; simpl; [|discriminate].
    intros Hf. destruct (_receivingCipher s) as [cr|]; simpl; [|discriminate].
    rewrite Hfinals, Hf, Hended. auto. }
  intros s Hcs. rewrite finalize_None, Hcs. simpl.
  split; [reflexivity|]. apply ended_fields.
Qed.

End Invariants.

(** ** The ciphers and the two handshakes *)

Section Ciphers.
Context `{Sodium} `{Framing} `{Json}.
Variable P : protocol.

Lemma _writableStream_transform_clear chunk s :
  _receivingCipher s = None →
  _writableStream_transform chunk s = (Normal tt, add_decoded chunk s).
Proof.
  intros Hnone. unfold _writableStream_transform, mbind, M_bind, this. simpl.
  rewrite Hnone. reflexivity.
Qed.

Lemma _writableStream_transform_cipher chunk s c :
  _receivingCipher s = Some c →
  _writableStream_transform chunk s
  = (Normal tt, add_decoded (cipher_update c chunk).2
                  (set_receivingCipher (Some (cipher_update c chunk).1) s)).
Proof.
  intros Hsome. unfold _writableStream_transform, mbind, M_bind, this. simpl.
  rewrite Hsome. reflexivity.
Qed.

Lemma for_each_chunk_cipher chunks :
  ∀ s c,
    _sentNonce s = true → _sendingCipher s = Some c →
    for_each_chunk _readableStream_transform chunks s
    = (Normal tt,
       push_chunks (update_chunks c chunks).2
         (set_sendingCipher (Some (update_chunks c chunks).1) s)).
Proof.
  induction chunks as [|chunk rest IH]; intros s c Hsent Hcipher; simpl.
  - unfold push_chunks, set_sendingCipher. simpl. rewrite <- Hcipher.
    destruct s; reflexivity.
  - unfold mbind, M_bind.
    rewrite (_readableStream_transform_cipher chunk s c Hsent Hcipher).
    rewrite (IH _ (cipher_update c chunk).1) by (simpl; auto).
    reflexivity.
Qed.

Lemma _encoderStream_write_cipher buffer k s c :
  _sentNonce s = true → _sendingCipher s = Some c → encoder_ended s = false →
  _encoderStream_write buffer k s
  = (Normal tt,
     add_nextTick k
       (push_chunks (update_chunks c (lengthPrefixedStream_encode buffer)).2
          (set_sendingCipher
             (Some (update_chunks c (lengthPrefixedStream_encode buffer)).1)
             s))).
Proof.
  intros Hsent Hcipher Hopen.
  unfold _encoderStream_write, mbind, M_bind, this. simpl. rewrite Hopen.
  rewrite (for_each_chunk_cipher _ s c Hsent Hcipher). reflexivity.
Qed.

(** While the encoder is open the sending cipher is there. *)
Lemma reachable_sendingCipher s :
  reachable P s → encoder_ended s = false → is_Some (_sendingCipher s).
Proof.
  intros Hs Hopen. apply reachable_torn_down_once in Hs.
  unfold torn_down_once in Hs. destruct (_sendingCipher s); [eauto|].
  destruct Hs as [Hended _]. congruence.
Qed.

(** Byte [i] of a transformed chunk is byte [i] of the chunk with the byte
    of the key stream at its place added to it. *)
Lemma stream_xor_lookup nonce secretKey chunk :
  ∀ offset i b,
    chunk !! i = Some b →
    stream_xor nonce secretKey offset chunk !! i
    = Some (byte_xor b (crypto_stream nonce secretKey (offset + N.of_nat i))).
Proof.
  induction chunk as [|x rest IH]; intros offset [|i] b; simpl;
    try discriminate.
  - intros [= ->]. rewrite N.add_0_r. reflexivity.
  - intros Hi. rewrite (IH _ _ _ Hi). do 3 f_equal. lia.
Qed.

Lemma stream_xor_app nonce secretKey a b :
  ∀ offset,
    stream_xor nonce secretKey offset (a ++ b)
    = stream_xor nonce secretKey offset a
      ++ stream_xor nonce secretKey (offset + N.of_nat (length a)) b.
Proof.
  induction a as [|x rest IH]; intros offset; simpl.
  - rewrite N.add_0_r. reflexivity.
  - rewrite IH. do 3 f_equal. lia.
Qed.

(** The chunks of a list through [update] one after the other are the
    bytes of the list, taken together, through the key stream from where
    the instance stood; the instance moves on by their number. *)
Lemma update_chunks_concat chunks :
  ∀ c,
    concat (update_chunks c chunks).2
    = stream_xor (cipher_nonce c) (cipher_key c) (cipher_offset c)
        (concat chunks) ∧
    (update_chunks c chunks).1
    = {| cipher_nonce := cipher_nonce c; cipher_key := cipher_key c;
         cipher_offset := cipher_offset c + N.of_nat (length (concat chunks)) |}.
Proof.
  induction chunks as [|chunk rest IH]; intros c.
  - simpl. rewrite N.add_0_r. destruct c; auto.
  - cbn [update_chunks fst snd concat].
    destruct (IH (cipher_update c chunk).1) as [Hbytes Hstate].
    rewrite Hbytes, Hstate, stream_xor_app. simpl.
    split; [reflexivity|]. f_equal. rewrite length_app. lia.
Qed.

Lemma decoded_pass_chunks chunks s :
  decoded (pass_chunks chunks s) = decoded s ++ chunks ∧
  _receivingCipher (pass_chunks chunks s) = _receivingCipher s.
Proof.
  unfold pass_chunks. revert s.
  induction chunks as [|chunk rest IH]; intros s; simpl.
  - rewrite app_nil_r. auto.
  - destruct (IH (add_decoded chunk s)) as [-> ->]. simpl.
    rewrite <- app_assoc. auto.
Qed.

Lemma for_each_chunk_pass chunks :
  ∀ s, _receivingCipher s = None →
       for_each_chunk _writableStream_transform chunks s
       = (Normal tt, pass_chunks chunks s).
Proof.
  induction chunks as [|chunk rest IH]; intros s Hnone; simpl; [reflexivity|].
  unfold mbind, M_bind.
  rewrite _writableStream_transform_clear by assumption.
  apply IH. exact Hnone.
Qed.

Lemma for_each_chunk_decipher chunks :
  ∀ s c, _receivingCipher s = Some c →
         for_each_chunk _writableStream_transform chunks s
         = (Normal tt,
            pass_chunks (update_chunks c chunks).2
              (set_receivingCipher (Some (update_chunks c chunks).1) s)).
Proof.
  induction chunks as [|chunk rest IH]; intros s c Hcipher; simpl.
  - unfold pass_chunks, set_receivingCipher. simpl. rewrite <- Hcipher.
    destruct s; reflexivity.
  - unfold mbind, M_bind.
    rewrite (_writableStream_transform_cipher chunk s c Hcipher).
    rewrite (IH _ (cipher_update c chunk).1) by reflexivity.
    reflexivity.
Qed.









End Ciphers.

(** ** Receiving *)

Lemma lower_hex_hex_value c : lower_hex c = true → is_Some (hex_value c).
Proof.
  unfold lower_hex, hex_value. intros Hc.
  destruct ((48 <=? c)%N && (c <=? 57)%N); [eauto|].
  destruct ((97 <=? c)%N && (c <=? 102)%N); [eauto|].
  discriminate.
Qed.

(** A string of [2 n] lower-case hexadecimal digits decodes to [n]
    bytes. *)
Lemma Buffer_from_hex_length n s :
  matches_repeated lower_hex (n * 2) s = true →
  length (Buffer_from_hex s) = n.
Proof.
  revert s. induction n as [|n IH]; intros s; simpl.
  - destruct s; [reflexivity|discriminate].
  - destruct s as [|a [|b rest]]; try discriminate.
    + rewrite andb_false_r. discriminate.
    + rewrite !andb_true_iff. intros (Ha & Hb & Hrest).
      destruct (lower_hex_hex_value a Ha) as [x Hx].
      destruct (lower_hex_hex_value b Hb) as [y Hy].
      cbn [Buffer_from_hex]. rewrite Hx, Hy.
      simpl. f_equal. apply IH, Hrest.
Qed.

Lemma strict_equals_of_nat v p :
  strict_equals v (of_nat p) = true →
  ∃ q, v = JNumber (Finite q) ∧ Qnum q = (Z.of_nat p * Zpos (Qden q))%Z.
Proof.
  destruct v as [| | |[q| |]| | |]; simpl; try discriminate.
  intros Heq. apply Qeq_bool_iff in Heq. unfold Qeq in Heq. simpl in Heq.
  exists q. split; [reflexivity|]. lia.
Qed.

Section Receiving.
Context `{Sodium} `{Framing} `{Json}.
Variable P : protocol.

Lemma type_with_prefix_of_nat v p :
  strict_equals v (of_nat p) = true →
  type_with_prefix P v = messageTypesByPrefix P !! p.
Proof.
  intros Heq. destruct (strict_equals_of_nat v p Heq) as (q & -> & Hq).
  unfold type_with_prefix, Q_is_integer, Qle_bool. simpl. rewrite Hq.
  rewrite Z_mod_mult, Z_div_mult by lia. simpl.
  match goal with
  | |- context [(?a <=? ?b)%Z] =>
      replace (a <=? b)%Z with true by (symmetry; apply Z.leb_le; nia)
  end.
  rewrite Nat2Z.id. reflexivity.
Qed.

Lemma validHandshake_nonce body :
  validHandshake body = true →
  ∃ nonce, property_of body "nonce" = JString nonce ∧
           length (Buffer_from_hex nonce) = STREAM_NONCEBYTES.
Proof.
  destruct body as [| | | | | |properties]; simpl; try discriminate.
  rewrite !andb_true_iff. intros ((((_ & _) & _) & Hnonce) & _).
  destruct (get_property properties (js "nonce")); try discriminate.
  eexists. split; [reflexivity|]. apply Buffer_from_hex_length, Hnonce.
Qed.

Lemma _parse_SyntaxError message s :
  JSON_parse message = None →
  _parse P message s = (Normal (Some SyntaxError), s).
Proof. intros Hparse. unfold _parse. rewrite Hparse. reflexivity. Qed.

Lemma _parse_invalid_tuple message parsed s :
  JSON_parse message = Some parsed → validTuple P parsed = false →
  _parse P message s = (Normal (Some (new_Error "invalid tuple")), s).
Proof.
  intros Hparse Htuple. unfold _parse. rewrite Hparse, Htuple. reflexivity.
Qed.

Lemma _parse_version_mismatch message parsed s :
  JSON_parse message = Some parsed → validTuple P parsed = true →
  strict_equals (get_index parsed 0) (of_nat 0) = true →
  validHandshake (get_index parsed 1) = true →
  strict_equals (property_of (get_index parsed 1) "version") (version P)
  = false →
  _parse P message s
  = (Normal (Some (version_mismatch
                     (property_of (get_index parsed 1) "version"))), s).
Proof.
  intros Hparse Htuple Hzero Hhandshake Hversion. unfold _parse.
  rewrite Hparse, Htuple, Hzero, Hhandshake, Hversion. reflexivity.
Qed.

Lemma _parse_handshake_again message c s :
  handshake_frame P message = true → _receivingCipher s = Some c →
  _parse P message s = (Normal None, add_emitted handshake_event s).
Proof.
  unfold handshake_frame, _parse.
  destruct (JSON_parse message) as [parsed|]; [|discriminate].
  rewrite !andb_true_iff. intros (((-> & ->) & ->) & ->) Hcipher. simpl.
  unfold mbind, M_bind, this. simpl. rewrite Hcipher. reflexivity.
Qed.

Lemma _parse_handshake_first message s :
  handshake_frame P message = true → _receivingCipher s = None →
  length (_key s) = STREAM_KEYBYTES →
  _parse P message s
  = (Normal None,
     add_emitted handshake_event
       (set_receivingCipher
          (Some (crypto_stream_xor_instance (frame_nonce message) (_key s)))
          (set_receivingNonce (Some (frame_nonce message)) s))).
Proof.
  unfold handshake_frame, frame_nonce, _parse.
  destruct (JSON_parse message) as [parsed|]; [|discriminate].
  rewrite !andb_true_iff. intros (((-> & ->) & Hhandshake) & ->) Hcipher Hkey.
  rewrite Hhandshake. simpl.
  destruct (validHandshake_nonce _ Hhandshake) as (nonce & Hnonce & Hlength).
  unfold mbind, M_bind, this. simpl. rewrite Hcipher, Hnonce.
  unfold initializeCipher, assert, assign, emit, mbind, M_bind, mret, M_ret.
  simpl. rewrite Hlength, Hkey, !Nat.eqb_refl. reflexivity.
Qed.

(** The frames the parser answers with an [invalid] event. *)
Lemma _parse_invalid message parsed s :
  JSON_parse message = Some parsed → validTuple P parsed = true →
  strict_equals (get_index parsed 0) (of_nat 0)
  && validHandshake (get_index parsed 1) = false →
  match type_with_prefix P (get_index parsed 0) with
  | None => True
  | Some type =>
      accepts (valid type) (get_index parsed 1) = false
      ∨ verify type (get_index parsed 1) = false
  end →
  _parse P message s
  = (Normal None, add_emitted (invalid_event (get_index parsed 1)) s).
Proof.
  intros Hparse Htuple Hnot Htype. unfold _parse.
  rewrite Hparse, Htuple, Hnot. simpl.
  destruct (type_with_prefix P (get_index parsed 0)) as [type|];
    [|reflexivity].
  destruct Htype as [-> | ->]; [reflexivity|].
  rewrite orb_true_r. reflexivity.
Qed.

Lemma _parserStream_transform_error message e s :
  _parse P message s = (Normal (Some e), s) → destroyed s = None →
  _parserStream_transform P message s = (Normal tt, set_destroyed (Some e) s).
Proof.
  intros Hparse Hlive. unfold _parserStream_transform, mbind, M_bind.
  rewrite Hparse. apply destroy_live, Hlive.
Qed.

Lemma _parserStream_transform_ok message s s' :
  _parse P message s = (Normal None, s') →
  _parserStream_transform P message s = (Normal tt, s').
Proof.
  intros Hparse. unfold _parserStream_transform, mbind, M_bind.
  rewrite Hparse. reflexivity.
Qed.

End Receiving.

Lemma existsb_prefix (f : nat → bool) (l : list nat) :
  existsb f l = true ↔ ∃ p, p ∈ l ∧ f p = true.
Proof.
  rewrite existsb_exists. split; intros (p & Hp & Hf); exists p;
    (split; [apply list_elem_of_In, Hp|exact Hf]).
Qed.

(** The prefixes of the tuple schema are 0 and those of the types. *)
Lemma makeProtocol_prefixes options P :
  makeProtocol options = Normal P →
  ∀ p, p ∈ messageTypePrefixes P
       ↔ p = 0 ∨ is_Some (messageTypesByPrefix P !! p).
Proof.
  intros Hmake p.
  destruct (makeProtocol_Normal _ _ Hmake) as (Hp & Hzero & _ & Hfar & Hin).
  rewrite Hp, elem_of_seq. split.
  - intros [_ Hle]. destruct p as [|p]; [auto|right].
    destruct (lookup_lt_is_Some_2 (sort (Object_keys (messages options))) p)
      as [n Hn]; [lia|].
    destruct (Hin p n Hn) as (type & _ & Htype & _).
    replace (S p) with (p + 1) by lia. eauto.
  - intros [-> | Hsome]; [simpl; lia|].
    split; [lia|].
    destruct (decide (p < S (length (sort (Object_keys (messages options))))))
      as [Hlt|Hge]; [simpl; lia|].
    rewrite Hfar in Hsome by lia. destruct Hsome as [? [=]].
Qed.

Section Frames.
Context `{Sodium} `{Framing} `{Json}.

Lemma validTuple_handshake options P prefix body :
  makeProtocol options = Normal P →
  strict_equals prefix (of_nat 0) = true →
  validTuple P (JArray [prefix; body]) = true.
Proof.
  intros Hmake Hzero. unfold validTuple.
  destruct prefix as [| | |n| | |]; try discriminate. simpl in *.
  rewrite andb_true_r. apply existsb_prefix. exists 0.
  split; [|exact Hzero]. apply (makeProtocol_prefixes _ _ Hmake). auto.
Qed.

(** C6. A frame that is a tuple with prefix 0 and a body that passes the
    handshake schema but names another version than the local one: [_parse]
    calls back with an [Error] whose message is "version mismatch" and whose
    [version] property is the version the body names, nothing else on the
    instance changes, and the parser stream passes that error to [destroy]:
    a live channel is terminated with it, so that afterwards it is
    destroyed with that error, and no event was emitted and no receiving
    cipher made on the way.  A channel that was destroyed before stays as
    it is. *)
Theorem version_mismatch_is_fatal options P message prefix body s :
  makeProtocol options = Normal P →
  JSON_parse message = Some (JArray [prefix; body]) →
  strict_equals prefix (of_nat 0) = true →
  validHandshake body = true →
  strict_equals (property_of body "version") (version P) = false →
  _parse P message s
  = (Normal (Some {| error_class_of := ErrorC;
                     message := js "version mismatch";
                     error_version := Some (property_of body "version");
                     error_errors := None |}), s) ∧
  (destroyed s = None →
   _parserStream_transform P message s
   = (Normal tt,
      set_destroyed (Some (version_mismatch (property_of body "version"))) s) ∧
   destroyed (_parserStream_transform P message s).2
   = Some {| error_class_of := ErrorC;
             message := js "version mismatch";
             error_version := Some (property_of body "version");
             error_errors := None |} ∧
   emitted (_parserStream_transform P message s).2 = emitted s ∧
   _receivingCipher (_parserStream_transform P message s).2
   = _receivingCipher s) ∧
  (∀ e, destroyed s = Some e →
        _parserStream_transform P message s = (Normal tt, s)).
Proof.
  intros Hmake Hparse Hzero Hhandshake Hversion.
  assert (Hfails : _parse P message s
                   = (Normal (Some (version_mismatch
                                      (property_of body "version"))), s)).
  { apply (_parse_version_mismatch P message _ s Hparse); try assumption.
    eapply validTuple_handshake; eassumption. }
  split; [exact Hfails|]. split.
  - intros Hlive.
    rewrite (_parserStream_transform_error P message _ s Hfails Hlive).
    auto.
  - intros e Hdead.
    unfold _parserStream_transform, mbind, M_bind. rewrite Hfails.
    unfold destroy, mbind, M_bind, this. simpl. rewrite Hdead. reflexivity.
Qed.

(** C9. A frame that passes the tuple schema with prefix 0, with no body or
    with a body that fails the handshake schema: no type has prefix 0, so
    [_parse] emits [invalid] with the body as it was parsed and calls back
    without an error; nothing else on the instance changes, and the channel
    is not destroyed.  Every two-element tuple with prefix 0 passes the
    tuple schema. *)
Theorem invalid_handshake_body_is_tolerated options P message parsed s :
  makeProtocol options = Normal P →
  JSON_parse message = Some parsed →
  validTuple P parsed = true →
  strict_equals (get_index parsed 0) (of_nat 0) = true →
  validHandshake (get_index parsed 1) = false →
  _parse P message s
  = (Normal None, add_emitted (invalid_event (get_index parsed 1)) s) ∧
  _parserStream_transform P message s
  = (Normal tt, add_emitted (invalid_event (get_index parsed 1)) s) ∧
  emitted (_parserStream_transform P message s).2
  = emitted s ++ [{| event_name := js "invalid";
                     event_args := [get_index parsed 1] |}] ∧
  destroyed (_parserStream_transform P message s).2 = destroyed s ∧
  (∀ prefix body, parsed = JArray [prefix; body] →
                  validTuple P (JArray [prefix; body]) = true).
Proof.
  intros Hmake Hparse Htuple Hzero Hhandshake.
  assert (Hinvalid : _parse P message s
                     = (Normal None,
                        add_emitted (invalid_event (get_index parsed 1)) s)).
  { apply (_parse_invalid P message parsed s Hparse Htuple).
    - rewrite Hhandshake. apply andb_false_r.
    - rewrite (type_with_prefix_of_nat P _ 0 Hzero).
      destruct (makeProtocol_Normal _ _ Hmake) as (_ & -> & _). exact I. }
  split; [exact Hinvalid|].
  rewrite (_parserStream_transform_ok P _ _ _ Hinvalid). simpl.
  repeat split.
  intros prefix body ->. exact Htuple.
Qed.

(** C10. The nonce of a body that has passed the handshake schema is a
    string that decodes from hexadecimal to exactly [STREAM_NONCEBYTES]
    bytes, so the assertion on the receiving nonce holds whenever it is
    reached: no call of [_parse], on any frame and any instance, throws
    its error. *)
Theorem receiving_nonce_assertion_holds body :
  validHandshake body = true →
  (∃ nonce, property_of body "nonce" = JString nonce ∧
            (length (Buffer_from_hex nonce) =? STREAM_NONCEBYTES) = true) ∧
  (∀ P message s,
     (_parse P message s).1
     ≠ Throw {| error_class_of := AssertionErrorC;
                message := js "receiving nonce must be STREAM_NONCEBYTES long";
                error_version := None; error_errors := None |}).
Proof.
  intros Hbody. split.
  { destruct (validHandshake_nonce _ Hbody) as (nonce & Hnonce & Hlength).
    exists nonce. split; [exact Hnonce|]. apply Nat.eqb_eq, Hlength. }
  clear body Hbody. intros P message s. unfold _parse.
  destruct (JSON_parse message) as [parsed|]; [|discriminate].
  destruct (negb (validTuple P parsed)); [discriminate|].
  destruct (strict_equals (get_index parsed 0) (of_nat 0)); simpl.
  - destruct (validHandshake (get_index parsed 1)) eqn:Hhandshake.
    + destruct (negb _); [discriminate|].
      unfold mbind, M_bind, this. simpl.
      destruct (_receivingCipher s); [discriminate|].
      destruct (validHandshake_nonce _ Hhandshake)
        as (nonce & -> & Hlength).
      unfold initializeCipher, assert, assign, emit, mbind, M_bind, mret,
        M_ret, mthrow, M_throw. simpl.
      rewrite Hlength, Nat.eqb_refl. simpl.
      destruct (length (_key s) =? STREAM_KEYBYTES); simpl; [discriminate|].
      intros [= Hmessage]; vm_compute in Hmessage; discriminate.
    + destruct (type_with_prefix P (get_index parsed 0)) as [type|];
        [|discriminate].
      destruct (negb _ || negb _); discriminate.
  - destruct (type_with_prefix P (get_index parsed 0)) as [type|];
      [|discriminate].
    destruct (negb _ || negb _); discriminate.
Qed.

End Frames.

Lemma handshakes_emitted_fields n s :
  _receivingCipher (handshakes_emitted n s) = _receivingCipher s ∧
  _receivingNonce (handshakes_emitted n s) = _receivingNonce s ∧
  emitted (handshakes_emitted n s) = emitted s ++ repeat handshake_event n ∧
  destroyed (handshakes_emitted n s) = destroyed s.
Proof.
  unfold handshakes_emitted. induction n as [|n (IH1 & IH2 & IH3 & IH4)]; simpl.
  - rewrite app_nil_r. auto.
  - repeat split; try assumption.
    rewrite IH3, <- app_assoc. f_equal.
    change ([handshake_event]) with (repeat handshake_event 1).
    rewrite <- repeat_app. replace (n + 1) with (S n) by lia. reflexivity.
Qed.

Section Handshakes.
Context `{Sodium} `{Framing} `{Json}.
Variable P : protocol.

Lemma perform_key c s : _key (perform P c s).2 = _key s.
Proof.
  destruct c as [|typeName data|drain|chunk|message|]; simpl.
  - apply (handshake_wrote P s).
  - apply (_sendMessage_wrote P typeName data s).
  - apply (stable_bind (λ s', _key s' = _key s));
      [|intros ?; apply stable_ret|reflexivity].
    unfold finalize, destroy, _encoderStream_end.
    stable_steps ltac:(simpl; assumption).
  - apply (stable_bind (λ s', _key s' = _key s));
      [|intros ?; apply stable_ret|reflexivity].
    unfold _writableStream_transform.
    stable_steps ltac:(simpl; assumption).
  - apply (stable_bind (λ s', _key s' = _key s));
      [|intros ?; apply stable_ret|reflexivity].
    unfold _parserStream_transform, _parse, destroy, initializeCipher, emit.
    stable_steps ltac:(simpl; assumption).
  - assert (Hkeep : stable (λ s', _key s' = _key s) tick);
      [|apply Hkeep; reflexivity].
    unfold tick, call_continuation, handshake_after_write.
    stable_steps ltac:(simpl; assumption).
Qed.

(** The key of an instance has the length the cipher wants. *)
Lemma reachable_key s : reachable P s → length (_key s) = STREAM_KEYBYTES.
Proof.
  apply (reachable_invariant P (λ s, length (_key s) = STREAM_KEYBYTES)).
  - intros key random s0 Hnew.
    destruct (Protocol_Normal _ _ _ Hnew) as (Hkey & _ & ->). exact Hkey.
  - intros c s' Hs'. rewrite perform_key. exact Hs'.
Qed.

Lemma receive_frames_again frames :
  Forall (λ frame, handshake_frame P frame = true) frames →
  ∀ s, is_Some (_receivingCipher s) →
       receive_frames P frames s = handshakes_emitted (length frames) s.
Proof.
  unfold handshakes_emitted.
  induction 1 as [|frame frames Hframe _ IH]; intros s [c Hc]; simpl.
  - reflexivity.
  - rewrite (_parserStream_transform_ok P frame s _
               (_parse_handshake_again P frame c s Hframe Hc)). simpl.
    rewrite IH by (simpl; eauto).
    rewrite <- Nat.iter_succ_r. reflexivity.
Qed.

Lemma _parserStream_transform_keeps_cipher message s c :
  _receivingCipher s = Some c →
  _receivingCipher (_parserStream_transform P message s).2 = Some c ∧
  _receivingNonce (_parserStream_transform P message s).2 = _receivingNonce s.
Proof.
  intros Hc.
  assert (Hparse : _receivingCipher (_parse P message s).2 = Some c ∧
                   _receivingNonce (_parse P message s).2 = _receivingNonce s).
  { unfold _parse.
    destruct (JSON_parse message) as [parsed|]; [|auto].
    destruct (negb (validTuple P parsed)); [auto|].
    destruct (_ && _).
    - destruct (negb _); [auto|].
      unfold mbind, M_bind, this. simpl. rewrite Hc. auto.
    - destruct (type_with_prefix P (get_index parsed 0)) as [type|]; [|auto].
      destruct (negb _ || negb _); auto. }
  unfold _parserStream_transform, destroy, mbind, M_bind, this.
  destruct (_parse P message s) as [[[e|]|e] s']; simpl in *; try exact Hparse.
  destruct (destroyed s'); exact Hparse.
Qed.

(** No call but [finalize] takes the receiving cipher away or replaces it
    by one of another nonce or key. *)
Lemma perform_keeps_receivingCipher c s c0 :
  (∀ drain, c ≠ call_finalize drain) →
  _receivingCipher s = Some c0 →
  (∃ c1, _receivingCipher (perform P c s).2 = Some c1 ∧
         cipher_nonce c1 = cipher_nonce c0 ∧ cipher_key c1 = cipher_key c0) ∧
  _receivingNonce (perform P c s).2 = _receivingNonce s.
Proof.
  intros Hc Hc0.
  destruct c as [|typeName data|drain|chunk|message|]; simpl; cycle 5.
  { assert (Hkeep : stable (λ s', _receivingCipher s' = _receivingCipher s
                                  ∧ _receivingNonce s' = _receivingNonce s)
                      tick).
    { unfold tick, call_continuation, handshake_after_write.
      stable_steps ltac:(simpl; assumption). }
    destruct (Hkeep s (conj eq_refl eq_refl)) as [Hcipher Hnonce].
    rewrite Hcipher, Hnonce. eauto. }
  - destruct (handshake_wrote P s)
      as (_ & _ & _ & _ & Hnonce & Hcipher & _).
    rewrite Hcipher, Hnonce. eauto.
  - destruct (_sendMessage_wrote P typeName data s)
      as (_ & _ & _ & _ & Hnonce & Hcipher & _).
    rewrite Hcipher, Hnonce. eauto.
  - destruct (Hc drain). reflexivity.
  - unfold mbind, M_bind.
    rewrite (_writableStream_transform_cipher chunk s c0 Hc0). simpl. eauto.
  - unfold mbind, M_bind.
    destruct (_parserStream_transform_keeps_cipher message s c0 Hc0)
      as [Hcipher Hnonce].
    destruct (_parserStream_transform P message s) as [[[]|e] s']; simpl in *;
      eauto.
Qed.

(** C3. On an instance without a receiving cipher, a first handshake frame
    of the local version makes the parser store the frame's nonce, create
    the receiving cipher from it and the key, and emit [handshake], without
    an error.  Each of the handshake frames that follow only adds one more
    [handshake] event: after any number of them the receiving cipher is the
    one created from the first frame, untouched, the receiving nonce is the
    first frame's, and the channel is as live as it was.  On any instance
    that has a receiving cipher such a frame changes nothing but the list of
    events, and no call other than [finalize] takes the cipher away or
    gives it another nonce or key. *)
Theorem inbound_cipher_initialized_once s first frames :
  reachable P s →
  _receivingCipher s = None →
  handshake_frame P first = true →
  Forall (λ frame, handshake_frame P frame = true) frames →
  let s1 :=
    add_emitted handshake_event
      (set_receivingCipher
         (Some (crypto_stream_xor_instance (frame_nonce first) (_key s)))
         (set_receivingNonce (Some (frame_nonce first)) s)) in
  _parserStream_transform P first s = (Normal tt, s1) ∧
  receive_frames P (first :: frames) s
  = handshakes_emitted (length frames) s1 ∧
  _receivingCipher (receive_frames P (first :: frames) s)
  = Some (crypto_stream_xor_instance (frame_nonce first) (_key s)) ∧
  _receivingNonce (receive_frames P (first :: frames) s)
  = Some (frame_nonce first) ∧
  emitted (receive_frames P (first :: frames) s)
  = emitted s ++ repeat handshake_event (S (length frames)) ∧
  destroyed (receive_frames P (first :: frames) s) = destroyed s ∧
  (∀ frame s' c,
     frame ∈ frames → _receivingCipher s' = Some c →
     _parserStream_transform P frame s'
     = (Normal tt, add_emitted handshake_event s')) ∧
  (∀ c s' c0,
     (∀ drain, c ≠ call_finalize drain) → _receivingCipher s' = Some c0 →
     (∃ c1, _receivingCipher (perform P c s').2 = Some c1 ∧
            cipher_nonce c1 = cipher_nonce c0 ∧
            cipher_key c1 = cipher_key c0) ∧
     _receivingNonce (perform P c s').2 = _receivingNonce s').
Proof.
  intros Hs Hnone Hfirst Hframes s1.
  assert (Hstep : _parserStream_transform P first s = (Normal tt, s1)).
  { apply _parserStream_transform_ok, _parse_handshake_first; try assumption.
    apply reachable_key, Hs. }
  assert (Hall : receive_frames P (first :: frames) s
                 = handshakes_emitted (length frames) s1).
  { simpl. rewrite Hstep. simpl.
    apply receive_frames_again; [assumption|]. simpl. eauto. }
  split; [exact Hstep|]. split; [exact Hall|]. rewrite Hall.
  destruct (handshakes_emitted_fields (length frames) s1)
    as (-> & -> & -> & ->).
  simpl. split; [reflexivity|]. split; [reflexivity|].
  split; [rewrite <- app_assoc; reflexivity|]. split; [reflexivity|].
  split.
  - intros frame s' c Hin Hc. rewrite Forall_forall in Hframes.
    apply _parserStream_transform_ok.
    eapply _parse_handshake_again; [|eassumption].
    apply Hframes. exact Hin.
  - intros c s' c0. apply perform_keeps_receivingCipher.
Qed.

End Handshakes.

Lemma number_eqb_of_nat a b : number_eqb (of_nat a) (of_nat b) = bool_decide (a = b).
Proof.
  unfold number_eqb, of_nat, Qeq_bool, inject_Z. simpl.
  rewrite !Z.mul_1_r. case_bool_decide as Hab.
  - subst. apply Z.eqb_refl.
  - apply Z.eqb_neq. lia.
Qed.

Section Rejection.
Context `{Sodium} `{Framing} `{Json}.

Lemma validTuple_unknown_prefix options P prefix body :
  makeProtocol options = Normal P →
  strict_equals prefix (of_nat 0) = false →
  (∀ p type, messageTypesByPrefix P !! p = Some type →
             strict_equals prefix (of_nat p) = false) →
  validTuple P (JArray [prefix; body]) = false.
Proof.
  intros Hmake Hzero Htypes. unfold validTuple.
  destruct prefix as [| | |n| | |]; try reflexivity. simpl in *.
  rewrite andb_true_r.
  destruct (existsb _ _) eqn:Hexists; [|reflexivity].
  apply existsb_prefix in Hexists as (p & Hp & Heq).
  apply (makeProtocol_prefixes _ _ Hmake) in Hp as [-> | [type Htype]].
  - congruence.
  - rewrite (Htypes p type Htype) in Heq. discriminate.
Qed.

(** C1, as the code has it.  On a live channel: a frame that is not JSON
    terminates the channel with the reader's error, and a frame whose value
    fails the tuple schema terminates it with "invalid tuple"; nothing is
    emitted in either case.  A two-element tuple whose prefix is neither 0
    nor the prefix of a message type fails the tuple schema, so it is one
    of these: the channel is terminated and no [invalid] event is emitted.
    The [invalid] event with the parsed body, on a channel that stays open,
    is what the parser answers to a frame that passes the tuple schema, is
    not taken for a handshake, and has no type for its prefix or a body that
    the type's schema or verify hook rejects. *)
Theorem malformed_frames_are_fatal options P message s :
  makeProtocol options = Normal P →
  destroyed s = None →
  (JSON_parse message = None →
   _parserStream_transform P message s
   = (Normal tt, set_destroyed (Some SyntaxError) s)) ∧
  (∀ parsed,
     JSON_parse message = Some parsed → validTuple P parsed = false →
     _parserStream_transform P message s
     = (Normal tt, set_destroyed (Some (new_Error "invalid tuple")) s)) ∧
  (∀ prefix body,
     JSON_parse message = Some (JArray [prefix; body]) →
     strict_equals prefix (of_nat 0) = false →
     (∀ p type, messageTypesByPrefix P !! p = Some type →
                strict_equals prefix (of_nat p) = false) →
     validTuple P (JArray [prefix; body]) = false ∧
     emitted (_parserStream_transform P message s).2 = emitted s ∧
     destroyed (_parserStream_transform P message s).2
     = Some (new_Error "invalid tuple")) ∧
  (∀ parsed,
     JSON_parse message = Some parsed → validTuple P parsed = true →
     strict_equals (get_index parsed 0) (of_nat 0)
     && validHandshake (get_index parsed 1) = false →
     match type_with_prefix P (get_index parsed 0) with
     | None => True
     | Some type =>
         accepts (valid type) (get_index parsed 1) = false
         ∨ verify type (get_index parsed 1) = false
     end →
     _parserStream_transform P message s
     = (Normal tt, add_emitted (invalid_event (get_index parsed 1)) s) ∧
     destroyed (_parserStream_transform P message s).2 = None).
Proof.
  intros Hmake Hlive.
  assert (Htuple : ∀ parsed,
            JSON_parse message = Some parsed → validTuple P parsed = false →
            _parserStream_transform P message s
            = (Normal tt, set_destroyed (Some (new_Error "invalid tuple")) s)).
  { intros parsed Hparse Hfails.
    apply _parserStream_transform_error; [|exact Hlive].
    eapply _parse_invalid_tuple; eassumption. }
  split.
  { intros Hparse. apply _parserStream_transform_error; [|exact Hlive].
    apply _parse_SyntaxError, Hparse. }
  split; [exact Htuple|]. split.
  { intros prefix body Hparse Hzero Htypes.
    pose proof (validTuple_unknown_prefix _ _ prefix body Hmake Hzero Htypes)
      as Hfails.
    rewrite (Htuple _ Hparse Hfails). auto. }
  intros parsed Hparse Hpasses Hnot Htype.
  rewrite (_parserStream_transform_ok P message s _
             (_parse_invalid P message parsed s Hparse Hpasses Hnot Htype)).
  auto.
Qed.

End Rejection.

(** ** The model on the protocol of the test *)

Module Examples.
Import Reference.

Lemma apple_orange_made : makeProtocol apple_orange_options = Normal apple_orange.
Proof. vm_compute. reflexivity. Qed.


Lemma anna_reachable : reachable apple_orange anna.
Proof. exists key, anna_random, anna, []. split; reflexivity. Qed.

(** C1, as the specification has it, fails on that frame: instead of
    emitting [invalid] the parser ends the channel with "invalid tuple". *)
Lemma unknown_prefix_is_not_tolerated :
  JSON_parse unknown_prefix_frame
  = Some (JArray [JNumber (of_nat 3); JBool true]) ∧
  emitted (_parserStream_transform apple_orange unknown_prefix_frame anna).2 = [] ∧
  destroyed (_parserStream_transform apple_orange unknown_prefix_frame anna).2
  = Some (new_Error "invalid tuple") ∧
  ¬ unknown_prefix_tolerated apple_orange unknown_prefix_frame anna.
Proof.
  split; [vm_compute; reflexivity|].
  split; [vm_compute; reflexivity|].
  split; [vm_compute; reflexivity|].
  intros Htolerated.
  destruct (Htolerated (JNumber (of_nat 3)) (JBool true)) as [_ Hopen].
  - vm_compute. reflexivity.
  - reflexivity.
  - intros p type Hp. cbn [strict_equals]. rewrite number_eqb_of_nat.
    case_bool_decide as Heq; [|reflexivity].
    subst p. vm_compute in Hp. discriminate.
  - vm_compute in Hopen. discriminate.
Qed.

(** [apple] gets prefix 1 and [orange] prefix 2. *)
Lemma prefix_is_sorted_index_witness :
  makeProtocol apple_orange_options = Normal apple_orange ∧
  sort (Object_keys (messages apple_orange_options)) = [js "apple"; js "orange"] ∧
  (∀ n type, messageTypesByName apple_orange !! n = Some type →
             ∃ i, sort (Object_keys (messages apple_orange_options)) !! i
                  = Some n ∧ prefix type = i + 1) ∧
  (∀ n type, messageTypesByName apple_orange !! n = Some type →
             prefix type ≠ 0).
Proof.
  split; [exact apple_orange_made|].
  split; [vm_compute; reflexivity|].
  destruct (prefix_is_sorted_index apple_orange_options apple_orange
              apple_orange_made) as (Hindex & _ & _ & Hzero & _).
  split; [exact Hindex|exact Hzero].
Defined.

(** The frame [[3,true]] ends anna's channel with "invalid tuple". *)
Lemma malformed_frames_are_fatal_witness :
  makeProtocol apple_orange_options = Normal apple_orange ∧
  destroyed anna = None ∧
  JSON_parse unknown_prefix_frame
  = Some (JArray [JNumber (of_nat 3); JBool true]) ∧
  validTuple apple_orange (JArray [JNumber (of_nat 3); JBool true]) = false ∧
  _parserStream_transform apple_orange unknown_prefix_frame anna
  = (Normal tt, set_destroyed (Some (new_Error "invalid tuple")) anna).
Proof.
  split; [exact apple_orange_made|].
  split; [reflexivity|].
  split; [vm_compute; reflexivity|].
  split; [vm_compute; reflexivity|].
  destruct (malformed_frames_are_fatal apple_orange_options apple_orange
              unknown_prefix_frame anna apple_orange_made eq_refl)
    as (_ & Htuple & _).
  apply (Htuple (JArray [JNumber (of_nat 3); JBool true]));
    vm_compute; reflexivity.
Defined.




(** bob's handshake three times over: one cipher, three events. *)
Lemma inbound_cipher_initialized_once_witness :
  reachable apple_orange anna ∧
  _receivingCipher anna = None ∧
  handshake_frame apple_orange bob_handshake = true ∧
  Forall (λ frame, handshake_frame apple_orange frame = true)
    [bob_handshake; bob_handshake] ∧
  _receivingCipher
    (receive_frames apple_orange
       [bob_handshake; bob_handshake; bob_handshake] anna)
  = Some (crypto_stream_xor_instance (frame_nonce bob_handshake) (_key anna)) ∧
  emitted
    (receive_frames apple_orange
       [bob_handshake; bob_handshake; bob_handshake] anna)
  = emitted anna ++ repeat handshake_event 3.
Proof.
  assert (Hframe : handshake_frame apple_orange bob_handshake = true)
    by (vm_compute; reflexivity).
  assert (Hframes : Forall (λ frame, handshake_frame apple_orange frame = true)
                      [bob_handshake; bob_handshake])
    by (repeat constructor; exact Hframe).
  split; [exact anna_reachable|]. split; [reflexivity|].
  split; [exact Hframe|]. split; [exact Hframes|].
  destruct (inbound_cipher_initialized_once apple_orange anna bob_handshake
              [bob_handshake; bob_handshake] anna_reachable eq_refl
              Hframe Hframes) as (_ & _ & Hcipher & _ & Hemitted & _).
  split; [exact Hcipher|exact Hemitted].
Defined.



(** A handshake of version 2 ends anna's channel. *)
Lemma version_mismatch_is_fatal_witness :
  makeProtocol apple_orange_options = Normal apple_orange ∧
  JSON_parse other_version_handshake
  = Some (JArray [JNumber (of_nat 0);
                  JObject [(js "version", JNumber (of_nat 2));
                           (js "nonce",
                            JString (Buffer_toString_hex bob_random))]]) ∧
  destroyed anna = None ∧
  _parserStream_transform apple_orange other_version_handshake anna
  = (Normal tt,
     set_destroyed (Some (version_mismatch (JNumber (of_nat 2)))) anna) ∧
  destroyed (_parserStream_transform apple_orange other_version_handshake
               anna).2
  = Some {| error_class_of := ErrorC; message := js "version mismatch";
            error_version := Some (JNumber (of_nat 2));
            error_errors := None |}.
Proof.
  assert (Hparse : JSON_parse other_version_handshake
                   = Some (JArray
                             [JNumber (of_nat 0);
                              JObject
                                [(js "version", JNumber (of_nat 2));
                                 (js "nonce",
                                  JString (Buffer_toString_hex bob_random))]]))
    by (vm_compute; reflexivity).
  split; [exact apple_orange_made|]. split; [exact Hparse|].
  split; [reflexivity|].
  assert (Hbody : validHandshake
                    (JObject
                       [(js "version", JNumber (of_nat 2));
                        (js "nonce",
                         JString (Buffer_toString_hex bob_random))])
                  = true) by (vm_compute; reflexivity).
  destruct (version_mismatch_is_fatal apple_orange_options apple_orange
              other_version_handshake _ _ anna apple_orange_made Hparse
              eq_refl Hbody eq_refl) as (_ & Hfatal & _).
  destruct (Hfatal eq_refl) as (Hstate & Hdestroyed & _).
  split; [exact Hstate|exact Hdestroyed].
Defined.

(** [finalize] after bob's handshake, and before it. *)
Lemma finalize_tears_down_once_witness :
  reachable apple_orange anna_received ∧
  (finalize None anna_received).1 = Normal tt ∧
  final_count Sending (finalize None anna_received).2 = 1 ∧
  final_count Receiving (finalize None anna_received).2 = 1 ∧
  _receivingCipher anna = None ∧
  (finalize None anna).1 = Throw (TypeError "Cannot read properties of null").
Proof.
  assert (Hreachable : reachable apple_orange anna_received).
  { exists key, anna_random, anna, [call_frame bob_handshake].
    split; reflexivity. }
  assert (Hreturns : (finalize None anna_received).1 = Normal tt)
    by (vm_compute; reflexivity).
  destruct (finalize_tears_down_once apple_orange)
    as (_ & _ & _ & Hthrows & _ & _ & Honce & _).
  split; [exact Hreachable|]. split; [exact Hreturns|].
  destruct (Honce anna_received Hreachable Hreturns) as (Hs & Hr & _).
  split; [exact Hs|]. split; [exact Hr|]. split; [reflexivity|].
  eapply Hthrows; reflexivity.
Defined.

(** The frame [[0,true]] is answered with an [invalid] event. *)
Lemma invalid_handshake_body_is_tolerated_witness :
  makeProtocol apple_orange_options = Normal apple_orange ∧
  JSON_parse (bytes "[0,true]") = Some (JArray [JNumber (of_nat 0); JBool true]) ∧
  validHandshake (JBool true) = false ∧
  _parserStream_transform apple_orange (bytes "[0,true]") anna
  = (Normal tt, add_emitted (invalid_event (JBool true)) anna).
Proof.
  assert (Hparse : JSON_parse (bytes "[0,true]")
                   = Some (JArray [JNumber (of_nat 0); JBool true]))
    by (vm_compute; reflexivity).
  split; [exact apple_orange_made|]. split; [exact Hparse|].
  split; [reflexivity|].
  assert (Htuple : validTuple apple_orange
                     (JArray [JNumber (of_nat 0); JBool true]) = true)
    by (vm_compute; reflexivity).
  destruct (invalid_handshake_body_is_tolerated apple_orange_options
              apple_orange (bytes "[0,true]") _ anna apple_orange_made Hparse
              Htuple eq_refl eq_refl) as (_ & Htolerated & _).
  exact Htolerated.
Defined.

(** The nonce of bob's handshake decodes to 24 bytes. *)
Lemma receiving_nonce_assertion_holds_witness :
  validHandshake
    (JObject [(js "version", JNumber (of_nat 1));
              (js "nonce", JString (Buffer_toString_hex bob_random))])
  = true ∧
  ∃ nonce,
    property_of
      (JObject [(js "version", JNumber (of_nat 1));
                (js "nonce", JString (Buffer_toString_hex bob_random))])
      "nonce" = JString nonce ∧
    (length (Buffer_from_hex nonce) =? STREAM_NONCEBYTES) = true.
Proof.
  assert (Hvalid : validHandshake
                     (JObject
                        [(js "version", JNumber (of_nat 1));
                         (js "nonce",
                          JString (Buffer_toString_hex bob_random))])
                   = true) by (vm_compute; reflexivity).
  split; [exact Hvalid|].
  destruct (receiving_nonce_assertion_holds _ Hvalid) as [Hnonce _].
  exact Hnonce.
Defined.

End Examples.

(** * Further properties *)

(** ** Hexadecimal text *)

Lemma byte_of_N_to_N x : byte_of_N (Byte.to_N x) = x.
Proof. unfold byte_of_N. rewrite Byte.of_to_N. reflexivity. Qed.

Lemma to_N_byte_of_N n : (n <= 255)%N → Byte.to_N (byte_of_N n) = n.
Proof.
  intros Hn. unfold byte_of_N.
  pose proof (Byte.to_of_N_option_map n) as Hmap.
  replace (N.leb n 255) with true in Hmap by (symmetry; apply N.leb_le, Hn).
  destruct (Byte.of_N n) as [y|]; simpl in *; congruence.
Qed.

Lemma hex_value_hex_digit n : (n < 16)%N → hex_value (hex_digit n) = Some n.
Proof.
  intros Hn. unfold hex_digit, hex_value.
  destruct (N.ltb_spec n 10).
  - replace ((48 <=? 48 + n)%N && (48 + n <=? 57)%N) with true
      by (symmetry; apply andb_true_iff; split; apply N.leb_le; lia).
    f_equal. lia.
  - replace ((48 <=? 87 + n)%N && (87 + n <=? 57)%N) with false
      by (symmetry; apply andb_false_iff; right; apply N.leb_gt; lia).
    replace ((97 <=? 87 + n)%N && (87 + n <=? 102)%N) with true
      by (symmetry; apply andb_true_iff; split; apply N.leb_le; lia).
    f_equal. lia.
Qed.

Lemma lower_hex_hex_digit n : (n < 16)%N → lower_hex (hex_digit n) = true.
Proof.
  intros Hn. unfold hex_digit, lower_hex.
  destruct (N.ltb_spec n 10); apply orb_true_iff.
  - right. apply andb_true_iff. split; apply N.leb_le; lia.
  - left. apply andb_true_iff. split; apply N.leb_le; lia.
Qed.

Lemma byte_halves x :
  (Byte.to_N x / 16 < 16)%N ∧ (Byte.to_N x mod 16 < 16)%N ∧
  (16 * (Byte.to_N x / 16) + Byte.to_N x mod 16)%N = Byte.to_N x.
Proof.
  pose proof (Byte.to_N_bounded x) as Hx.
  split; [apply N.Div0.div_lt_upper_bound; lia|].
  split; [apply N.mod_lt; lia|].
  symmetry. apply N.div_mod. lia.
Qed.

Lemma Buffer_toString_hex_facts (b : buffer) :
  Buffer_from_hex (Buffer_toString_hex b) = b ∧
  length (Buffer_toString_hex b) = 2 * length b ∧
  matches_repeated lower_hex (length b * 2) (Buffer_toString_hex b) = true.
Proof.
  induction b as [|x b (IHround & IHlength & IHmatch)]; [auto|].
  destruct (byte_halves x) as (Hhi & Hlo & Hsum).
  cbn [Buffer_toString_hex Buffer_from_hex length].
  rewrite (hex_value_hex_digit _ Hhi), (hex_value_hex_digit _ Hlo).
  rewrite Hsum, byte_of_N_to_N, IHround, IHlength.
  split; [reflexivity|]. split; [lia|].
  simpl. rewrite (lower_hex_hex_digit _ Hhi), (lower_hex_hex_digit _ Hlo).
  exact IHmatch.
Qed.

(** X1. What [toString('hex')] writes of a buffer, [Buffer.from(.., 'hex')]
    reads back as the same buffer; the text has two characters for each
    byte, all of them lower-case hexadecimal digits, so that it is matched
    by the pattern of the handshake schema for a buffer of that length. *)
Theorem hex_round_trip (b : buffer) :
  Buffer_from_hex (Buffer_toString_hex b) = b ∧
  length (Buffer_toString_hex b) = 2 * length b ∧
  matches_repeated lower_hex (length b * 2) (Buffer_toString_hex b) = true.
Proof. apply Buffer_toString_hex_facts. Qed.

(** ** The key stream *)

Lemma N_lxor_byte a b : (a <= 255)%N → (b <= 255)%N → (N.lxor a b <= 255)%N.
Proof.
  intros Ha Hb.
  destruct (N.eq_dec (N.lxor a b) 0%N) as [->|Hne]; [lia|].
  assert (Hlog : ∀ n, (n <= 255)%N → (N.log2 n < 8)%N).
  { intros n Hn. destruct (N.eq_dec n 0%N) as [->|Hn0]; [reflexivity|].
    apply N.log2_lt_pow2; [lia|]. change (2 ^ 8)%N with 256%N. lia. }
  pose proof (N.log2_lxor a b) as Hxor.
  pose proof (Hlog a Ha). pose proof (Hlog b Hb).
  assert (N.lxor a b < 2 ^ 8)%N as Hlt.
  { apply N.log2_lt_pow2; lia. }
  change (2 ^ 8)%N with 256%N in Hlt. lia.
Qed.

(** Adding the same byte of key stream twice gives the byte back. *)
Lemma byte_xor_involutive x k : byte_xor (byte_xor x k) k = x.
Proof.
  unfold byte_xor.
  rewrite to_N_byte_of_N
    by (apply N_lxor_byte; apply Byte.to_N_bounded).
  rewrite N.lxor_assoc, N.lxor_nilpotent, N.lxor_0_r.
  apply byte_of_N_to_N.
Qed.

Section KeyStream.
Context `{Sodium}.

Lemma length_stream_xor nonce secretKey chunk :
  ∀ offset, length (stream_xor nonce secretKey offset chunk) = length chunk.
Proof.
  induction chunk as [|b rest IH]; intros offset; simpl; [reflexivity|].
  rewrite IH. reflexivity.
Qed.

Lemma stream_xor_involutive nonce secretKey chunk :
  ∀ offset,
    stream_xor nonce secretKey offset (stream_xor nonce secretKey offset chunk)
    = chunk.
Proof.
  induction chunk as [|b rest IH]; intros offset; simpl; [reflexivity|].
  rewrite byte_xor_involutive, IH. reflexivity.
Qed.

Lemma cipher_update_twice c chunk :
  cipher_update c (cipher_update c chunk).2 = ((cipher_update c chunk).1, chunk).
Proof.
  unfold cipher_update. simpl.
  rewrite stream_xor_involutive, length_stream_xor. reflexivity.
Qed.

Lemma update_chunks_twice chunks :
  ∀ c, update_chunks c (update_chunks c chunks).2
       = ((update_chunks c chunks).1, chunks).
Proof.
  induction chunks as [|chunk rest IH]; intros c; [reflexivity|].
  cbn [update_chunks fst snd].
  rewrite cipher_update_twice. cbn [fst snd]. rewrite IH. reflexivity.
Qed.

(** X2. Two cipher instances in the same state, one encrypting and one
    decrypting: what the first makes of a list of chunks the second turns
    back into those chunks, and after it the two are in the same state
    again, so the same holds for whatever is sent next. *)
Theorem cipher_round_trip (c : cipher) (chunks : list buffer) :
  (update_chunks c (update_chunks c chunks).2).2 = chunks ∧
  (update_chunks c (update_chunks c chunks).2).1 = (update_chunks c chunks).1 ∧
  ∀ chunk, (cipher_update c (cipher_update c chunk).2).2 = chunk.
Proof.
  rewrite update_chunks_twice. split; [reflexivity|]. split; [reflexivity|].
  intros chunk. rewrite cipher_update_twice. reflexivity.
Qed.

End KeyStream.

(** ** The factory's checks *)

Lemma length_Object_keys m : length (Object_keys m) = size m.
Proof. unfold Object_keys. rewrite length_fmap. apply length_map_to_list. Qed.

Lemma length_sort names : length (sort names) = length names.
Proof. apply Permutation_length, sort_Permutation. Qed.

(** What the loop's body does with one name. *)
Lemma register_message_cases msgs n index tables entry :
  msgs !! n = Some entry →
  match entry_error entry with
  | Some e => register_message msgs n index tables = Throw e
  | None => ∃ T, register_message msgs n index tables = Normal T
  end.
Proof.
  unfold register_message, entry_error. intros ->.
  destruct entry as [|mo]; [reflexivity|].
  destruct (schema mo) as [[valid|e]|]; [| |reflexivity];
    destruct (options_verify mo); simpl; eauto.
Qed.

Lemma forEach_accepted msgs names :
  ∀ index tables T,
    forEach msgs names index tables = Normal T →
    ∀ n, n ∈ names →
         ∃ entry, msgs !! n = Some entry ∧ entry_error entry = None.
Proof.
  induction names as [|m names IH]; intros index tables T; simpl.
  - intros _ n Hn. inversion Hn.
  - unfold mbind, completion_bind.
    destruct (register_message msgs m index tables) as [tables'|e] eqn:Hreg;
      [|discriminate].
    intros Hrest n Hn. apply elem_of_cons in Hn as [->|Hn].
    + destruct (msgs !! m) as [entry|] eqn:Hm.
      * pose proof (register_message_cases msgs m index tables entry Hm)
          as Hcases.
        exists entry. split; [reflexivity|].
        destruct (entry_error entry); [congruence|reflexivity].
      * unfold register_message in Hreg. rewrite Hm in Hreg. discriminate.
    + eapply IH; eassumption.
Qed.

Lemma forEach_is_Normal msgs names :
  (∀ n, n ∈ names →
        ∃ entry, msgs !! n = Some entry ∧ entry_error entry = None) →
  ∀ index tables, ∃ T, forEach msgs names index tables = Normal T.
Proof.
  induction names as [|m names IH]; intros Hall index tables; simpl; [eauto|].
  unfold mbind, completion_bind.
  destruct (Hall m) as (entry & Hm & Hok); [left|].
  pose proof (register_message_cases msgs m index tables entry Hm) as Hcases.
  rewrite Hok in Hcases. destruct Hcases as [T ->].
  apply IH. intros n Hn. apply Hall. right. exact Hn.
Qed.

(** The loop stops at the first name whose entry it does not let through,
    with that entry's error. *)
Lemma forEach_first_error msgs names :
  ∀ index tables i n entry e,
    names !! i = Some n → msgs !! n = Some entry →
    entry_error entry = Some e →
    (∀ j m, j < i → names !! j = Some m →
            ∃ entry', msgs !! m = Some entry' ∧ entry_error entry' = None) →
    forEach msgs names index tables = Throw e.
Proof.
  induction names as [|m names IH]; intros index tables i n entry e;
    [discriminate|].
  destruct i as [|i]; simpl; unfold mbind, completion_bind.
  - intros [= ->] Hn He _.
    pose proof (register_message_cases msgs n index tables entry Hn) as Hcases.
    rewrite He in Hcases. rewrite Hcases. reflexivity.
  - intros Hi Hn He Hbefore.
    destruct (Hbefore 0 m) as (entry' & Hm & Hok); [lia|reflexivity|].
    pose proof (register_message_cases msgs m index tables entry' Hm)
      as Hcases.
    rewrite Hok in Hcases. destruct Hcases as [T ->].
    apply (IH _ _ i n entry e Hi Hn He).
    intros j m' Hj Hm'. apply (Hbefore (S j) m'); [lia|exact Hm'].
Qed.

Lemma forEach_Throw msgs names :
  (∀ n, n ∈ names → is_Some (msgs !! n)) →
  ∀ index tables e,
    forEach msgs names index tables = Throw e →
    ∃ n entry, n ∈ names ∧ msgs !! n = Some entry
               ∧ entry_error entry = Some e.
Proof.
  induction names as [|m names IH]; intros Hall index tables e; simpl;
    [discriminate|].
  unfold mbind, completion_bind.
  destruct (Hall m) as [entry Hm]; [left|].
  pose proof (register_message_cases msgs m index tables entry Hm) as Hcases.
  destruct (register_message msgs m index tables) as [tables'|e'] eqn:Hreg.
  - intros Hrest.
    destruct (IH (λ n Hn, Hall n (proj2 (elem_of_cons _ _ _) (or_intror Hn)))
                _ _ _ Hrest) as (n & entry' & Hn & Hentry & He).
    exists n, entry'. split; [right; exact Hn|auto].
  - intros [= ->]. exists m, entry. split; [left|]. split; [exact Hm|].
    destruct (entry_error entry) as [e''|]; [congruence|].
    destruct Hcases as [T [=]].
Qed.

(** The class of the error an entry is turned down with. *)
Lemma entry_error_class entry e :
  entry_error entry = Some e →
  error_class_of e = AssertionErrorC
  ∨ (error_class_of e = TypeErrorC ∧ entry = entry_null)
  ∨ ∃ mo, entry = entry_object mo ∧ schema mo = Some (Throw e).
Proof.
  unfold entry_error. destruct entry as [|mo].
  - intros [= <-]. right. left. auto.
  - destruct (schema mo) as [[valid|e']|] eqn:Hschema;
      destruct (options_verify mo); intros [= <-]; eauto.
Qed.

(** X3. Called with an object, the factory returns a protocol exactly when
    the version is a number, positive and a safe integer, [messages] is an
    object that has at least one property, and every property of it is an
    object with a schema that [ajv.compile] takes and, if it has a
    [verify], one that is a function.  The protocol then carries that
    version.  When the version and the [messages] object pass, the factory
    throws the error of the first name, in the order of the code units,
    whose entry it does not let through.  Whatever it throws is an
    assertion's error, or a [TypeError] for a [messages] or an entry that is
    [null], or the error [ajv.compile] has thrown for an entry's schema.
    Called with anything that is no object it throws an assertion's error,
    or a [TypeError] for [null]. *)
Theorem factory_accepts options :
  ((∃ P, makeProtocol options = Normal P) ↔
   (∃ n, options_version options = JNumber n ∧
         number_is_positive n = true ∧ Number_isSafeInteger n = true) ∧
   (∃ entries, options_messages options = messages_object entries ∧
               entries ≠ ∅ ∧
               ∀ n entry, entries !! n = Some entry →
                          entry_error entry = None)) ∧
  (∀ P, makeProtocol options = Normal P →
        options_version options = JNumber (version P)) ∧
  (∀ v entries i n entry e,
     options_version options = JNumber v →
     number_is_positive v = true → Number_isSafeInteger v = true →
     options_messages options = messages_object entries →
     sort (Object_keys entries) !! i = Some n →
     entries !! n = Some entry → entry_error entry = Some e →
     (∀ j m entry', j < i → sort (Object_keys entries) !! j = Some m →
                    entries !! m = Some entry' → entry_error entry' = None) →
     makeProtocol options = Throw e) ∧
  (∀ e, makeProtocol options = Throw e →
        error_class_of e = AssertionErrorC
        ∨ (error_class_of e = TypeErrorC
           ∧ (options_messages options = messages_null
              ∨ ∃ n, messages options !! n = Some entry_null))
        ∨ ∃ n mo, messages options !! n = Some (entry_object mo)
                  ∧ schema mo = Some (Throw e)) ∧
  (∀ argument P,
     module_exports argument = Normal P
     ↔ ∃ o, argument = argument_object o ∧ makeProtocol o = Normal P) ∧
  (∀ argument,
     (∀ o, argument ≠ argument_object o) →
     ∃ e, module_exports argument = Throw e ∧
          (error_class_of e = AssertionErrorC
           ∨ error_class_of e = TypeErrorC ∧ argument = argument_null)).
Proof.
  assert (Hkeys : ∀ entries n, n ∈ sort (Object_keys entries)
                               ↔ is_Some (entries !! n)).
  { intros entries n. rewrite sort_Permutation. apply elem_of_Object_keys. }
  assert (Hempty : ∀ entries, (length (Object_keys entries) =? 0) = true
                              ↔ entries = ∅).
  { intros entries.
    rewrite Nat.eqb_eq, length_Object_keys. apply map_size_empty_iff. }
  split; [|split; [|split; [|split; [|split]]]]; cycle 4.
  { intros [| |o] P; simpl; split.
    - discriminate.
    - intros (o' & Heq & _). discriminate.
    - discriminate.
    - intros (o' & Heq & _). discriminate.
    - eauto.
    - intros (o' & Heq & HP). injection Heq as <-. exact HP. }
  { intros [| |o] Hnot; simpl; [eauto|eauto|].
    destruct (Hnot o). reflexivity. }
  - unfold makeProtocol. split.
    + intros [P HP].
      destruct (options_version options) as [| | |n| | |]; try discriminate.
      unfold mbind, completion_bind, assert_ in HP.
      destruct (number_is_positive n) eqn:Hpos; [|discriminate].
      destruct (Number_isSafeInteger n) eqn:Hsafe; [|discriminate].
      destruct (options_messages options) as [| |entries]; try discriminate.
      destruct (length (Object_keys entries) =? 0) eqn:Hlength;
        [discriminate|]. simpl in HP.
      split; [exists n; auto|]. exists entries. split; [reflexivity|].
      split.
      { intros Hnone. apply Hempty in Hnone. congruence. }
      intros m entry Hm.
      destruct (forEach_accepted _ _ _ _ _ HP m) as (entry' & Hm' & Hok).
      { apply Hkeys. eauto. }
      congruence.
    + intros ((n & -> & Hpos & Hsafe) & entries & -> & Hne & Hall).
      unfold mbind, completion_bind, assert_. rewrite Hpos, Hsafe.
      destruct (length (Object_keys entries) =? 0) eqn:Hlength.
      { apply Hempty in Hlength. contradiction. }
      simpl. apply forEach_is_Normal.
      intros m Hm. apply Hkeys in Hm as [entry Hm]. eauto.
  - intros P. unfold makeProtocol.
    destruct (options_version options) as [| | |n| | |]; try discriminate.
    unfold mbind, completion_bind, assert_.
    destruct (number_is_positive n); [|discriminate].
    destruct (Number_isSafeInteger n); [|discriminate].
    destruct (options_messages options) as [| |entries]; try discriminate.
    destruct (negb _); [|discriminate].
    intros HP.
    destruct (forEach_Normal _ _ (sort_keys_NoDup _) _ _ _ HP) as (-> & _).
    reflexivity.
  - intros v entries i n entry e Hv Hpos Hsafe Hentries Hi Hn He Hbefore.
    unfold makeProtocol. rewrite Hv, Hentries.
    unfold mbind, completion_bind, assert_. rewrite Hpos, Hsafe.
    destruct (length (Object_keys entries) =? 0) eqn:Hlength.
    { apply Hempty in Hlength. subst entries. rewrite lookup_empty in Hn.
      discriminate. }
    simpl. apply (forEach_first_error _ _ _ _ i n entry e Hi Hn He).
    intros j m Hj Hm.
    destruct (proj1 (Hkeys entries m)) as [entry' Hm'].
    { apply list_elem_of_lookup. eauto. }
    exists entry'. split; [exact Hm'|]. eapply Hbefore; eassumption.
  - intros e. unfold makeProtocol, messages.
    destruct (options_version options) as [| | |n| | |];
      try (intros [= <-]; left; reflexivity).
    unfold mbind, completion_bind, assert_.
    destruct (number_is_positive n); [|intros [= <-]; left; reflexivity].
    destruct (Number_isSafeInteger n); [|intros [= <-]; left; reflexivity].
    destruct (options_messages options) as [| |entries].
    + intros [= <-]. left. reflexivity.
    + intros [= <-]. right. left. auto.
    + destruct (negb _); [|intros [= <-]; left; reflexivity].
      intros Hthrow.
      destruct (forEach_Throw entries (sort (Object_keys entries))
                  (λ n Hn, proj1 (Hkeys entries n) Hn) _ _ _ Hthrow)
        as (m & entry & _ & Hm & He).
      destruct (entry_error_class entry e He)
        as [Hclass|[[Hclass ->]|(mo & -> & Hschema)]]; eauto 8.
Qed.

(** X4. In a protocol the factory has made the two tables hold the same
    types: the type found under a name is the one found under its prefix,
    and the other way round; the names are those declared; the prefixes in
    use are the numbers from 1 to the number of messages, and the tuple
    schema's list of prefixes is those and 0. *)
Theorem tables_agree options P :
  makeProtocol options = Normal P →
  (∀ n type, messageTypesByName P !! n = Some type →
             messageTypesByPrefix P !! prefix type = Some type ∧
             name type = n) ∧
  (∀ p type, messageTypesByPrefix P !! p = Some type →
             messageTypesByName P !! name type = Some type ∧
             prefix type = p) ∧
  (∀ n, is_Some (messageTypesByName P !! n)
        ↔ is_Some (messages options !! n)) ∧
  (∀ p, is_Some (messageTypesByPrefix P !! p)
        ↔ 1 ≤ p ≤ size (messages options)) ∧
  messageTypePrefixes P = seq 0 (S (size (messages options))).
Proof.
  intros Hmake.
  destruct (makeProtocol_Normal _ _ Hmake) as (Hp & Hzero & Hout & Hfar & Hin).
  set (names := sort (Object_keys (messages options))) in *.
  assert (Hlength : length names = size (messages options)).
  { unfold names. rewrite length_sort. apply length_Object_keys. }
  assert (Hnames : ∀ n, n ∈ names ↔ is_Some (messages options !! n)).
  { intros n. unfold names. rewrite sort_Permutation.
    apply elem_of_Object_keys. }
  assert (Hprefix : ∀ p type, messageTypesByPrefix P !! p = Some type →
            ∃ i n, names !! i = Some n ∧ p = i + 1 ∧
                   messageTypesByName P !! n = Some type ∧
                   name type = n ∧ prefix type = i + 1).
  { intros p type Htype. destruct p as [|i]; [congruence|].
    destruct (decide (i < length names)) as [Hlt|Hge].
    - destruct (lookup_lt_is_Some_2 names i Hlt) as [n Hn].
      destruct (Hin i n Hn) as (t & Hbn & Hbp & Hname & Hpre & _).
      replace (i + 1) with (S i) in * by lia.
      assert (t = type) as -> by congruence.
      exists i, n. replace (i + 1) with (S i) by lia. auto.
    - rewrite Hfar in Htype by lia. discriminate. }
  split.
  { intros n type Hn. destruct (decide (n ∈ names)) as [Hel|Hnel].
    - apply list_elem_of_lookup in Hel as [i Hi].
      destruct (Hin i n Hi) as (t & Hbn & Hbp & Hname & Hpre & _).
      assert (t = type) as -> by congruence.
      rewrite Hpre. auto.
    - rewrite Hout in Hn by assumption. discriminate. }
  split.
  { intros p type Htype.
    destruct (Hprefix p type Htype) as (i & n & _ & -> & Hbn & <- & Hpre).
    auto. }
  split.
  { intros n. rewrite <- Hnames. split.
    - intros [type Hn]. destruct (decide (n ∈ names)) as [Hel|Hnel]; [auto|].
      rewrite Hout in Hn by assumption. discriminate.
    - intros Hel. apply list_elem_of_lookup in Hel as [i Hi].
      destruct (Hin i n Hi) as (t & Hbn & _). eauto. }
  split.
  { intros p. rewrite <- Hlength. split.
    - intros [type Htype].
      destruct (Hprefix p type Htype) as (i & n & Hi & -> & _).
      apply lookup_lt_Some in Hi. lia.
    - intros [Hlow Hhigh].
      destruct (lookup_lt_is_Some_2 names (p - 1)) as [n Hn]; [lia|].
      destruct (Hin (p - 1) n Hn) as (t & _ & Hbp & _).
      replace (p - 1 + 1) with p in Hbp by lia. eauto. }
  rewrite Hp, Hlength. reflexivity.
Qed.

(** ** Frames and their outcomes *)

Lemma strict_equals_distinct v a b :
  strict_equals v (of_nat a) = true → a ≠ b →
  strict_equals v (of_nat b) = false.
Proof.
  intros Ha Hab. destruct (strict_equals_of_nat v a Ha) as (q & -> & Hq).
  cbn [strict_equals]. unfold number_eqb, of_nat, Qeq_bool, inject_Z. simpl.
  rewrite Hq. apply Z.eqb_neq. nia.
Qed.

Lemma makeProtocol_type options P n type :
  makeProtocol options = Normal P →
  messageTypesByName P !! n = Some type →
  messageTypesByPrefix P !! prefix type = Some type ∧
  name type = n ∧ prefix type ≠ 0.
Proof.
  intros Hmake Hn.
  destruct (makeProtocol_Normal _ _ Hmake) as (_ & _ & Hout & _ & Hin).
  destruct (decide (n ∈ sort (Object_keys (messages options)))) as [Hel|Hnel].
  - apply list_elem_of_lookup in Hel as [i Hi].
    destruct (Hin i n Hi) as (t & Hbn & Hbp & Hname & Hpre & _).
    assert (t = type) as -> by congruence.
    rewrite Hpre. split; [exact Hbp|]. split; [exact Hname|lia].
  - rewrite Hout in Hn by assumption. discriminate.
Qed.

Section Outcomes.
Context `{Sodium} `{Framing} `{Json}.

(** X5. A frame that is a tuple of the prefix of a declared message type
    and a body that the type's schema and its verify hook accept: the
    parser emits the event named after the type with that body, calls back
    without an error, and changes nothing else; the channel stays as live
    as it was. *)
Theorem declared_message_is_delivered options P n type tag body message s :
  makeProtocol options = Normal P →
  messageTypesByName P !! n = Some type →
  JSON_parse message = Some (JArray [tag; body]) →
  strict_equals tag (of_nat (prefix type)) = true →
  accepts (valid type) body = true →
  verify type body = true →
  _parse P message s = (Normal None, add_emitted (message_event n body) s) ∧
  _parserStream_transform P message s
  = (Normal tt, add_emitted (message_event n body) s).
Proof.
  intros Hmake Hn Hparse Htag Hvalid Hverify.
  destruct (makeProtocol_type _ _ _ _ Hmake Hn) as (Hp & Hname & Hnonzero).
  assert (Hresult : _parse P message s
                    = (Normal None, add_emitted (message_event n body) s)).
  { unfold _parse. rewrite Hparse.
    assert (Htuple : validTuple P (JArray [tag; body]) = true).
    { unfold validTuple.
      destruct (strict_equals_of_nat _ _ Htag) as (q & -> & _).
      rewrite andb_true_r. apply existsb_prefix. exists (prefix type).
      split; [|exact Htag].
      apply (makeProtocol_prefixes _ _ Hmake). right. eauto. }
    rewrite Htuple. cbn [negb get_index lookup list_lookup default].
    cbn.
    rewrite (strict_equals_distinct tag _ 0 Htag Hnonzero).
    cbn [andb].
    rewrite (type_with_prefix_of_nat P tag _ Htag), Hp, Hvalid, Hverify, Hname.
    reflexivity. }
  split; [exact Hresult|].
  apply _parserStream_transform_ok, Hresult.
Qed.

Lemma _parse_outcomes P message s :
  length (_key s) = STREAM_KEYBYTES →
  (∃ e, _parse P message s = (Normal (Some e), s) ∧
        (e = SyntaxError ∨ e = new_Error "invalid tuple"
         ∨ ∃ v, e = version_mismatch v)) ∨
  (∃ ev, _parse P message s = (Normal None, add_emitted ev s)) ∨
  (_receivingCipher s = None ∧
   ∃ nonce,
     _parse P message s
     = (Normal None,
        add_emitted handshake_event
          (set_receivingCipher
             (Some (crypto_stream_xor_instance nonce (_key s)))
             (set_receivingNonce (Some nonce) s)))).
Proof.
  intros Hs. unfold _parse.
  destruct (JSON_parse message) as [parsed|]; [|left; eauto].
  destruct (negb (validTuple P parsed)); [left; eauto|].
  destruct (strict_equals (get_index parsed 0) (of_nat 0)
            && validHandshake (get_index parsed 1)) eqn:Hhandshake.
  - destruct (negb _); [left; eauto 6|].
    apply andb_true_iff in Hhandshake as [_ Hbody].
    destruct (validHandshake_nonce _ Hbody) as (nonce & Hnonce & Hlength).
    unfold mbind, M_bind, this. simpl.
    destruct (_receivingCipher s) eqn:Hcipher.
    + right. left. eexists. reflexivity.
    + right. right. split; [reflexivity|]. exists (Buffer_from_hex nonce).
      rewrite Hnonce.
      unfold initializeCipher, assert, assign, emit, mbind, M_bind, mret,
        M_ret. simpl.
      rewrite Hlength, Hs, !Nat.eqb_refl. reflexivity.
  - right. left.
    destruct (type_with_prefix P (get_index parsed 0)) as [type|];
      [|eexists; reflexivity].
    destruct (negb _ || negb _); eexists; reflexivity.
Qed.

(** X6. On any instance, whatever the frame: [_parse] does not throw.
    Either it calls back with an error, which is the reader's, "invalid
    tuple" or "version mismatch", and the instance is as it was; or it calls
    back without one and has emitted exactly one event, changing nothing
    else, except that the first handshake also stores the nonce and the
    receiving cipher made from it. *)
Theorem every_frame_has_one_outcome P message s :
  reachable P s →
  (∃ e, _parse P message s = (Normal (Some e), s) ∧
        (e = SyntaxError ∨ e = new_Error "invalid tuple"
         ∨ ∃ v, e = version_mismatch v)) ∨
  (∃ ev, _parse P message s = (Normal None, add_emitted ev s)) ∨
  (_receivingCipher s = None ∧
   ∃ nonce,
     _parse P message s
     = (Normal None,
        add_emitted handshake_event
          (set_receivingCipher
             (Some (crypto_stream_xor_instance nonce (_key s)))
             (set_receivingNonce (Some nonce) s)))).
Proof. intros Hs. apply _parse_outcomes, (reachable_key P), Hs. Qed.

(** X7. The tuple schema bounds the length of the array from above only.
    An array of three or more items fails it, and so ends a live channel
    with "invalid tuple"; the empty array passes it, and the parser answers
    it with an [invalid] event whose body is [undefined], leaving the
    channel open; a value that is not an array fails it. *)
Theorem tuple_schema_arity P message s :
  (∀ items, validTuple P (JArray items) = true → length items ≤ 2) ∧
  (∀ items,
     JSON_parse message = Some (JArray items) → 3 ≤ length items →
     destroyed s = None →
     _parserStream_transform P message s
     = (Normal tt, set_destroyed (Some (new_Error "invalid tuple")) s) ∧
     destroyed (_parserStream_transform P message s).2
     = Some (new_Error "invalid tuple") ∧
     emitted (_parserStream_transform P message s).2 = emitted s) ∧
  (JSON_parse message = Some (JArray []) →
   _parserStream_transform P message s
   = (Normal tt, add_emitted (invalid_event JUndefined) s) ∧
   destroyed (_parserStream_transform P message s).2 = destroyed s) ∧
  (∀ v, (∀ items, v ≠ JArray items) → validTuple P v = false).
Proof.
  assert (Harity : ∀ items, validTuple P (JArray items) = true →
                            length items ≤ 2).
  { intros items. unfold validTuple. rewrite andb_true_iff.
    intros [_ Hle]. apply Nat.leb_le, Hle. }
  split; [exact Harity|]. split.
  { intros items Hparse Hlong Hlive.
    rewrite (_parserStream_transform_error P message
               (new_Error "invalid tuple") s); auto.
    apply (_parse_invalid_tuple P message _ s Hparse).
    destruct (validTuple P (JArray items)) eqn:Htuple; [|reflexivity].
    apply Harity in Htuple. lia. }
  split.
  { intros Hparse.
    rewrite (_parserStream_transform_ok P message s
               (add_emitted (invalid_event JUndefined) s)); auto.
    apply (_parse_invalid P message _ s Hparse); reflexivity. }
  intros v Hv. destruct v; try reflexivity. destruct (Hv items). reflexivity.
Qed.

End Outcomes.

(** ** What is sent and what arrives *)

Section Delivery.
Context `{Sodium} `{Framing} `{Json}.

(** What one call of [_sendMessage] does, case by case. *)
Lemma _sendMessage_outcomes P typeName data s :
  reachable P s →
  match messageTypesByName P !! typeName with
  | None =>
      _sendMessage P typeName data s
      = (Throw {| error_class_of := AssertionErrorC;
                  message := js "unknown message type: " ++ typeName;
                  error_version := None; error_errors := None |}, s)
  | Some type =>
      if accepts (valid type) data && verify type data then
        if encoder_ended s then
          _sendMessage P typeName data s
          = (Throw (new_Error "write after end"), s)
        else if _sentNonce s then
          ∃ c, _sendingCipher s = Some c ∧
               _sendMessage P typeName data s
               = (Normal NoReply,
                  add_nextTick sendMessage_given
                    (push_chunks
                       (update_chunks c
                          (lengthPrefixedStream_encode
                             (tuple_bytes (prefix type) data))).2
                       (set_sendingCipher
                          (Some (update_chunks c
                                   (lengthPrefixedStream_encode
                                      (tuple_bytes (prefix type) data))).1)
                          s)))
        else
          _sendMessage P typeName data s
          = (Normal NoReply,
             add_nextTick sendMessage_given
               (push_chunks
                  (lengthPrefixedStream_encode
                     (tuple_bytes (prefix type) data)) s))
      else
        _sendMessage P typeName data s
        = (Throw (invalid_error typeName (valid type data)), s)
  end.
Proof.
  intros Hs. unfold _sendMessage.
  destruct (messageTypesByName P !! typeName) as [type|]; [|reflexivity].
  destruct (accepts (valid type) data && verify type data); [|reflexivity].
  unfold _encode, mbind, M_bind. fold (tuple_bytes (prefix type) data).
  destruct (encoder_ended s) eqn:Hended.
  - rewrite _encoderStream_write_ended by assumption. reflexivity.
  - destruct (_sentNonce s) eqn:Hsent.
    + destruct (reachable_sendingCipher P s Hs Hended) as [c Hc].
      exists c. split; [exact Hc|].
      rewrite (_encoderStream_write_cipher _ _ s c) by assumption.
      reflexivity.
    + rewrite _encoderStream_write_clear by assumption. reflexivity.
Qed.

(** X8. For a protocol whose message names stay clear of what plain
    objects inherit, a call of [_sendMessage] on any instance ends in one of
    five ways and in no other.  For a name that is no message type it
    throws the assertion's error, for a payload the schema or the hook
    rejects the error "invalid <name>", and for a valid payload on an ended
    encoder the error of the write; all three leave the instance as it was,
    and the callback is never called.  Otherwise the call returns without
    having called the callback, which is left with the encoder, and the
    chunks of exactly one frame, the bytes of [[prefix, data]], are pushed:
    as they are while the flag is unset, through the sending cipher once it
    is set.  The tick on which the callback is the oldest function kept
    calls it without an error and changes nothing else.  No call emits an
    event, destroys the channel or sets the flag. *)
Theorem every_send_has_one_outcome P typeName data s :
  plain_names P →
  reachable P s →
  match messageTypesByName P !! typeName with
  | None =>
      _sendMessage P typeName data s
      = (Throw {| error_class_of := AssertionErrorC;
                  message := js "unknown message type: " ++ typeName;
                  error_version := None; error_errors := None |}, s)
  | Some type =>
      if accepts (valid type) data && verify type data then
        if encoder_ended s then
          _sendMessage P typeName data s
          = (Throw (new_Error "write after end"), s)
        else if _sentNonce s then
          ∃ c, _sendingCipher s = Some c ∧
               (_sendMessage P typeName data s).1 = Normal NoReply ∧
               pushed (_sendMessage P typeName data s).2
               = pushed s
                 ++ (update_chunks c
                       (lengthPrefixedStream_encode
                          (Buffer_from_utf8
                             (JSON_stringify
                                (JArray [JNumber (of_nat (prefix type));
                                         data]))))).2 ∧
               nextTick (_sendMessage P typeName data s).2
               = nextTick s ++ [sendMessage_given]
        else
          (_sendMessage P typeName data s).1 = Normal NoReply ∧
          pushed (_sendMessage P typeName data s).2
          = pushed s
            ++ lengthPrefixedStream_encode
                 (Buffer_from_utf8
                    (JSON_stringify
                       (JArray [JNumber (of_nat (prefix type)); data]))) ∧
          nextTick (_sendMessage P typeName data s).2
          = nextTick s ++ [sendMessage_given]
      else
        _sendMessage P typeName data s
        = (Throw (invalid_error typeName (valid type data)), s)
  end ∧
  (∀ rest, nextTick s = sendMessage_given :: rest →
           tick s
           = (Normal (Reply sendMessage_callback None), set_nextTick rest s)) ∧
  emitted (_sendMessage P typeName data s).2 = emitted s ∧
  destroyed (_sendMessage P typeName data s).2 = destroyed s ∧
  _sentNonce (_sendMessage P typeName data s).2 = _sentNonce s.
Proof.
  intros _ Hs. split; [|split].
  - pose proof (_sendMessage_outcomes P typeName data s Hs) as Hcases.
    destruct (messageTypesByName P !! typeName) as [type|]; [|exact Hcases].
    destruct (accepts (valid type) data && verify type data); [|exact Hcases].
    destruct (encoder_ended s); [exact Hcases|].
    destruct (_sentNonce s).
    + destruct Hcases as (c & Hc & ->). exists c.
      split; [exact Hc|]. split; [reflexivity|].
      unfold add_nextTick. cbn [snd]. simpl.
      rewrite pushed_push_chunks, nextTick_push_chunks. auto.
    + rewrite Hcases. split; [reflexivity|].
      unfold add_nextTick. cbn [snd]. simpl.
      rewrite pushed_push_chunks, nextTick_push_chunks. auto.
  - intros rest Hqueue. unfold tick, mbind, M_bind, this. simpl.
    rewrite Hqueue. reflexivity.
  - destruct (_sendMessage_wrote P typeName data s)
      as (_ & _ & _ & Hsent & _ & _ & _ & _ & Hemitted & Hdestroyed & _).
    auto.
Qed.

End Delivery.

(** ** The ciphers over a history *)

Lemma continues_refl c : continues c c.
Proof.
  destruct c as [c|]; simpl; [|exact I].
  split; [reflexivity|]. split; [reflexivity|lia].
Qed.

Lemma continues_trans c1 c2 c3 :
  continues c1 c2 → continues c2 c3 → continues c1 c3.
Proof.
  destruct c1, c2, c3; simpl; try tauto.
  intros (-> & -> & ?) (-> & -> & ?). split; [reflexivity|].
  split; [reflexivity|lia].
Qed.

Section CipherHistory.
Context `{Sodium} `{Framing} `{Json}.
Variable P : protocol.

Lemma _readableStream_transform_continues chunk s :
  continues (_sendingCipher s) (_sendingCipher (_readableStream_transform chunk s).2) ∧
  (_sentNonce s = false →
   _sendingCipher (_readableStream_transform chunk s).2 = _sendingCipher s).
Proof.
  unfold _readableStream_transform, mbind, M_bind, this. simpl.
  destruct (_sentNonce s); simpl.
  - split; [|discriminate].
    destruct (_sendingCipher s) as [c|] eqn:Hc; simpl; rewrite ?Hc; simpl; auto.
    split; [reflexivity|]. split; [reflexivity|lia].
  - split; [apply continues_refl|reflexivity].
Qed.

Lemma for_each_chunk_continues chunks :
  ∀ s,
    continues (_sendingCipher s)
      (_sendingCipher (for_each_chunk _readableStream_transform chunks s).2) ∧
    (_sentNonce s = false →
     _sendingCipher (for_each_chunk _readableStream_transform chunks s).2
     = _sendingCipher s).
Proof.
  induction chunks as [|chunk rest IH]; intros s; simpl.
  - split; [apply continues_refl|reflexivity].
  - unfold mbind, M_bind.
    destruct (_readableStream_transform_continues chunk s) as [Hstep Hclear].
    pose proof (_readableStream_transform_wrote chunk s)
      as (_ & _ & _ & Hsent & _).
    destruct (_readableStream_transform chunk s) as [[[]|e] s1]; simpl in *;
      [|auto].
    destruct (IH s1) as [Hrest Hclear'].
    split; [eapply continues_trans; eassumption|].
    intros Hflag. rewrite Hclear' by congruence. auto.
Qed.

Lemma _encoderStream_write_continues buffer k s :
  continues (_sendingCipher s)
    (_sendingCipher (_encoderStream_write buffer k s).2) ∧
  (_sentNonce s = false →
   _sendingCipher (_encoderStream_write buffer k s).2 = _sendingCipher s).
Proof.
  unfold _encoderStream_write, mbind, M_bind, this. simpl.
  destruct (encoder_ended s); simpl;
    [split; [apply continues_refl|reflexivity]|].
  pose proof (for_each_chunk_continues (lengthPrefixedStream_encode buffer) s)
    as Hchunks.
  destruct (for_each_chunk _ _ s) as [[[]|e] s']; exact Hchunks.
Qed.

Lemma _sendMessage_continues typeName data s :
  continues (_sendingCipher s) (_sendingCipher (_sendMessage P typeName data s).2) ∧
  (_sentNonce s = false →
   _sendingCipher (_sendMessage P typeName data s).2 = _sendingCipher s).
Proof.
  unfold _sendMessage.
  destruct (messageTypesByName P !! typeName) as [type|]; simpl;
    [|split; [apply continues_refl|reflexivity]].
  destruct (accepts (valid type) data && verify type data); simpl;
    [|split; [apply continues_refl|reflexivity]].
  unfold _encode, mbind, M_bind.
  pose proof (_encoderStream_write_continues
                (Buffer_from_utf8
                   (JSON_stringify
                      (JArray [JNumber (of_nat (prefix type)); data])))
                sendMessage_given s) as Hwrite.
  destruct (_encoderStream_write _ _ s) as [[[]|e] s']; exact Hwrite.
Qed.

Lemma handshake_continues s :
  continues (_sendingCipher s) (_sendingCipher (handshake P s).2) ∧
  (_sentNonce s = false →
   _sendingCipher (handshake P s).2 = _sendingCipher s).
Proof.
  unfold handshake, mbind, M_bind, this. simpl.
  destruct (_sentNonce s) eqn:Hsent; simpl;
    [split; [apply continues_refl|reflexivity]|].
  unfold _encode.
  match goal with
  | |- context [_encoderStream_write ?b ?k s] =>
      pose proof (_encoderStream_write_continues b k s) as Hwrite;
      destruct (_encoderStream_write b k s) as [[[]|e] s'];
      (split; [apply Hwrite|intros _; apply Hwrite, Hsent])
  end.
Qed.

(** With the other fields as they were, a sending cipher that continues
    the old one keeps the instance's ciphers fitting. *)
Lemma ciphers_fit_wrote s s' :
  wrote s s' →
  continues (_sendingCipher s) (_sendingCipher s') →
  (_sentNonce s = false → _sendingCipher s' = _sendingCipher s) →
  ciphers_fit s → ciphers_fit s'.
Proof.
  unfold wrote, ciphers_fit.
  intros (-> & -> & _ & -> & -> & -> & _) Hcontinues Hclear
    (Hkey & Hnonce & Hsending & Hreceiving).
  split; [exact Hkey|]. split; [exact Hnonce|]. split; [|exact Hreceiving].
  intros c' Hc'. rewrite Hc' in Hcontinues, Hclear.
  destruct (_sendingCipher s) as [c|]; simpl in Hcontinues; [|contradiction].
  destruct Hcontinues as (-> & -> & _).
  destruct (Hsending c eq_refl) as (Hn & Hk & Hoffset).
  split; [exact Hn|]. split; [exact Hk|].
  intros Hflag. specialize (Hclear Hflag). injection Hclear as ->. auto.
Qed.

Lemma perform_sendingNonce c s : _sendingNonce (perform P c s).2 = _sendingNonce s.
Proof.
  destruct c as [|typeName data|drain|chunk|message|]; simpl.
  - apply (handshake_wrote P s).
  - apply (_sendMessage_wrote P typeName data s).
  - apply (stable_bind (λ s', _sendingNonce s' = _sendingNonce s));
      [|intros ?; apply stable_ret|reflexivity].
    unfold finalize, destroy, _encoderStream_end.
    stable_steps ltac:(simpl; assumption).
  - apply (stable_bind (λ s', _sendingNonce s' = _sendingNonce s));
      [|intros ?; apply stable_ret|reflexivity].
    unfold _writableStream_transform.
    stable_steps ltac:(simpl; assumption).
  - apply (stable_bind (λ s', _sendingNonce s' = _sendingNonce s));
      [|intros ?; apply stable_ret|reflexivity].
    unfold _parserStream_transform, _parse, destroy, initializeCipher, emit.
    stable_steps ltac:(simpl; assumption).
  - assert (Hkeep : stable (λ s', _sendingNonce s' = _sendingNonce s) tick);
      [|apply Hkeep; reflexivity].
    unfold tick, call_continuation, handshake_after_write.
    stable_steps ltac:(simpl; assumption).
Qed.

Lemma perform_ciphers_fit c s : ciphers_fit s → ciphers_fit (perform P c s).2.
Proof.
  intros Hfit.
  destruct c as [|typeName data|drain|chunk|message|]; simpl.
  - destruct (handshake_continues s) as [Hcontinues Hclear].
    eapply ciphers_fit_wrote; eauto using handshake_wrote.
  - destruct (_sendMessage_continues typeName data s) as [Hcontinues Hclear].
    eapply ciphers_fit_wrote; eauto using _sendMessage_wrote.
  - unfold mbind, M_bind.
    destruct Hfit as (Hkey & Hnonce & Hsending & Hreceiving).
    destruct drain as [e|].
    + unfold finalize, destroy, mbind, M_bind, this, assign, mret, M_ret.
      simpl. destruct (destroyed s); simpl;
        exact (conj Hkey (conj Hnonce (conj Hsending Hreceiving))).
    + rewrite finalize_None.
      destruct (ended_fields finalize_given s)
        as (_ & Hk & Hn & Hcs & Hflag & Hrn & Hcr & _).
      destruct (_sendingCipher s) as [cs|] eqn:Hs; simpl.
      * destruct (_receivingCipher s) as [cr|] eqn:Hr; simpl;
          unfold ciphers_fit; simpl; rewrite Hk, Hn, ?Hcr, ?Hrn, ?Hr;
          (split; [exact Hkey|]); (split; [exact Hnonce|]);
          (split; [discriminate|]); intros c Hc; congruence.
      * unfold ciphers_fit. rewrite Hk, Hn, Hcs, Hcr, Hrn, Hflag.
        split; [exact Hkey|]. split; [exact Hnonce|].
        split; [intros c Hc; congruence|exact Hreceiving].
  - unfold mbind, M_bind.
    destruct Hfit as (Hkey & Hnonce & Hsending & Hreceiving).
    destruct (_receivingCipher s) as [cr|] eqn:Hcr.
    + rewrite (_writableStream_transform_cipher chunk s cr Hcr). simpl.
      split; [exact Hkey|]. split; [exact Hnonce|]. split; [exact Hsending|].
      simpl. intros c [= <-]. simpl. apply Hreceiving. reflexivity.
    + rewrite (_writableStream_transform_clear chunk s Hcr). simpl.
      split; [exact Hkey|]. split; [exact Hnonce|]. split; [exact Hsending|].
      simpl. rewrite Hcr. discriminate.
  - unfold _parserStream_transform, destroy, mbind, M_bind, this, assign,
      mret, M_ret.
    destruct Hfit as (Hkey & Hnonce & Hsending & Hreceiving).
    destruct (_parse_outcomes P message s Hkey)
      as [(e & -> & _)|[(ev & ->)|(Hnone & nonce & ->)]]; simpl.
    + destruct (destroyed s); simpl;
        exact (conj Hkey (conj Hnonce (conj Hsending Hreceiving))).
    + exact (conj Hkey (conj Hnonce (conj Hsending Hreceiving))).
    + split; [exact Hkey|]. split; [exact Hnonce|]. split; [exact Hsending|].
      simpl. intros c [= <-]. auto.
  - destruct Hfit as (Hkey & Hnonce & Hsending & Hreceiving).
    unfold tick, call_continuation, handshake_after_write, mbind, M_bind,
      this, assign, mret, M_ret.
    destruct (nextTick s) as [|[| |] rest]; simpl;
      try exact (conj Hkey (conj Hnonce (conj Hsending Hreceiving))).
    split; [exact Hkey|]. split; [exact Hnonce|]. split; [|exact Hreceiving].
    simpl. intros c Hc. destruct (Hsending c Hc) as (Hn & Hk & _).
    split; [exact Hn|]. split; [exact Hk|]. discriminate.
Qed.

Lemma reachable_ciphers_fit s : reachable P s → ciphers_fit s.
Proof.
  apply (reachable_invariant P ciphers_fit).
  - intros key random s0 Hnew.
    destruct (Protocol_Normal _ _ _ Hnew) as (Hkey & Hnonce & ->).
    split; [exact Hkey|]. split; [exact Hnonce|]. simpl.
    split; [intros c [= <-]; auto|discriminate].
  - apply perform_ciphers_fit.
Qed.

(** X9. Over every history of an instance made with a key and a drawn
    nonce: the key and the sending nonce stay what they were; the sending
    cipher, as long as it is there, is over that nonce and that key, and
    has used none of its key stream while [_sentNonce] is unset; the
    receiving cipher, when there is one, is over the same key and the nonce
    kept in [_receivingNonce]. *)
Theorem ciphers_follow_key_and_nonces key random s0 calls results s :
  Protocol key random = Normal s0 →
  run P calls s0 = (results, s) →
  _key s = key ∧ _sendingNonce s = random ∧
  (∀ c, _sendingCipher s = Some c →
        cipher_nonce c = random ∧ cipher_key c = key ∧
        (_sentNonce s = false → c = crypto_stream_xor_instance random key)) ∧
  (∀ c, _receivingCipher s = Some c →
        cipher_key c = key ∧ _receivingNonce s = Some (cipher_nonce c)).
Proof.
  intros Hnew Hrun.
  assert (Hs : s = (run P calls s0).2) by (rewrite Hrun; reflexivity).
  assert (Hfields : _key s = key ∧ _sendingNonce s = random).
  { rewrite Hs.
    apply (run_invariant P (λ s', _key s' = key ∧ _sendingNonce s' = random)).
    - intros c s' [Hk Hn]. rewrite perform_key, perform_sendingNonce. auto.
    - destruct (Protocol_Normal _ _ _ Hnew) as (_ & _ & ->). auto. }
  destruct Hfields as [Hkey Hnonce].
  destruct (reachable_ciphers_fit s) as (_ & _ & Hsending & Hreceiving).
  { exists key, random, s0, calls. auto. }
  rewrite Hkey, Hnonce in *.
  split; [reflexivity|]. split; [reflexivity|]. split; [|exact Hreceiving].
  intros c Hc. destruct (Hsending c Hc) as (Hn & Hk & Hoffset).
  split; [exact Hn|]. split; [exact Hk|].
  intros Hflag. specialize (Hoffset Hflag).
  destruct c as [n k o]. simpl in *. subst. reflexivity.
Qed.

End CipherHistory.

(** ** Two instances *)

Lemma makeProtocol_version options P :
  makeProtocol options = Normal P →
  number_is_positive (version P) = true ∧
  Number_isSafeInteger (version P) = true.
Proof.
  unfold makeProtocol. intros Hmake.
  destruct (options_version options) as [| | |n| | |]; try discriminate.
  unfold mbind, completion_bind, assert_ in Hmake.
  destruct (number_is_positive n) eqn:Hpos; [|discriminate].
  destruct (Number_isSafeInteger n) eqn:Hsafe; [|discriminate].
  destruct (options_messages options) as [| |entries]; try discriminate.
  destruct (negb _); [|discriminate].
  destruct (forEach_Normal _ _ (sort_keys_NoDup _) _ _ _ Hmake) as (-> & _).
  auto.
Qed.

(** A version the factory lets through passes the handshake schema and is
    equal to itself. *)
Lemma version_passes n :
  number_is_positive n = true → Number_isSafeInteger n = true →
  valid_version (JNumber n) = true ∧ number_eqb n n = true.
Proof.
  destruct n as [q| |]; simpl; try discriminate.
  intros Hpos Hsafe.
  split; [|apply Qeq_bool_iff; reflexivity].
  apply negb_true_iff in Hpos.
  apply andb_true_iff in Hsafe as [Hsafe _].
  apply andb_true_iff in Hsafe as [Hinteger _].
  rewrite Hinteger. simpl.
  unfold Q_is_integer in Hinteger. unfold Qle_bool in *. simpl in *.
  apply Z.eqb_eq in Hinteger. apply Z.leb_gt in Hpos. apply Z.leb_le.
  pose proof (Pos2Z.is_pos (Qden q)) as Hden.
  apply Z.mod_divide in Hinteger as [k Hk]; [|lia].
  rewrite Hk in *. assert (0 < k)%Z by nia. nia.
Qed.

Lemma handshake_body_passes `{Sodium} v nonce :
  valid_version (JNumber v) = true →
  length nonce = STREAM_NONCEBYTES →
  validHandshake
    (JObject [(js "version", JNumber v);
              (js "nonce", JString (Buffer_toString_hex nonce))]) = true.
Proof.
  intros Hversion Hlength.
  destruct (Buffer_toString_hex_facts nonce) as (_ & _ & Hmatch).
  rewrite Hlength in Hmatch.
  unfold validHandshake.
  change (get_property _ (js "version")) with (JNumber v).
  change (get_property _ (js "nonce"))
    with (JString (Buffer_toString_hex nonce)).
  rewrite Hversion. unfold valid_nonce. rewrite Hmatch. reflexivity.
Qed.

Section TwoInstances.
Context `{Sodium} `{Framing} `{Json}.

(** What an instance writes as its handshake is a handshake frame to any
    instance of the same protocol, and carries the writer's nonce. *)
Lemma handshake_message_frame options P a :
  makeProtocol options = Normal P →
  reachable P a →
  JSON_parse (handshake_message P a) = Some (handshake_tuple P a) →
  handshake_frame P (handshake_message P a) = true ∧
  frame_nonce (handshake_message P a) = _sendingNonce a.
Proof.
  intros Hmake Ha Hround.
  destruct (makeProtocol_version _ _ Hmake) as [Hpos Hsafe].
  destruct (version_passes _ Hpos Hsafe) as [Hversion Hself].
  destruct (reachable_ciphers_fit P a Ha) as (_ & Hlength & _).
  unfold handshake_frame, frame_nonce. rewrite Hround.
  unfold handshake_tuple.
  cbn [get_index lookup list_lookup default].
  cbn -[validTuple validHandshake property_of of_nat].
  split.
  - rewrite (validTuple_handshake options P) by (assumption || reflexivity).
    rewrite (handshake_body_passes _ _ Hversion Hlength).
    change (property_of _ "version") with (JNumber (version P)).
    cbn [strict_equals]. rewrite Hself, number_eqb_of_nat. reflexivity.
  - change (property_of _ "nonce")
      with (JString (Buffer_toString_hex (_sendingNonce a))).
    apply Buffer_toString_hex_facts.
Qed.

(** X10. Two instances of one protocol, on a host whose [JSON.parse] reads
    back the handshake tuple [JSON.stringify] wrote: what the first writes
    as its handshake is, for the second, a handshake frame of its own
    version carrying the first one's sending nonce.  Received before any
    other handshake it makes the second emit [handshake] and create its
    receiving cipher from that nonce and its own key; if the keys are the
    same, that cipher is in the very state the first one's sending cipher
    is in after its call of [handshake], and still is in after the tick
    that follows the call. *)
Theorem handshake_is_accepted_by_peer options P a b :
  makeProtocol options = Normal P →
  reachable P a → reachable P b →
  JSON_parse (handshake_message P a) = Some (handshake_tuple P a) →
  handshake_frame P (handshake_message P a) = true ∧
  frame_nonce (handshake_message P a) = _sendingNonce a ∧
  (_receivingCipher b = None →
   _parserStream_transform P (handshake_message P a) b
   = (Normal tt,
      add_emitted handshake_event
        (set_receivingCipher
           (Some (crypto_stream_xor_instance (_sendingNonce a) (_key b)))
           (set_receivingNonce (Some (_sendingNonce a)) b)))) ∧
  (_receivingCipher b = None → _key b = _key a →
   _sentNonce a = false → encoder_ended a = false →
   _receivingCipher (_parserStream_transform P (handshake_message P a) b).2
   = _sendingCipher (handshake P a).2 ∧
   _receivingCipher (_parserStream_transform P (handshake_message P a) b).2
   = _sendingCipher (tick (handshake P a).2).2).
Proof.
  intros Hmake Ha Hb Hround.
  destruct (handshake_message_frame _ _ _ Hmake Ha Hround) as [Hframe Hnonce].
  assert (Hreceived : _receivingCipher b = None →
            _parserStream_transform P (handshake_message P a) b
            = (Normal tt,
               add_emitted handshake_event
                 (set_receivingCipher
                    (Some (crypto_stream_xor_instance (_sendingNonce a)
                             (_key b)))
                    (set_receivingNonce (Some (_sendingNonce a)) b)))).
  { intros Hnone. rewrite <- Hnonce.
    apply _parserStream_transform_ok, _parse_handshake_first; try assumption.
    apply (reachable_key P), Hb. }
  split; [exact Hframe|]. split; [exact Hnonce|]. split; [exact Hreceived|].
  intros Hnone Hkeys Hclear Hopen.
  destruct (tick_keeps (handshake P a).2) as (_ & _ & -> & _).
  assert (Hsame : _receivingCipher
                    (_parserStream_transform P (handshake_message P a) b).2
                  = _sendingCipher (handshake P a).2); [|auto].
  rewrite (Hreceived Hnone), (handshake_first P a Hclear Hopen).
  unfold add_nextTick. cbn.
  destruct (push_chunks_fields
              (lengthPrefixedStream_encode (handshake_message P a)) a)
    as (_ & _ & -> & _).
  destruct (reachable_sendingCipher P a Ha Hopen) as [c Hc].
  destruct (reachable_ciphers_fit P a Ha) as (_ & _ & Hsending & _).
  destruct (Hsending c Hc) as (Hn & Hk & Hoffset).
  rewrite Hc, Hkeys. f_equal.
  destruct c as [n k o]. simpl in *. rewrite Hn, Hk, (Hoffset Hclear).
  reflexivity.
Qed.

(** X11. What one instance pushes to the transport for a buffer written to
    its encoder, its peer's [_writableStream] passes on to the frame
    decoder as the chunks the sender's framing made of the buffer: when
    neither side uses a cipher yet, and when the receiving cipher of the
    peer is in the state of the sender's sending cipher; in that case the
    two ciphers are in the same state again afterwards. *)
Theorem written_buffer_arrives buffer k a b :
  encoder_ended a = false →
  (_sentNonce a = false ∧ _receivingCipher b = None)
  ∨ (_sentNonce a = true ∧ is_Some (_sendingCipher a)
     ∧ _receivingCipher b = _sendingCipher a) →
  ∃ out b',
    (_encoderStream_write buffer k a).1 = Normal tt ∧
    pushed (_encoderStream_write buffer k a).2 = pushed a ++ out ∧
    for_each_chunk _writableStream_transform out b = (Normal tt, b') ∧
    decoded b' = decoded b ++ lengthPrefixedStream_encode buffer ∧
    (_sentNonce a = true →
     _receivingCipher b'
     = _sendingCipher (_encoderStream_write buffer k a).2).
Proof.
  intros Hopen [[Hclear Hnone]|(Hsent & [c Hc] & Hsync)].
  - exists (lengthPrefixedStream_encode buffer), 
      (pass_chunks (lengthPrefixedStream_encode buffer) b).
    rewrite (_encoderStream_write_clear buffer k a Hclear Hopen).
    unfold add_nextTick. cbn [fst snd].
    split; [reflexivity|]. split; [apply pushed_push_chunks|].
    split; [apply for_each_chunk_pass, Hnone|].
    split; [apply decoded_pass_chunks|congruence].
  - rewrite Hc in Hsync.
    set (chunks := lengthPrefixedStream_encode buffer).
    exists (update_chunks c chunks).2,
      (pass_chunks (update_chunks c (update_chunks c chunks).2).2
         (set_receivingCipher
            (Some (update_chunks c (update_chunks c chunks).2).1) b)).
    rewrite (_encoderStream_write_cipher buffer k a c Hsent Hc Hopen).
    fold chunks. unfold add_nextTick. cbn [fst snd].
    split; [reflexivity|].
    split; [simpl; rewrite pushed_push_chunks; reflexivity|].
    split; [apply for_each_chunk_decipher, Hsync|].
    rewrite update_chunks_twice. cbn [fst snd].
    destruct (decoded_pass_chunks chunks
                (set_receivingCipher (Some (update_chunks c chunks).1) b))
      as [-> ->].
    simpl.
    destruct (push_chunks_fields (update_chunks c chunks).2
                (set_sendingCipher (Some (update_chunks c chunks).1) a))
      as (_ & _ & -> & _).
    auto.
Qed.

(** X14. A frame written after the call of [handshake] and before its
    tick, arriving at a peer that has a receiving cipher, as it has once
    the handshake has come in: the writer pushes the chunks of the frame as
    they are and its sending cipher stays where it was, while the peer hands
    its decoder those chunks after [update], byte [i] with byte
    [offset + i] of its key stream added, and its receiving cipher moves on
    by their number; so the two ciphers are out of step from then on. *)
Theorem frame_before_tick_is_misread buffer k a b c :
  _sentNonce a = false → encoder_ended a = false →
  _receivingCipher b = Some c →
  pushed (_encoderStream_write buffer k a).2
  = pushed a ++ lengthPrefixedStream_encode buffer ∧
  _sendingCipher (_encoderStream_write buffer k a).2 = _sendingCipher a ∧
  decoded
    (for_each_chunk _writableStream_transform
       (lengthPrefixedStream_encode buffer) b).2
  = decoded b ++ (update_chunks c (lengthPrefixedStream_encode buffer)).2 ∧
  (∀ i x,
     concat (lengthPrefixedStream_encode buffer) !! i = Some x →
     concat (update_chunks c (lengthPrefixedStream_encode buffer)).2 !! i
     = Some (byte_xor x
               (crypto_stream (cipher_nonce c) (cipher_key c)
                  (cipher_offset c + N.of_nat i)))) ∧
  _receivingCipher
    (for_each_chunk _writableStream_transform
       (lengthPrefixedStream_encode buffer) b).2
  = Some {| cipher_nonce := cipher_nonce c; cipher_key := cipher_key c;
            cipher_offset :=
              cipher_offset c
              + N.of_nat (length (concat (lengthPrefixedStream_encode buffer)))
         |}.
Proof.
  intros Hclear Hopen Hc.
  set (chunks := lengthPrefixedStream_encode buffer).
  rewrite (_encoderStream_write_clear buffer k a Hclear Hopen).
  fold chunks. unfold add_nextTick. cbn [snd]. simpl.
  destruct (push_chunks_fields chunks a) as (_ & _ & -> & _).
  rewrite pushed_push_chunks.
  split; [reflexivity|]. split; [reflexivity|].
  rewrite (for_each_chunk_decipher chunks b c Hc). cbn [snd].
  destruct (decoded_pass_chunks (update_chunks c chunks).2
              (set_receivingCipher (Some (update_chunks c chunks).1) b))
    as [-> ->].
  destruct (update_chunks_concat chunks c) as [Hbytes Hstate].
  split; [reflexivity|]. split.
  - intros i x Hi. rewrite Hbytes. apply stream_xor_lookup, Hi.
  - simpl. rewrite Hstate. reflexivity.
Qed.

End TwoInstances.

(** ** After the encoder has ended *)

Section Ended.
Context `{Sodium} `{Framing} `{Json}.
Variable P : protocol.

Lemma perform_ended c s :
  encoder_ended s = true →
  encoder_ended (perform P c s).2 = true ∧ pushed (perform P c s).2 = pushed s.
Proof.
  intros Hended.
  destruct c as [|typeName data|drain|chunk|message|]; simpl.
  - destruct (_sentNonce s) eqn:Hsent.
    + rewrite handshake_already_sent by assumption.
      split; [exact Hended|reflexivity].
    + rewrite handshake_refused by assumption.
      split; [exact Hended|reflexivity].
  - unfold _sendMessage.
    destruct (messageTypesByName P !! typeName) as [type|];
      [|split; [exact Hended|reflexivity]].
    destruct (accepts (valid type) data && verify type data);
      [|split; [exact Hended|reflexivity]].
    unfold _encode, mbind, M_bind.
    rewrite _encoderStream_write_ended by assumption.
    split; [exact Hended|reflexivity].
  - apply (stable_bind
             (λ s', encoder_ended s' = true ∧ pushed s' = pushed s));
      [|intros ?; apply stable_ret|split; [exact Hended|reflexivity]].
    unfold finalize, destroy, _encoderStream_end.
    stable_steps ltac:(match goal with
                       | H : _ ∧ _ |- _ => destruct H
                       end; split; simpl; try assumption; reflexivity).
  - apply (stable_bind
             (λ s', encoder_ended s' = true ∧ pushed s' = pushed s));
      [|intros ?; apply stable_ret|split; [exact Hended|reflexivity]].
    unfold _writableStream_transform.
    stable_steps ltac:(match goal with
                       | H : _ ∧ _ |- _ => destruct H
                       end; split; simpl; try assumption; reflexivity).
  - apply (stable_bind
             (λ s', encoder_ended s' = true ∧ pushed s' = pushed s));
      [|intros ?; apply stable_ret|split; [exact Hended|reflexivity]].
    unfold _parserStream_transform, _parse, destroy, initializeCipher, emit.
    stable_steps ltac:(match goal with
                       | H : _ ∧ _ |- _ => destruct H
                       end; split; simpl; try assumption; reflexivity).
  - destruct (tick_keeps s) as (_ & _ & _ & _ & _ & -> & -> & _). auto.
Qed.

(** X12. A [finalize] whose drain succeeded ends the encoder, whether it
    then returns or throws; and once the encoder has ended no call of any
    kind pushes another byte to the transport: over every further history
    the pushed chunks stay what they were and the encoder stays ended. *)
Theorem nothing_is_pushed_after_the_end s calls :
  encoder_ended (finalize None s).2 = true ∧
  (encoder_ended s = true →
   encoder_ended (run P calls s).2 = true ∧
   pushed (run P calls s).2 = pushed s).
Proof.
  split.
  - rewrite finalize_None.
    destruct (ended_fields finalize_given s) as (Hended & _).
    destruct (_sendingCipher s); simpl; [|exact Hended].
    destruct (_receivingCipher s); exact Hended.
  - intros Hended.
    apply (run_invariant P
             (λ s', encoder_ended s' = true ∧ pushed s' = pushed s));
      [|auto].
    intros c s' [Hended' Hpushed].
    destruct (perform_ended c s' Hended') as [-> ->]. auto.
Qed.

End Ended.

(** ** Which call touches what *)

Section Separation.
Context `{Sodium} `{Framing} `{Json}.
Variable P : protocol.

(** X13. The two directions do not mix.  A chunk from the transport or a
    frame from the decoder never makes the instance push anything, end its
    encoder, or touch the sending cipher, the handshake flag or the
    functions the encoder keeps; a call of [handshake] or [_sendMessage]
    never emits an event, passes nothing to the decoder, and leaves the
    receiving cipher, its nonce and the channel's liveness alone.  In
    particular no frame is answered on the wire.  A tick touches neither
    direction: it pushes and passes on nothing, emits nothing and leaves
    both ciphers as they are. *)
Theorem directions_are_separate c s :
  ((∃ chunk, c = call_write chunk) ∨ (∃ message, c = call_frame message) →
   pushed (perform P c s).2 = pushed s ∧
   encoder_ended (perform P c s).2 = encoder_ended s ∧
   _sendingCipher (perform P c s).2 = _sendingCipher s ∧
   _sentNonce (perform P c s).2 = _sentNonce s ∧
   nextTick (perform P c s).2 = nextTick s) ∧
  (c = call_handshake ∨ (∃ typeName data, c = call_sendMessage typeName data) →
   emitted (perform P c s).2 = emitted s ∧
   decoded (perform P c s).2 = decoded s ∧
   _receivingCipher (perform P c s).2 = _receivingCipher s ∧
   _receivingNonce (perform P c s).2 = _receivingNonce s ∧
   destroyed (perform P c s).2 = destroyed s) ∧
  (c = call_tick →
   pushed (perform P c s).2 = pushed s ∧
   decoded (perform P c s).2 = decoded s ∧
   emitted (perform P c s).2 = emitted s ∧
   _sendingCipher (perform P c s).2 = _sendingCipher s ∧
   _receivingCipher (perform P c s).2 = _receivingCipher s ∧
   destroyed (perform P c s).2 = destroyed s).
Proof.
  split; [|split].
  - intros [[chunk ->]|[message ->]]; simpl.
    + apply (stable_bind
               (λ s', pushed s' = pushed s ∧
                      encoder_ended s' = encoder_ended s ∧
                      _sendingCipher s' = _sendingCipher s ∧
                      _sentNonce s' = _sentNonce s ∧
                      nextTick s' = nextTick s));
        [|intros ?; apply stable_ret|repeat split; reflexivity].
      unfold _writableStream_transform.
      stable_steps ltac:(simpl; assumption).
    + apply (stable_bind
               (λ s', pushed s' = pushed s ∧
                      encoder_ended s' = encoder_ended s ∧
                      _sendingCipher s' = _sendingCipher s ∧
                      _sentNonce s' = _sentNonce s ∧
                      nextTick s' = nextTick s));
        [|intros ?; apply stable_ret|repeat split; reflexivity].
      unfold _parserStream_transform, _parse, destroy, initializeCipher, emit.
      stable_steps ltac:(simpl; assumption).
  - intros [->|(typeName & data & ->)]; simpl.
    + destruct (handshake_wrote P s)
        as (_ & _ & _ & _ & Hn & Hc & _ & Hd & He & Hx & _).
      repeat split; assumption.
    + destruct (_sendMessage_wrote P typeName data s)
        as (_ & _ & _ & _ & Hn & Hc & _ & Hd & He & Hx & _).
      repeat split; assumption.
  - intros ->. simpl.
    destruct (tick_keeps s)
      as (_ & _ & Hcs & _ & Hcr & _ & Hp & Hd & He & Hx & _).
    repeat split; assumption.
Qed.

End Separation.

(** ** The further properties on the protocol of the test *)

Module Scenarios.
Import Reference.

Lemma apple_orange_is_made :
  makeProtocol apple_orange_options = Normal apple_orange.
Proof. vm_compute. reflexivity. Qed.

Lemma anna_is_made : Protocol key anna_random = Normal anna.
Proof. reflexivity. Qed.

Lemma anna_is_reachable : reachable apple_orange anna.
Proof. exists key, anna_random, anna, []. split; reflexivity. Qed.

Lemma bob_is_reachable : reachable apple_orange bob.
Proof. exists key, bob_random, bob, []. split; reflexivity. Qed.

Lemma apple_is_declared :
  messageTypesByName apple_orange !! js "apple" = Some apple_type.
Proof. vm_compute. reflexivity. Qed.

(** The options of the test are accepted; those with a schema that does
    not compile are turned down with the error of [ajv.compile], which
    comes before the [TypeError] for the entry that is [null]. *)
Lemma factory_accepts_witness :
  (∃ P, makeProtocol apple_orange_options = Normal P) ∧
  (∃ entries,
     options_messages apple_orange_options = messages_object entries ∧
     entries ≠ ∅ ∧
     ∀ n entry, entries !! n = Some entry → entry_error entry = None) ∧
  sort (Object_keys (messages rejected_options)) !! 0 = Some (js "apple") ∧
  makeProtocol rejected_options = Throw schema_error.
Proof.
  destruct (factory_accepts apple_orange_options) as [[Hsome _] _].
  assert (Hmade : ∃ P, makeProtocol apple_orange_options = Normal P)
    by (exists apple_orange; exact apple_orange_is_made).
  split; [exact Hmade|]. split; [apply (Hsome Hmade)|].
  assert (Hfirst : sort (Object_keys (messages rejected_options)) !! 0
                   = Some (js "apple")) by (vm_compute; reflexivity).
  split; [exact Hfirst|].
  destruct (factory_accepts rejected_options) as (_ & _ & Herror & _).
  apply (Herror (of_nat 1) _ 0 (js "apple")
           (entry_object {| schema := Some (Throw schema_error);
                            options_verify := verify_absent |})
           schema_error eq_refl eq_refl eq_refl eq_refl Hfirst).
  - vm_compute. reflexivity.
  - reflexivity.
  - intros j m entry' Hj. lia.
Defined.

(** [apple] is found under prefix 1, and the prefixes in use are 1 and 2. *)
Lemma tables_agree_witness :
  makeProtocol apple_orange_options = Normal apple_orange ∧
  messageTypesByPrefix apple_orange !! prefix apple_type = Some apple_type ∧
  messageTypePrefixes apple_orange
  = seq 0 (S (size (messages apple_orange_options))).
Proof.
  split; [exact apple_orange_is_made|].
  destruct (tables_agree apple_orange_options apple_orange
              apple_orange_is_made) as (Hname & _ & _ & _ & Hprefixes).
  split; [|exact Hprefixes].
  apply (Hname (js "apple") apple_type apple_is_declared).
Defined.

(** An apple comes in and is delivered as [apple]. *)
Lemma declared_message_is_delivered_witness :
  makeProtocol apple_orange_options = Normal apple_orange ∧
  messageTypesByName apple_orange !! js "apple" = Some apple_type ∧
  JSON_parse apple_frame
  = Some (JArray [JNumber (of_nat 1); JString (js "apple")]) ∧
  _parserStream_transform apple_orange apple_frame anna
  = (Normal tt, add_emitted (message_event (js "apple") (JString (js "apple")))
                  anna).
Proof.
  assert (Hparse : JSON_parse apple_frame
                   = Some (JArray [JNumber (of_nat 1); JString (js "apple")]))
    by (vm_compute; reflexivity).
  assert (Htag : strict_equals (JNumber (of_nat 1)) (of_nat (prefix apple_type))
                 = true) by reflexivity.
  assert (Hvalid : accepts (valid apple_type) (JString (js "apple")) = true)
    by (vm_compute; reflexivity).
  assert (Hverify : verify apple_type (JString (js "apple")) = true)
    by reflexivity.
  split; [exact apple_orange_is_made|]. split; [exact apple_is_declared|].
  split; [exact Hparse|].
  exact (proj2 (declared_message_is_delivered apple_orange_options apple_orange
                  (js "apple") apple_type _ _ apple_frame anna
                  apple_orange_is_made apple_is_declared Hparse Htag Hvalid
                  Hverify)).
Defined.

(** Whatever frame anna gets has one of the three outcomes. *)
Lemma every_frame_has_one_outcome_witness :
  reachable apple_orange anna ∧
  ((∃ e, _parse apple_orange apple_frame anna = (Normal (Some e), anna) ∧
         (e = SyntaxError ∨ e = new_Error "invalid tuple"
          ∨ ∃ v, e = version_mismatch v)) ∨
   (∃ ev, _parse apple_orange apple_frame anna
          = (Normal None, add_emitted ev anna)) ∨
   (_receivingCipher anna = None ∧
    ∃ nonce,
      _parse apple_orange apple_frame anna
      = (Normal None,
         add_emitted handshake_event
           (set_receivingCipher
              (Some (crypto_stream_xor_instance nonce (_key anna)))
              (set_receivingNonce (Some nonce) anna))))).
Proof.
  split; [exact anna_is_reachable|].
  exact (every_frame_has_one_outcome apple_orange apple_frame anna
           anna_is_reachable).
Defined.

(** The empty array is answered with [invalid] and [undefined]. *)
Lemma tuple_schema_arity_witness :
  JSON_parse (bytes "[]") = Some (JArray []) ∧
  _parserStream_transform apple_orange (bytes "[]") anna
  = (Normal tt, add_emitted (invalid_event JUndefined) anna).
Proof.
  assert (Hparse : JSON_parse (bytes "[]") = Some (JArray []))
    by (vm_compute; reflexivity).
  split; [exact Hparse|].
  destruct (tuple_schema_arity apple_orange (bytes "[]") anna)
    as (_ & _ & Hempty & _).
  exact (proj1 (Hempty Hparse)).
Defined.

(** anna sends an apple after her [finalize]: the call throws the error
    of the write and leaves her as she was. *)
Lemma every_send_has_one_outcome_witness :
  plain_names apple_orange ∧
  reachable apple_orange anna_ended ∧
  _sendMessage apple_orange (js "apple") (JString (js "apple")) anna_ended
  = (Throw (new_Error "write after end"), anna_ended) ∧
  emitted
    (_sendMessage apple_orange (js "apple") (JString (js "apple"))
       anna_ended).2
  = emitted anna_ended.
Proof.
  assert (Hplain : plain_names apple_orange)
    by (split; vm_compute; reflexivity).
  assert (Hreachable : reachable apple_orange anna_ended).
  { exists key, anna_random, anna, [call_finalize None].
    split; [exact anna_is_made|]. vm_compute. reflexivity. }
  assert (Hvalid : accepts (valid apple_type) (JString (js "apple"))
                   && verify apple_type (JString (js "apple")) = true)
    by (vm_compute; reflexivity).
  assert (Hended : encoder_ended anna_ended = true)
    by (vm_compute; reflexivity).
  split; [exact Hplain|]. split; [exact Hreachable|].
  destruct (every_send_has_one_outcome apple_orange (js "apple")
              (JString (js "apple")) anna_ended Hplain Hreachable)
    as (Hcase & _ & Hemitted & _).
  rewrite apple_is_declared, Hvalid, Hended in Hcase.
  split; [exact Hcase|exact Hemitted].
Defined.

(** After anna's handshake and an apple her key and nonce are the same. *)
Lemma ciphers_follow_key_and_nonces_witness :
  Protocol key anna_random = Normal anna ∧
  _key (run apple_orange
          [call_handshake;
           call_sendMessage (js "apple") (JString (js "apple"))] anna).2 = key ∧
  _sendingNonce
    (run apple_orange
       [call_handshake;
        call_sendMessage (js "apple") (JString (js "apple"))] anna).2
  = anna_random.
Proof.
  split; [exact anna_is_made|].
  destruct (ciphers_follow_key_and_nonces apple_orange key anna_random anna
              [call_handshake;
               call_sendMessage (js "apple") (JString (js "apple"))]
              _ _ anna_is_made (surjective_pairing _)) as (Hkey & Hnonce & _).
  split; [exact Hkey|exact Hnonce].
Defined.

(** bob's handshake is a handshake frame for anna, with bob's nonce. *)
Lemma handshake_is_accepted_by_peer_witness :
  makeProtocol apple_orange_options = Normal apple_orange ∧
  reachable apple_orange bob ∧ reachable apple_orange anna ∧
  JSON_parse (handshake_message apple_orange bob)
  = Some (handshake_tuple apple_orange bob) ∧
  handshake_frame apple_orange (handshake_message apple_orange bob) = true ∧
  frame_nonce (handshake_message apple_orange bob) = _sendingNonce bob.
Proof.
  assert (Hround : JSON_parse (handshake_message apple_orange bob)
                   = Some (handshake_tuple apple_orange bob))
    by (vm_compute; reflexivity).
  split; [exact apple_orange_is_made|]. split; [exact bob_is_reachable|].
  split; [exact anna_is_reachable|]. split; [exact Hround|].
  destruct (handshake_is_accepted_by_peer apple_orange_options apple_orange
              bob anna apple_orange_is_made bob_is_reachable
              anna_is_reachable Hround) as (Hframe & Hnonce & _).
  split; [exact Hframe|exact Hnonce].
Defined.

(** What anna writes after her handshake, through her cipher, reaches the
    decoder of bob, who has her handshake, framed as she framed it. *)
Lemma written_buffer_arrives_witness :
  encoder_ended anna_sent = false ∧
  _sentNonce anna_sent = true ∧ is_Some (_sendingCipher anna_sent) ∧
  _receivingCipher bob_received = _sendingCipher anna_sent ∧
  ∃ out b',
    (_encoderStream_write apple_frame sendMessage_given anna_sent).1
    = Normal tt ∧
    pushed (_encoderStream_write apple_frame sendMessage_given anna_sent).2
    = pushed anna_sent ++ out ∧
    for_each_chunk _writableStream_transform out bob_received
    = (Normal tt, b') ∧
    decoded b' = decoded bob_received ++ lengthPrefixedStream_encode apple_frame ∧
    (_sentNonce anna_sent = true →
     _receivingCipher b'
     = _sendingCipher
         (_encoderStream_write apple_frame sendMessage_given anna_sent).2).
Proof.
  assert (Hopen : encoder_ended anna_sent = false)
    by (vm_compute; reflexivity).
  assert (Hsent : _sentNonce anna_sent = true) by (vm_compute; reflexivity).
  assert (Hcipher : is_Some (_sendingCipher anna_sent))
    by (vm_compute; eauto).
  assert (Hsync : _receivingCipher bob_received = _sendingCipher anna_sent)
    by (vm_compute; reflexivity).
  split; [exact Hopen|]. split; [exact Hsent|]. split; [exact Hcipher|].
  split; [exact Hsync|].
  apply (written_buffer_arrives apple_frame sendMessage_given anna_sent
           bob_received Hopen).
  right. split; [exact Hsent|]. split; [exact Hcipher|exact Hsync].
Defined.

(** The apple anna writes between her call of [handshake] and its tick
    does not reach the decoder of bob, who has her handshake, as she framed
    it. *)
Lemma frame_before_tick_is_misread_witness :
  _sentNonce anna_written = false ∧ encoder_ended anna_written = false ∧
  _receivingCipher bob_received
  = Some (crypto_stream_xor_instance anna_random key) ∧
  pushed (_encoderStream_write apple_frame sendMessage_given anna_written).2
  = pushed anna_written ++ lengthPrefixedStream_encode apple_frame ∧
  decoded
    (for_each_chunk _writableStream_transform
       (lengthPrefixedStream_encode apple_frame) bob_received).2
  = decoded bob_received
    ++ (update_chunks (crypto_stream_xor_instance anna_random key)
          (lengthPrefixedStream_encode apple_frame)).2 ∧
  decoded
    (for_each_chunk _writableStream_transform
       (lengthPrefixedStream_encode apple_frame) bob_received).2
  ≠ decoded bob_received ++ lengthPrefixedStream_encode apple_frame.
Proof.
  assert (Hclear : _sentNonce anna_written = false)
    by (vm_compute; reflexivity).
  assert (Hopen : encoder_ended anna_written = false)
    by (vm_compute; reflexivity).
  assert (Hcipher : _receivingCipher bob_received
                    = Some (crypto_stream_xor_instance anna_random key))
    by (vm_compute; reflexivity).
  split; [exact Hclear|]. split; [exact Hopen|]. split; [exact Hcipher|].
  destruct (frame_before_tick_is_misread apple_frame sendMessage_given
              anna_written bob_received _ Hclear Hopen Hcipher)
    as (Hpushed & _ & Hdecoded & _).
  split; [exact Hpushed|]. split; [exact Hdecoded|].
  vm_compute. discriminate.
Defined.

(** After her [finalize] anna's handshake pushes nothing. *)
Lemma nothing_is_pushed_after_the_end_witness :
  encoder_ended anna_ended = true ∧
  pushed (run apple_orange [call_handshake] anna_ended).2 = pushed anna_ended.
Proof.
  assert (Hended : encoder_ended anna_ended = true)
    by (vm_compute; reflexivity).
  split; [exact Hended|].
  destruct (nothing_is_pushed_after_the_end apple_orange anna_ended
              [call_handshake]) as [_ Hfrozen].
  exact (proj2 (Hfrozen Hended)).
Defined.

(** An apple coming in makes anna push nothing. *)
Lemma directions_are_separate_witness :
  pushed (perform apple_orange (call_frame apple_frame) anna).2 = pushed anna.
Proof.
  destruct (directions_are_separate apple_orange (call_frame apple_frame) anna)
    as [Hinbound _].
  destruct Hinbound as [Hpushed _]; [right; exists apple_frame; reflexivity|].
  exact Hpushed.
Defined.

End Scenarios.
